(** * Chess and checkers rules engine: a shallow embedding of
      [chess.py] and [checkers.py], with the properties of the engine
      stated and proved over it.

    Conventions of the embedding.
    - Python [int] coordinates are [Z]; a square is a pair [(row, col)].
    - The colour strings ["белые"] and ["негры"] are the two constructors
      [White] and [Black]; no other colour is ever constructed.
    - Code that can raise returns a [result]; the board is threaded
      explicitly through the code that mutates it.
    - [self.board] is a list of eight row lists, indexed the way Python
      indexes lists (negative indices count from the end, anything else
      out of range raises [IndexError]). *)

From stdpp Require Import base numbers list.

Local Open Scope Z_scope.

(** ** Exceptions and results *)

(** [OutOfFuel] is not a Python exception: it marks a [while] loop of the
    model that used up its iteration bound. *)
Inductive exn := IndexError | TypeError | AttributeError | OutOfFuel.

Inductive result (A : Type) :=
| Ok (a : A)
| Raise (e : exn).
Arguments Ok {A} a.
Arguments Raise {A} e.

Definition bind {A B} (m : result A) (k : A -> result B) : result B :=
  match m with
  | Ok a => k a
  | Raise e => Raise e
  end.

Notation "'let*' x ':=' m 'in' k" := (bind m (fun x => k))
  (at level 10, x name, m at level 100, k at level 200).

(** [for x in xs: s = body(s, x)] with early exit on an exception. *)
Fixpoint for_each {A S} (xs : list A) (body : S -> A -> result S) (s : S)
  : result S :=
  match xs with
  | [] => Ok s
  | x :: xs' => let* s' := body s x in for_each xs' body s'
  end.

(** ** Colours and squares *)

Inductive Color := White | Black.

Global Instance Color_eq_dec : EqDecision Color.
Proof. solve_decision. Defined.

Definition color_eqb (a b : Color) : bool := bool_decide (a = b).

Definition other (c : Color) : Color :=
  match c with White => Black | Black => White end.

Definition pos : Type := Z * Z.

(** [Figure.check_pos] *)
Definition check_pos (end_row end_col : Z) : bool :=
  (0 <=? end_row) && (end_row <? 8) && (0 <=? end_col) && (end_col <? 8).

(** [(row, col) in moves] *)
Definition mem (p : pos) (moves : list pos) : bool := bool_decide (p ∈ moves).

(** ** Python list indexing *)

Definition py_index (len : nat) (i : Z) : option nat :=
  if (0 <=? i) && (i <? Z.of_nat len) then Some (Z.to_nat i)
  else if (- Z.of_nat len <=? i) && (i <? 0) then Some (Z.to_nat (i + Z.of_nat len))
  else None.

(** [l[i]] *)
Definition getitem {A} (l : list A) (i : Z) : result A :=
  match py_index (length l) i with
  | Some n => match l !! n with Some x => Ok x | None => Raise IndexError end
  | None => Raise IndexError
  end.

(** [l[i] = x] *)
Definition setitem {A} (l : list A) (i : Z) (x : A) : result (list A) :=
  match py_index (length l) i with
  | Some n => Ok (<[n := x]> l)
  | None => Raise IndexError
  end.

(** ** The board grid, shared by [Board], [NewBoard] and [CheckersBoard] *)

Abbreviation Grid A := (list (list (option A))).

Section Grid.
Context {A : Type}.

(** [[[None for _ in range(8)] for _ in range(8)]] *)
Definition empty_grid : Grid A := replicate 8 (replicate 8 None).

(** [Board.get_figure]: [self.board[row][col]] *)
Definition get_figure (board : Grid A) (row col : Z) : result (option A) :=
  let* r := getitem board row in getitem r col.

(** [self.board[row][col] = v]: the row object is fetched, then updated
    in place; rows are distinct objects, so no other row changes. *)
Definition set_figure (board : Grid A) (row col : Z) (v : option A)
  : result (Grid A) :=
  let* r := getitem board row in
  let* r' := setitem r col v in
  setitem board row r'.

(** Eight rows of eight cells. *)
Definition wf_board (board : Grid A) : Prop :=
  length board = 8%nat /\ Forall (fun r => length r = 8%nat) board.

(** Total lookup and update on on-board squares, used to describe what
    the fallible operations return. *)
Definition cell (board : Grid A) (row col : Z) : option A :=
  match board !! Z.to_nat row with
  | Some r => match r !! Z.to_nat col with Some x => x | None => None end
  | None => None
  end.

Definition upd (board : Grid A) (row col : Z) (v : option A) : Grid A :=
  match board !! Z.to_nat row with
  | Some r => <[Z.to_nat row := <[Z.to_nat col := v]> r]> board
  | None => board
  end.

(** The cell a Python index in [-8, 8) denotes. *)
Definition norm (i : Z) : Z := if i <? 0 then i + 8 else i.

(** Steps of the code that mutates the board.  The second component of
    the outcome is the board as the code leaves it: when a read or a
    write raises, that is the board reached so far. *)
Definition reading {B X} (board : Grid A) (m : result B)
    (k : B -> result X * Grid A) : result X * Grid A :=
  match m with
  | Ok a => k a
  | Raise e => (Raise e, board)
  end.

Definition writing {X} (board : Grid A) (row col : Z) (v : option A)
    (k : Grid A -> result X * Grid A) : result X * Grid A :=
  match set_figure board row col v with
  | Ok board' => k board'
  | Raise e => (Raise e, board)
  end.
End Grid.

(** * Vocabulary of the statements *)

Definition on_board (q : pos) : Prop := check_pos q.1 q.2 = true.

(** A step to a neighbouring square: along a row, a column or a diagonal. *)
Definition unit_dir (y x : Z) : Prop :=
  -1 <= y <= 1 /\ -1 <= x <= 1 /\ (y, x) <> (0, 0).

(** The square [k] steps from [(start_row, start_col)] in direction [(y, x)]. *)
Definition along (start_row start_col y x k : Z) : pos :=
  (start_row + k * y, start_col + k * x).

(** How many squares of the board lie at or after [(row, col)] in
    direction [(y, x)], at most. *)
Definition bound (y x row col : Z) : Z :=
  if y =? 1 then 8 - row
  else if y =? -1 then row + 1
  else if x =? 1 then 8 - col
  else col + 1.

(** The colour of the square: dark squares have [row + col] odd. *)
Definition shade (q : pos) : Z := (q.1 + q.2) `mod` 2.

Definition all_on_board (ms : list pos) : Prop := forall q, q ∈ ms -> on_board q.

Section Paths.
Context {A : Type}.

(** The squares [from .. upto - 1] steps away are on the board and empty. *)
Definition clear_path (board : Grid A) (start_row start_col y x from upto : Z)
  : Prop :=
  forall j, from <= j < upto ->
    on_board (along start_row start_col y x j) /\
    cell board (start_row + j * y) (start_col + j * x) = None.

(** The first occupied square in direction [(y, x)] is [n] steps away
    and holds [p]. *)
Definition first_blocker (board : Grid A) (start_row start_col y x n : Z)
    (p : A) : Prop :=
  1 <= n /\
  clear_path board start_row start_col y x 1 n /\
  on_board (along start_row start_col y x n) /\
  cell board (start_row + n * y) (start_col + n * x) = Some p.

(** Every piece stands on a dark square. *)
Definition all_dark (board : Grid A) : Prop :=
  forall row col p, 0 <= row < 8 -> 0 <= col < 8 ->
    cell board row col = Some p -> (row + col) `mod` 2 = 1.
End Paths.

Section Counting.
Context {A : Type}.

(** What a square adds to the count of the pieces. *)
Definition occupied (o : option A) : nat :=
  match o with Some _ => 1 | None => 0 end.

(** The number of pieces on the board. *)
Definition census (board : Grid A) : nat :=
  sum_list_with (sum_list_with occupied) board.
End Counting.

(** * Chess: [chess.py] *)

Module Chess.

(** Class names, as [type(x).__name__] returns them and as
    [globals()[name]] resolves them back to the class. *)
Module Name.
Inductive t := Pawn | Rook | Knight | Bishop | Queen | King | Mage | Spearman | Demon.
End Name.

Global Instance Name_eq_dec : EqDecision Name.t.
Proof. solve_decision. Defined.

(** A piece object: its class and its attributes.  Only [Demon] has the
    mutable attribute [power], the name of a class. *)
Inductive Figure :=
| Pawn (color : Color)
| Rook (color : Color)
| Knight (color : Color)
| Bishop (color : Color)
| Queen (color : Color)
| King (color : Color)
| Mage (color : Color)
| Spearman (color : Color)
| Demon (color : Color) (power : Name.t).

Global Instance Figure_eq_dec : EqDecision Figure.
Proof. solve_decision. Defined.

Definition color (f : Figure) : Color :=
  match f with
  | Pawn c | Rook c | Knight c | Bishop c | Queen c | King c | Mage c
  | Spearman c | Demon c _ => c
  end.

(** [type(f).__name__] *)
Definition type_name (f : Figure) : Name.t :=
  match f with
  | Pawn _ => Name.Pawn
  | Rook _ => Name.Rook
  | Knight _ => Name.Knight
  | Bishop _ => Name.Bishop
  | Queen _ => Name.Queen
  | King _ => Name.King
  | Mage _ => Name.Mage
  | Spearman _ => Name.Spearman
  | Demon _ _ => Name.Demon
  end.

(** [globals()[name](color)]: the constructor call; [Demon.__init__] sets
    [power = "King"]. *)
Definition new (name : Name.t) (c : Color) : Figure :=
  match name with
  | Name.Pawn => Pawn c
  | Name.Rook => Rook c
  | Name.Knight => Knight c
  | Name.Bishop => Bishop c
  | Name.Queen => Queen c
  | Name.King => King c
  | Name.Mage => Mage c
  | Name.Spearman => Spearman c
  | Name.Demon => Demon c Name.King
  end.

Abbreviation Board := (Grid Figure).

(** [-1 if self.color == "белые" else 1] *)
Definition direction (c : Color) : Z :=
  if color_eqb c White then -1 else 1.

(** [self.check_pos(r, c) and board.get_figure(r, c) is None] *)
Definition free (board : Board) (r c : Z) : result bool :=
  if check_pos r c then
    let* p := get_figure board r c in
    Ok (match p with None => true | Some _ => false end)
  else Ok false.

(** [Figure.get_possible_moves]: the base class offers nothing. *)
Definition Figure_get_possible_moves (board : Board) (start_row start_col : Z)
  : result (list pos) := Ok [].

(** [Pawn.get_possible_moves] *)
Definition Pawn_get_possible_moves (self_color : Color) (board : Board)
    (start_row start_col : Z) : result (list pos) :=
  let moves := [] in
  let direction := direction self_color in
  let new_row := start_row + direction in
  let* moves :=
    let* one := free board new_row start_col in
    if one then
      let moves := moves ++ [(new_row, start_col)] in
      if color_eqb self_color White && (start_row =? 6)
         || color_eqb self_color Black && (start_row =? 1)
      then
        let new_row := start_row + 2 * direction in
        let* two := free board new_row start_col in
        if two then Ok (moves ++ [(new_row, start_col)]) else Ok moves
      else Ok moves
    else Ok moves in
  for_each [start_col - 1; start_col + 1]
    (fun moves col =>
       let new_row := start_row + direction in
       if check_pos new_row col then
         let* target_figure := get_figure board new_row col in
         match target_figure with
         | Some t =>
             if negb (color_eqb (color t) self_color)
             then Ok (moves ++ [(new_row, col)]) else Ok moves
         | None => Ok moves
         end
       else Ok moves)
    moves.

(** The [while self.check_pos(row, col)] loop of [Rook] and [Bishop] for
    one direction [(y, x)]; [fuel] bounds the number of times the body
    runs. *)
Fixpoint slide (fuel : nat) (self_color : Color) (board : Board)
    (row col y x : Z) (moves : list pos) : result (list pos) :=
  if check_pos row col then
    match fuel with
    | O => Raise OutOfFuel
    | S fuel' =>
        let* piece := get_figure board row col in
        match piece with
        | None =>
            slide fuel' self_color board (row + y) (col + x) y x
                  (moves ++ [(row, col)])
        | Some p =>
            if negb (color_eqb (color p) self_color)
            then Ok (moves ++ [(row, col)])
            else Ok moves
        end
    end
  else Ok moves.

(** [for y, x in directions: ...] around the loop above.  A ray has at
    most seven squares, so eight runs of the body are never used up. *)
Definition slide_all (self_color : Color) (board : Board)
    (start_row start_col : Z) (directions : list (Z * Z))
  : result (list pos) :=
  for_each directions
    (fun moves '(y, x) =>
       slide 8 self_color board (start_row + y) (start_col + x) y x moves)
    [].

Definition Rook_directions : list (Z * Z) := [(-1, 0); (1, 0); (0, -1); (0, 1)].
Definition Bishop_directions : list (Z * Z) := [(-1, -1); (-1, 1); (1, -1); (1, 1)].

(** [Rook.get_possible_moves] *)
Definition Rook_get_possible_moves (self_color : Color) (board : Board)
    (start_row start_col : Z) : result (list pos) :=
  slide_all self_color board start_row start_col Rook_directions.

(** [Bishop.get_possible_moves] *)
Definition Bishop_get_possible_moves (self_color : Color) (board : Board)
    (start_row start_col : Z) : result (list pos) :=
  slide_all self_color board start_row start_col Bishop_directions.

(** [Queen.get_possible_moves]: the Rook's list followed by the Bishop's. *)
Definition Queen_get_possible_moves (self_color : Color) (board : Board)
    (start_row start_col : Z) : result (list pos) :=
  let* r := Rook_get_possible_moves self_color board start_row start_col in
  let* b := Bishop_get_possible_moves self_color board start_row start_col in
  Ok (r ++ b).

(** The loop shared, word for word, by [Knight], [King] and [Spearman]:
    a candidate is kept when it is on the board and not occupied by a
    piece of the mover's colour (the second [get_figure] of the source
    reads the same cell as the first). *)
Definition scan (self_color : Color) (board : Board) (candidates : list pos)
  : result (list pos) :=
  for_each candidates
    (fun moves '(row, col) =>
       if check_pos row col then
         let* p := get_figure board row col in
         match p with
         | None => Ok (moves ++ [(row, col)])
         | Some q =>
             if negb (color_eqb (color q) self_color)
             then Ok (moves ++ [(row, col)]) else Ok moves
         end
       else Ok moves)
    [].

(** [Knight.get_possible_moves] *)
Definition Knight_get_possible_moves (self_color : Color) (board : Board)
    (start_row start_col : Z) : result (list pos) :=
  scan self_color board
    [ (start_row - 2, start_col - 1); (start_row - 2, start_col + 1);
      (start_row - 1, start_col - 2); (start_row - 1, start_col + 2);
      (start_row + 1, start_col - 2); (start_row + 1, start_col + 2);
      (start_row + 2, start_col - 1); (start_row + 2, start_col + 1) ].

(** [King.get_possible_moves] *)
Definition King_get_possible_moves (self_color : Color) (board : Board)
    (start_row start_col : Z) : result (list pos) :=
  scan self_color board
    [ (start_row - 1, start_col - 1); (start_row - 1, start_col);
      (start_row - 1, start_col + 1); (start_row, start_col - 1);
      (start_row, start_col + 1); (start_row + 1, start_col - 1);
      (start_row + 1, start_col); (start_row + 1, start_col + 1) ].

(** [Spearman.get_possible_moves] *)
Definition Spearman_get_possible_moves (self_color : Color) (board : Board)
    (start_row start_col : Z) : result (list pos) :=
  let direction := direction self_color in
  scan self_color board
    [ (start_row + direction, start_col - 1);
      (start_row + direction, start_col);
      (start_row + direction, start_col + 1) ].

(** [globals()[name](color).get_possible_moves(board, r, c)] for a piece
    constructed on the spot.  The object built for the name ["Demon"] is
    [new Name.Demon color], whose [power] is ["King"], so its own call
    resolves to [King(color).get_possible_moves]. *)
Definition fresh_moves (name : Name.t) (self_color : Color) (board : Board)
    (start_row start_col : Z) : result (list pos) :=
  match name with
  | Name.Pawn => Pawn_get_possible_moves self_color board start_row start_col
  | Name.Rook => Rook_get_possible_moves self_color board start_row start_col
  | Name.Knight => Knight_get_possible_moves self_color board start_row start_col
  | Name.Bishop => Bishop_get_possible_moves self_color board start_row start_col
  | Name.Queen => Queen_get_possible_moves self_color board start_row start_col
  | Name.King => King_get_possible_moves self_color board start_row start_col
  | Name.Mage => Figure_get_possible_moves board start_row start_col
  | Name.Spearman => Spearman_get_possible_moves self_color board start_row start_col
  | Name.Demon => King_get_possible_moves self_color board start_row start_col
  end.

(** [Demon.get_possible_moves]: [power] is read at every call. *)
Definition Demon_get_possible_moves (self_color : Color) (self_power : Name.t)
    (board : Board) (start_row start_col : Z) : result (list pos) :=
  let Power := self_power in
  fresh_moves Power self_color board start_row start_col.

(** Method dispatch on the class of [self]. *)
Definition get_possible_moves (self : Figure) (board : Board)
    (start_row start_col : Z) : result (list pos) :=
  match self with
  | Pawn c => Pawn_get_possible_moves c board start_row start_col
  | Rook c => Rook_get_possible_moves c board start_row start_col
  | Knight c => Knight_get_possible_moves c board start_row start_col
  | Bishop c => Bishop_get_possible_moves c board start_row start_col
  | Queen c => Queen_get_possible_moves c board start_row start_col
  | King c => King_get_possible_moves c board start_row start_col
  | Mage c => Figure_get_possible_moves board start_row start_col
  | Spearman c => Spearman_get_possible_moves c board start_row start_col
  | Demon c p => Demon_get_possible_moves c p board start_row start_col
  end.

(** [Figure.is_valid_move] *)
Definition is_valid_move (self : Figure) (board : Board)
    (start_row start_col end_row end_col : Z) : result bool :=
  if negb (check_pos end_row end_col) then Ok false else
  let* target_figure := get_figure board end_row end_col in
  if match target_figure with
     | Some t => color_eqb (color t) (color self)
     | None => false
     end
  then Ok false else
  let* possible := get_possible_moves self board start_row start_col in
  if negb (mem (end_row, end_col) possible)
     && negb (bool_decide (type_name self = Name.Mage))
  then Ok false else
  Ok true.

(** What [Board.move_figure] returns: [False], or the captured piece
    ([None] when the destination was empty). *)
Inductive MoveResult :=
| Rejected
| Captured (captured_figure : option Figure).

(** [Board.move_figure].  The second component is the board the call
    leaves behind, also when it raises. *)
Definition move_figure (board : Board) (start_row start_col end_row end_col : Z)
  : result MoveResult * Board :=
  reading board (get_figure board start_row start_col) (fun cell_figure =>
  match cell_figure with
  | None => (Ok Rejected, board)
  | Some figure =>
      reading board
        (is_valid_move figure board start_row start_col end_row end_col)
        (fun valid =>
      if valid then
        reading board (get_figure board end_row end_col) (fun captured_figure =>
        writing board end_row end_col (Some figure) (fun board1 =>
        writing board1 start_row start_col None (fun board2 =>
        (Ok (Captured captured_figure), board2))))
      else (Ok Rejected, board))
  end).

(** [Board.initialize_board], written as the grid the assignments
    produce on the empty grid. *)
Definition back_rank (c : Color) : list (option Figure) :=
  [ Some (Rook c); Some (Knight c); Some (Bishop c); Some (Queen c);
    Some (King c); Some (Bishop c); Some (Knight c); Some (Rook c) ].

Definition empty_row : list (option Figure) := replicate 8 None.

Definition initial_board : Board :=
  [ back_rank Black; replicate 8 (Some (Pawn Black));
    empty_row; empty_row; empty_row; empty_row;
    replicate 8 (Some (Pawn White)); back_rank White ].

(** [NewBoard.initialize_board] *)
Definition new_back_rank (c : Color) : list (option Figure) :=
  [ Some (Rook c); Some (Knight c); Some (Bishop c); Some (Mage c);
    Some (King c); Some (Bishop c); Some (Knight c); Some (Rook c) ].

Definition initial_new_board : Board :=
  [ new_back_rank Black; replicate 8 (Some (Spearman Black));
    empty_row;
    <[1%nat := Some (new Name.Demon Black)]> empty_row;
    <[6%nat := Some (new Name.Demon White)]> empty_row;
    empty_row;
    replicate 8 (Some (Spearman White)); new_back_rank White ].

(** [Move] *)
Record Move := {
  start_row : Z;
  start_col : Z;
  end_row : Z;
  end_col : Z;
  captured_figure : option Figure;
}.

(** [Game].  [move_count] is kept in half moves, twice the Python float:
    the float starts at [1] and only ever changes by [0.5], which is
    exact, so the doubled integer carries the same information. *)
Record Game := {
  board : Board;
  current_turn : Color;
  move_count : Z;
  moves : list Move;
}.

Inductive Mode := classic | special.

(** [Game.__init__] *)
Definition init (mode : Mode) : Game :=
  {| board := match mode with classic => initial_board | special => initial_new_board end;
     current_turn := White;
     move_count := 2;
     moves := [] |}.

(** One pass of the [while True] loop of [Game.play] consumes one [Input]:
    the values its input calls return.  [Select] carries the square that
    [choose_figure] read and the destination that [get_target_position]
    read or, for a Mage, that the two [randint(0, 7)] calls drew. *)
Inductive Input :=
| Undo
| Select (start_row start_col end_row end_col : Z).

(** The test [choose_figure] applies before it returns ["select"]; a
    square that fails it is asked for again and never reaches [play]. *)
Definition choose_figure (g : Game) (start_row start_col : Z) : result bool :=
  if negb (check_pos start_row start_col) then Ok false else
  let* piece := get_figure (board g) start_row start_col in
  match piece with
  | None => Ok false
  | Some p => Ok (color_eqb (color p) (current_turn g))
  end.

(** [Game.undo_move] *)
Definition undo_move (g : Game) : result Game :=
  match last (moves g) with
  | Some last_move =>
      let* f := get_figure (board g) (end_row last_move) (end_col last_move) in
      let* board1 :=
        set_figure (board g) (start_row last_move) (start_col last_move) f in
      let* board2 :=
        set_figure board1 (end_row last_move) (end_col last_move)
                   (captured_figure last_move) in
      Ok {| board := board2;
            current_turn := other (current_turn g);
            move_count := move_count g - 1;
            moves := removelast (moves g) |}
  | None => Ok g
  end.

(** [type(captured_figure) == King] *)
Definition is_King (captured : option Figure) : bool :=
  match captured with
  | Some f => bool_decide (type_name f = Name.King)
  | None => false
  end.

(** [if type(figure) == Demon and captured_figure != None:
       figure.power = type(captured_figure).__name__].
    [figure] is the object [move_figure] has just stored at the
    destination, and nothing else refers to it (the undo log holds
    captured pieces only), so the attribute write is a rewrite of that
    cell. *)
Definition transfer_power (board : Board) (figure : Figure)
    (end_row end_col : Z) (captured : option Figure) : Board :=
  match figure, captured with
  | Demon c _, Some cf => upd board end_row end_col (Some (Demon c (type_name cf)))
  | _, _ => board
  end.

(** The body of the [while True] loop of [Game.play]; the boolean is
    true when the body ends in [break]. *)
Definition play_iter (g : Game) (inp : Input) : result (Game * bool) :=
  match inp with
  | Undo => let* g' := undo_move g in Ok (g', false)
  | Select start_row start_col end_row end_col =>
      let* selected := choose_figure g start_row start_col in
      if negb selected then Ok (g, false) else
      let* cell_figure := get_figure (board g) start_row start_col in
      match cell_figure with
      | None => Raise AttributeError
      | Some figure =>
          let* _ :=
            if bool_decide (type_name figure = Name.Mage) then Ok []
            else get_possible_moves figure (board g) start_row start_col in
          let '(r, board') :=
            move_figure (board g) start_row start_col end_row end_col in
          let* captured := r in
          match captured with
          | Rejected =>
              Ok ({| board := board'; current_turn := current_turn g;
                     move_count := move_count g; moves := moves g |}, false)
          | Captured captured_figure =>
              let move := {| start_row := start_row; start_col := start_col;
                             end_row := end_row; end_col := end_col;
                             captured_figure := captured_figure |} in
              let board'' :=
                transfer_power board' figure end_row end_col captured_figure in
              if is_King captured_figure then
                Ok ({| board := board''; current_turn := current_turn g;
                       move_count := move_count g + 1;
                       moves := moves g ++ [move] |}, true)
              else
                Ok ({| board := board''; current_turn := other (current_turn g);
                       move_count := move_count g + 1;
                       moves := moves g ++ [move] |}, false)
          end
      end
  end.

(** How a run of [Game.play] on a finite input ends: the loop broke with
    a winner announced, or it is blocked in an input call. *)
Inductive Status :=
| Won (winner : Color)
| AwaitingInput.

(** [Game.play] *)
Fixpoint play (g : Game) (inputs : list Input) : result (Game * Status) :=
  match inputs with
  | [] => Ok (g, AwaitingInput)
  | inp :: rest =>
      let* step := play_iter g inp in
      let '(g', stop) := step in
      if stop then Ok (g', Won (current_turn g')) else play g' rest
  end.

(** ** Vocabulary of the statements about chess *)

(** What the mover may find on a destination: nothing, or an enemy. *)
Definition landing (self_color : Color) (board : Board) (q : pos) : Prop :=
  cell board q.1 q.2 = None \/
  exists p, cell board q.1 q.2 = Some p /\ color p <> self_color.

(** [q] is reached from the origin along [(y, x)] over empty squares. *)
Definition ray (self_color : Color) (board : Board) (sr sc y x : Z) (q : pos)
  : Prop :=
  exists k, 1 <= k /\ q = along sr sc y x k /\ on_board q /\
            clear_path board sr sc y x 1 k /\ landing self_color board q.

(** The directions a piece slides in. *)
Definition slide_directions (f : Figure) : list (Z * Z) :=
  match f with
  | Rook _ => Rook_directions
  | Bishop _ => Bishop_directions
  | Queen _ => Rook_directions ++ Bishop_directions
  | _ => []
  end.

(** A piece moves as a freshly built piece of its class does, except a
    Demon, which moves as a freshly built piece of the class named by its
    [power]. *)
Definition moves_as (f : Figure) : Name.t :=
  match f with
  | Demon _ power => power
  | _ => type_name f
  end.

(** The square holds a piece of colour [c]. *)
Definition held_by (board : Board) (c : Color) (r col : Z) : bool :=
  match cell board r col with
  | Some t => color_eqb (color t) c
  | None => false
  end.

(** The board a committed move leaves: the origin is empty, the
    destination holds the mover, and no other square has changed. *)
Definition committed (board board' : Board) (figure : Figure)
    (sr sc er ec : Z) : Prop :=
  cell board' er ec = Some figure /\
  cell board' (norm sr) (norm sc) = None /\
  forall r c, 0 <= r < 8 -> 0 <= c < 8 ->
    (r, c) <> (er, ec) -> (r, c) <> (norm sr, norm sc) ->
    cell board' r c = cell board r c.

(** The mover as it stands on its destination once [play] has dealt with
    the capture: a Demon that took a piece has that piece's class as its
    [power]; any other mover is as it was. *)
Definition empowered (figure : Figure) (captured : option Figure) : Figure :=
  match figure, captured with
  | Demon c _, Some cf => Demon c (type_name cf)
  | _, _ => figure
  end.

(** The state [play] is in after an accepted move. *)
Definition after_move (g : Game) (board' : Board) (figure : Figure)
    (sr sc er ec : Z) (captured : option Figure) : Game :=
  {| board := transfer_power board' figure er ec captured;
     current_turn :=
       if is_King captured then current_turn g else other (current_turn g);
     move_count := move_count g + 1;
     moves := moves g ++ [{| start_row := sr; start_col := sc;
                             end_row := er; end_col := ec;
                             captured_figure := captured |}] |}.

(** ** Vocabulary of the statements about the generators and the game loop *)

(** The rank a Pawn of colour [c] starts on: row 6 for White, row 1 for
    Black. *)
Definition home_rank (c : Color) (row : Z) : Prop :=
  c = White /\ row = 6 \/ c = Black /\ row = 1.

(** [q] is on the board and empty. *)
Definition empty_at (board : Board) (q : pos) : Prop :=
  on_board q /\ cell board q.1 q.2 = None.

(** [q] is on the board and holds a piece of another colour than [c]. *)
Definition enemy_at (c : Color) (board : Board) (q : pos) : Prop :=
  on_board q /\ exists p, cell board q.1 q.2 = Some p /\ color p <> c.

(** What a Pawn is offered. *)
Definition pawn_move (c : Color) (board : Board) (sr sc : Z) (q : pos) : Prop :=
  let d := direction c in
  q = (sr + d, sc) /\ empty_at board q
  \/ q = (sr + 2 * d, sc) /\ home_rank c sr /\
     empty_at board (sr + d, sc) /\ empty_at board q
  \/ (q = (sr + d, sc - 1) \/ q = (sr + d, sc + 1)) /\ enemy_at c board q.

(** The squares of a logged move are on the board. *)
Definition log_ok (m : Move) : Prop :=
  check_pos (start_row m) (start_col m) = true /\
  check_pos (end_row m) (end_col m) = true.

(** What [play] keeps true of the game between two passes of its loop. *)
Definition sound (g : Game) : Prop :=
  wf_board (board g) /\ Forall log_ok (moves g) /\
  move_count g = 2 + Z.of_nat (length (moves g)).

(** The colour whose ply the counter announces. *)
Definition to_move (g : Game) : Color :=
  if Z.even (move_count g) then White else Black.

(** The piece without what it has taken: its class and colour. *)
Definition erase (f : Figure) : Figure :=
  match f with
  | Demon c _ => Demon c Name.King
  | _ => f
  end.

(** The board with every Demon's [power] forgotten: which piece stands
    where. *)
Definition placement (board : Board) : Board :=
  (fun row : list (option Figure) =>
     (fun o : option Figure => erase <$> o) <$> row) <$> board.

(** The two assignments of [undo_move]. *)
Definition undo1 (board : Board) (sr sc er ec : Z) (captured : option Figure)
  : Board :=
  upd (upd board sr sc (cell board er ec)) er ec captured.

(** All of the log undone, latest move first. *)
Fixpoint unwind (board : Board) (rlog : list Move) : Board :=
  match rlog with
  | [] => board
  | m :: rlog' =>
      unwind (undo1 board (start_row m) (start_col m) (end_row m) (end_col m)
                    (captured_figure m)) rlog'
  end.

(** A logged move with the [power] of a captured Demon forgotten. *)
Definition erase_move (m : Move) : Move :=
  {| start_row := start_row m; start_col := start_col m;
     end_row := end_row m; end_col := end_col m;
     captured_figure := erase <$> captured_figure m |}.

(** The invariant: with the whole log undone the pieces stand as at the
    start. *)
Definition rewinds_to (start : Board) (g : Game) : Prop :=
  placement (unwind (board g) (reverse (moves g))) = placement start.

(** ** Sample games *)

(** A special-variant game in which the white Demon walks from g4 to g6
    while a black Spearman advances on the a-file. *)
Definition demon_walk : list Input :=
  [Select 4 6 3 6; Select 1 0 2 0; Select 3 6 2 6; Select 2 0 3 0].

(** A classic game: 1. f3 e5 2. g4 Qh4 3. a3, after which the black Queen
    on h4 looks at the white King on e1 along an open diagonal. *)
Definition queen_raid : list Input :=
  [Select 6 5 5 5; Select 1 4 3 4; Select 6 6 4 6; Select 0 3 4 7;
   Select 6 0 5 0].

(** The game a finite run leaves, for runs that do not raise. *)
Definition game_after (mode : Mode) (inputs : list Input) : Game :=
  match play (init mode) inputs with
  | Ok (g, _) => g
  | Raise _ => init mode
  end.

End Chess.

(** * Checkers: [checkers.py] *)

Module Checkers.

(** [Checker] and its subclass [KingChecker]. *)
Inductive Figure :=
| Checker (color : Color)
| KingChecker (color : Color).

Global Instance Figure_eq_dec : EqDecision Figure.
Proof. solve_decision. Defined.

Definition color (f : Figure) : Color :=
  match f with Checker c | KingChecker c => c end.

Abbreviation Board := (Grid Figure).

(** [self.check_pos(r, c) and board.get_figure(r, c) is None] *)
Definition free (board : Board) (r c : Z) : result bool :=
  if check_pos r c then
    let* p := get_figure board r c in
    Ok (match p with None => true | Some _ => false end)
  else Ok false.

Definition directions : list (Z * Z) := [(1, 1); (1, -1); (-1, 1); (-1, -1)].

(** The first loop of [Checker.get_possible_moves]: the jumps. *)
Definition Checker_captures (self_color : Color) (board : Board)
    (start_row start_col : Z) : result (list pos) :=
  for_each directions
    (fun moves '(dr, dc) =>
       if check_pos (start_row + dr) (start_col + dc) then
         let* position := get_figure board (start_row + dr) (start_col + dc) in
         match position with
         | Some p =>
             if negb (color_eqb (color p) self_color) then
               let* landing :=
                 free board (start_row + 2 * dr) (start_col + 2 * dc) in
               if landing
               then Ok (moves ++ [(start_row + 2 * dr, start_col + 2 * dc)])
               else Ok moves
             else Ok moves
         | None => Ok moves
         end
       else Ok moves)
    [].

(** [Checker.get_possible_moves] *)
Definition Checker_get_possible_moves (self_color : Color) (board : Board)
    (start_row start_col : Z) (is_killer : bool) : result (list pos) :=
  let* moves := Checker_captures self_color board start_row start_col in
  if negb (is_killer || match moves with [] => false | _ => true end) then
    let dir := if color_eqb self_color White then -1 else 1 in
    for_each [(dir, 1); (dir, -1)]
      (fun moves '(dr, dc) =>
         if check_pos (start_row + dr) (start_col + dc)
         then Ok (moves ++ [(start_row + dr, start_col + dc)])
         else Ok moves)
      moves
  else Ok moves.

(** The [while self.check_pos(row, col)] loop of
    [KingChecker.get_possible_moves] for one direction; [fuel] bounds the
    number of times the body runs. *)
Fixpoint king_slide (fuel : nat) (self_color : Color) (board : Board)
    (row col dr dc : Z) (moves : list pos) : result (list pos) :=
  if check_pos row col then
    match fuel with
    | O => Raise OutOfFuel
    | S fuel' =>
        let* piece := get_figure board row col in
        match piece with
        | None =>
            king_slide fuel' self_color board (row + dr) (col + dc) dr dc
                       (moves ++ [(row, col)])
        | Some p =>
            if negb (color_eqb (color p) self_color) then
              let jump_row := row + dr in
              let jump_col := col + dc in
              let* landing := free board jump_row jump_col in
              if landing then Ok (moves ++ [(jump_row, jump_col)]) else Ok moves
            else Ok moves
        end
    end
  else Ok moves.

(** [KingChecker.get_possible_moves]; [is_killer] is not read.  A
    diagonal has at most seven squares, so eight runs of the loop body
    are never used up. *)
Definition KingChecker_get_possible_moves (self_color : Color) (board : Board)
    (start_row start_col : Z) (is_killer : bool) : result (list pos) :=
  for_each directions
    (fun moves '(dr, dc) =>
       king_slide 8 self_color board (start_row + dr) (start_col + dc) dr dc moves)
    [].

(** Method dispatch on the class of [self]. *)
Definition get_possible_moves (self : Figure) (board : Board)
    (start_row start_col : Z) (is_killer : bool) : result (list pos) :=
  match self with
  | Checker c => Checker_get_possible_moves c board start_row start_col is_killer
  | KingChecker c => KingChecker_get_possible_moves c board start_row start_col is_killer
  end.

(** [Checker.is_valid_move], inherited by [KingChecker]. *)
Definition is_valid_move (self : Figure) (board : Board)
    (start_row start_col end_row end_col : Z) (is_killer : bool) : result bool :=
  if negb (check_pos end_row end_col) then Ok false else
  let* target := get_figure board end_row end_col in
  match target with
  | Some _ => Ok false
  | None =>
      let* possible_moves :=
        get_possible_moves self board start_row start_col is_killer in
      if negb (mem (end_row, end_col) possible_moves) then Ok false else Ok true
  end.

(** [CheckersBoard.initialize_board]: the two [for] loops over
    [range(8)], cell by cell. *)
Definition initial_cell (row col : Z) : option Figure :=
  if (row + col) `mod` 2 =? 1 then
    if row <? 3 then Some (Checker Black)
    else if row >? 4 then Some (Checker White)
    else None
  else None.

Definition initial_board : Board :=
  (fun row => (fun col => initial_cell row col) <$> seqZ 0 8) <$> seqZ 0 8.

(** What [CheckersBoard.move_figure] returns: [False], or the captured
    piece ([None] for a move that takes nothing). *)
Inductive MoveResult :=
| Rejected
| Captured (captured_figure : option Figure).

(** The promotion test at the end of [CheckersBoard.move_figure];
    [isinstance(figure, Checker)] holds for both classes. *)
Definition promotes (figure : Figure) (end_row : Z) : bool :=
  color_eqb (color figure) White && (end_row =? 0)
  || color_eqb (color figure) Black && (end_row =? 7).

(** [CheckersBoard.move_figure].  The second component is the board the
    call leaves behind, also when it raises. *)
Definition move_figure (board : Board)
    (start_row start_col end_row end_col : Z) (is_killer : bool)
  : result MoveResult * Board :=
  reading board (get_figure board start_row start_col) (fun cell_figure =>
  match cell_figure with
  | None => (Ok Rejected, board)
  | Some figure =>
      reading board
        (is_valid_move figure board start_row start_col end_row end_col is_killer)
        (fun valid =>
      if valid then
        let delta_row := end_row - start_row in
        let delta_col := end_col - start_col in
        let dr := if delta_row >? 0 then 1 else -1 in
        let dc := if delta_col >? 0 then 1 else -1 in
        let relocate (board0 : Board) (captured_figure : option Figure) :=
          writing board0 end_row end_col (Some figure) (fun board1 =>
          writing board1 start_row start_col None (fun board2 =>
          if promotes figure end_row then
            writing board2 end_row end_col (Some (KingChecker (color figure)))
              (fun board3 => (Ok (Captured captured_figure), board3))
          else (Ok (Captured captured_figure), board2))) in
        if Z.abs delta_row >=? 2 then
          reading board (get_figure board (end_row - dr) (end_col - dc))
            (fun captured_figure =>
          writing board (end_row - dr) (end_col - dc) None (fun board0 =>
          relocate board0 captured_figure))
        else relocate board None
      else (Ok Rejected, board))
  end).

(** [CheckersGame]: [move_count] is kept in half moves, as for chess. *)
Record Game := {
  board : Board;
  current_turn : Color;
  move_count : Z;
}.

(** [CheckersGame.__init__] *)
Definition init : Game :=
  {| board := initial_board; current_turn := White; move_count := 2 |}.

(** Where [CheckersGame.play] is blocked waiting for input: in
    [choose_figure], at the top of the outer loop, or in
    [get_target_position], inside the inner loop with its locals
    [start_row], [start_col] and [is_killer]. *)
Inductive Phase :=
| Selecting
| Moving (start_row start_col : Z) (is_killer : bool).

(** What an input call reads: the word [undo], or a square. *)
Inductive Input :=
| Undo
| Pos (row col : Z).

(** [self.move_count += 0.5; self.current_turn = ...; break] *)
Definition end_turn (g : Game) : Game * Phase :=
  ({| board := board g; current_turn := other (current_turn g);
      move_count := move_count g + 1 |}, Selecting).

(** The top of the inner [while True] loop up to the next input call:
    the piece at the current square is asked for its moves; with none
    the turn ends, otherwise the loop waits for a destination. *)
Definition enter (g : Game) (start_row start_col : Z) (is_killer : bool)
  : result (Game * Phase) :=
  let* cell_figure := get_figure (board g) start_row start_col in
  match cell_figure with
  | None => Raise AttributeError
  | Some figure =>
      let* moves :=
        get_possible_moves figure (board g) start_row start_col is_killer in
      match moves with
      | [] => Ok (end_turn g)
      | _ => Ok (g, Moving start_row start_col is_killer)
      end
  end.

(** The test [choose_figure] applies before it returns ["select"]. *)
Definition choose_figure (g : Game) (start_row start_col : Z) : result bool :=
  if negb (check_pos start_row start_col) then Ok false else
  let* piece := get_figure (board g) start_row start_col in
  match piece with
  | None => Ok false
  | Some p => Ok (color_eqb (color p) (current_turn g))
  end.

(** [CheckersGame.play], from one input call to the next.
    - In [choose_figure] the word [undo] is returned to [play] as
      [("undo", None, None)]; [play] does not test the command and calls
      [get_figure(None, None)], which raises [TypeError].
    - In [get_target_position] the word [undo] does not parse and a
      square off the board is refused: both are asked for again. *)
Definition step (g : Game) (ph : Phase) (inp : Input) : result (Game * Phase) :=
  match ph, inp with
  | Selecting, Undo => Raise TypeError
  | Selecting, Pos row col =>
      let* selected := choose_figure g row col in
      if selected then enter g row col false else Ok (g, Selecting)
  | Moving start_row start_col is_killer, Undo => Ok (g, ph)
  | Moving start_row start_col is_killer, Pos end_row end_col =>
      if negb (check_pos end_row end_col) then Ok (g, ph) else
      let '(r, board') :=
        move_figure (board g) start_row start_col end_row end_col is_killer in
      let g' := {| board := board'; current_turn := current_turn g;
                   move_count := move_count g |} in
      let* captured := r in
      match captured with
      | Rejected => enter g' start_row start_col is_killer
      | Captured (Some _) => enter g' end_row end_col true
      | Captured None => Ok (end_turn g')
      end
  end.

(** A run of [CheckersGame.play] on a finite sequence of inputs. *)
Fixpoint run (g : Game) (ph : Phase) (inputs : list Input)
  : result (Game * Phase) :=
  match inputs with
  | [] => Ok (g, ph)
  | inp :: rest =>
      let* next := step g ph inp in
      run (fst next) (snd next) rest
  end.

(** ** Vocabulary of the statements about checkers *)

(** The destinations are on the board and on squares of the colour of the
    origin. *)
Definition same_shade (sr sc : Z) (ms : list pos) : Prop :=
  forall q, q ∈ ms -> on_board q /\ shade q = shade (sr, sc).

(** The piece a move leaves on its destination: the mover, or the king
    it is promoted to. *)
Definition landed (figure : Figure) (end_row : Z) : Figure :=
  if promotes figure end_row then KingChecker (color figure) else figure.

Definition is_jump (start_row end_row : Z) : bool :=
  Z.abs (end_row - start_row) >=? 2.

(** The square just before the destination, which a jump clears. *)
Definition jumped (start_row start_col end_row end_col : Z) : pos :=
  (end_row - (if end_row - start_row >? 0 then 1 else -1),
   end_col - (if end_col - start_col >? 0 then 1 else -1)).

(** The board a committed move leaves: the jumped square (for a jump)
    and the origin are empty, the destination holds the mover or the
    king it is promoted to, and no other square has changed. *)
Definition committed (board board' : Board) (figure : Figure)
    (sr sc er ec : Z) : Prop :=
  let mid := jumped sr sc er ec in
  cell board' er ec = Some (landed figure er) /\
  cell board' (norm sr) (norm sc) = None /\
  (is_jump sr er = true -> cell board' (norm mid.1) (norm mid.2) = None) /\
  forall r c, 0 <= r < 8 -> 0 <= c < 8 ->
    (r, c) <> (er, ec) -> (r, c) <> (norm sr, norm sc) ->
    (is_jump sr er = true -> (r, c) <> (norm mid.1, norm mid.2)) ->
    cell board' r c = cell board r c.

(** The boards a game can show: the initial layout, and whatever a call
    of [move_figure] leaves behind, whatever it was asked and whatever it
    returned. *)
Inductive reachable : Board -> Prop :=
| reachable_initial : reachable initial_board
| reachable_move board sr sc er ec k r board' :
    reachable board ->
    move_figure board sr sc er ec k = (r, board') ->
    reachable board'.

(** [q] is where a [Checker] lands when it jumps an adjacent enemy. *)
Definition jump_square (c : Color) (board : Board) (sr sc : Z) (q : pos) : Prop :=
  exists dr dc,
    (dr, dc) ∈ directions /\ q = (sr + 2 * dr, sc + 2 * dc) /\
    check_pos (sr + dr) (sc + dc) = true /\
    (exists p, cell board (sr + dr) (sc + dc) = Some p /\ color p <> c) /\
    on_board q /\ cell board q.1 q.2 = None.

(** ** Vocabulary of the statements about the generators and the game loop *)

(** [-1 if self.color == "белые" else 1] *)
Definition forward (c : Color) : Z := if color_eqb c White then -1 else 1.

(** What a [Checker] is offered. *)
Definition checker_move (c : Color) (board : Board) (sr sc : Z)
    (is_killer : bool) (q : pos) : Prop :=
  jump_square c board sr sc q
  \/ is_killer = false /\ (forall q', ~ jump_square c board sr sc q') /\
     q.1 = sr + forward c /\ (q.2 = sc + 1 \/ q.2 = sc - 1) /\ on_board q.

(** What a [KingChecker] is offered along [(dr, dc)]: an empty square
    reached over empty squares, or the empty square right behind the
    first piece met, when that piece is an enemy. *)
Definition king_reach (c : Color) (board : Board) (sr sc dr dc : Z) (q : pos)
  : Prop :=
  exists k, 1 <= k /\ clear_path board sr sc dr dc 1 k /\
    (q = along sr sc dr dc k /\ on_board q /\ cell board q.1 q.2 = None
     \/ on_board (along sr sc dr dc k) /\
        (exists p, cell board (sr + k * dr) (sc + k * dc) = Some p /\
                   color p <> c) /\
        q = along sr sc dr dc (k + 1) /\ on_board q /\
        cell board q.1 q.2 = None).

(** What a KingChecker is offered. *)
Definition king_move (c : Color) (board : Board) (sr sc : Z) (q : pos) : Prop :=
  exists dr dc, (dr, dc) ∈ directions /\ king_reach c board sr sc dr dc q.

(** Where a valid move goes: [n] steps along a diagonal to an empty
    square, the square before it being empty or held by an enemy when
    [n >= 2]. *)
Definition diagonal_move (mover_color : Color) (board : Board)
    (sr sc er ec : Z) : Prop :=
  exists dr dc n,
    (dr = 1 \/ dr = -1) /\ (dc = 1 \/ dc = -1) /\ 1 <= n /\
    er = sr + n * dr /\ ec = sc + n * dc /\
    check_pos er ec = true /\ cell board er ec = None /\
    (2 <= n ->
     check_pos (er - dr) (ec - dc) = true /\
     (cell board (er - dr) (ec - dc) = None \/
      exists p, cell board (er - dr) (ec - dc) = Some p /\ color p <> mover_color)).

(** No uncrowned checker stands on the row where it is crowned. *)
Definition all_crowned (board : Board) : Prop :=
  forall r c col, 0 <= r < 8 -> 0 <= c < 8 ->
    cell board r c = Some (Checker col) -> promotes (Checker col) r = false.

(** The colour whose ply the counter announces. *)
Definition to_move (g : Game) : Color :=
  if Z.even (move_count g) then White else Black.

(** What [play] keeps true of the game while it waits for input. *)
Definition waiting_ok (g : Game) (ph : Phase) : Prop :=
  reachable (board g) /\ current_turn g = to_move g /\
  match ph with
  | Selecting => True
  | Moving sr sc _ =>
      check_pos sr sc = true /\ exists mover, cell (board g) sr sc = Some mover
  end.

(** ** A sample game *)

(** A game from the initial position: White brings a checker to b8,
    where it is crowned, while Black opens the way; fourteen plies. *)
Definition king_game : list Input :=
  [ Pos 5 0; Pos 4 1;  Pos 2 1; Pos 3 0;
    Pos 5 2; Pos 4 3;  Pos 1 0; Pos 2 1;
    Pos 4 1; Pos 3 2;  Pos 2 7; Pos 3 6;
    Pos 3 2; Pos 1 0;  Pos 1 2; Pos 2 1;
    Pos 5 6; Pos 4 7;  Pos 0 1; Pos 1 2;
    Pos 6 1; Pos 5 0;  Pos 2 1; Pos 3 2;
    Pos 1 0; Pos 0 1;  Pos 2 3; Pos 3 4 ].

(** The board a finite run from the initial layout leaves, for runs that
    do not raise. *)
Definition board_after (inputs : list Input) : Board :=
  match run init Selecting inputs with
  | Ok (g, _) => board g
  | Raise _ => initial_board
  end.

End Checkers.

(** * Facts about Python indexing and the grid *)

Lemma check_pos_true r c :
  check_pos r c = true <-> 0 <= r < 8 /\ 0 <= c < 8.
Proof. unfold check_pos. rewrite !andb_true_iff. lia. Qed.

Lemma check_pos_false r c :
  check_pos r c = false <-> ~ (0 <= r < 8 /\ 0 <= c < 8).
Proof. rewrite <- check_pos_true. destruct (check_pos r c); naive_solver. Qed.

Lemma norm_range i : -8 <= i < 8 -> 0 <= norm i < 8.
Proof. unfold norm. destruct (Z.ltb_spec i 0); lia. Qed.

Lemma norm_id i : 0 <= i -> norm i = i.
Proof. unfold norm. destruct (Z.ltb_spec i 0); lia. Qed.

Lemma norm_parity i : (norm i) `mod` 2 = i `mod` 2.
Proof.
  unfold norm. destruct (Z.ltb_spec i 0); [|done].
  replace (i + 8) with (i + 4 * 2) by lia. apply Z_mod_plus_full.
Qed.

Ltac zcases :=
  repeat match goal with
         | |- context [?a <=? ?b] => destruct (Z.leb_spec a b)
         | |- context [?a <? ?b] => destruct (Z.ltb_spec a b)
         end; simpl; try done; try lia.

Lemma py_index_norm i :
  -8 <= i < 8 -> py_index 8 i = Some (Z.to_nat (norm i)).
Proof. intros Hi. unfold py_index, norm. zcases. Qed.

Lemma py_index_out i : ~ (-8 <= i < 8) -> py_index 8 i = None.
Proof. intros Hi. unfold py_index. zcases. Qed.

Section GridFacts.
Context {A : Type}.
Implicit Types (b : Grid A) (v : option A).

Lemma wf_row b n : wf_board b -> (n < 8)%nat ->
  exists r, b !! n = Some r /\ length r = 8%nat.
Proof.
  intros [Hlen Hrows] Hn.
  destruct (lookup_lt_is_Some_2 b n) as [r Hr]; [lia|].
  exists r. split; [done|]. by eapply Forall_lookup_1 in Hrows.
Qed.

Lemma wf_empty_grid : wf_board (@empty_grid A).
Proof. split; [done|]. by repeat constructor. Qed.

Lemma get_figure_index b r c :
  wf_board b -> -8 <= r < 8 -> -8 <= c < 8 ->
  get_figure b r c = Ok (cell b (norm r) (norm c)).
Proof.
  intros Hwf Hr Hc. unfold get_figure, getitem, cell.
  destruct (wf_row b (Z.to_nat (norm r)) Hwf) as (row & Hrow & Hlen).
  { pose proof (norm_range r Hr). lia. }
  rewrite (proj1 Hwf), (py_index_norm r Hr), Hrow. simpl.
  rewrite Hlen, (py_index_norm c Hc).
  destruct (lookup_lt_is_Some_2 row (Z.to_nat (norm c))) as [x Hx].
  { pose proof (norm_range c Hc). lia. }
  by rewrite Hx.
Qed.

Lemma get_figure_ok b r c :
  wf_board b -> check_pos r c = true -> get_figure b r c = Ok (cell b r c).
Proof.
  intros Hwf [Hr Hc]%check_pos_true.
  rewrite get_figure_index by (done || lia).
  by rewrite !norm_id by lia.
Qed.

Lemma get_figure_raise b r c :
  wf_board b -> ~ (-8 <= r < 8 /\ -8 <= c < 8) ->
  get_figure b r c = Raise IndexError.
Proof.
  intros Hwf Hout. unfold get_figure, getitem.
  rewrite (proj1 Hwf).
  destruct (decide (-8 <= r < 8)) as [Hr|Hr].
  - destruct (wf_row b (Z.to_nat (norm r)) Hwf) as (row & Hrow & Hlen).
    { pose proof (norm_range r Hr). lia. }
    rewrite (py_index_norm r Hr), Hrow. simpl.
    rewrite Hlen, py_index_out; [done|tauto].
  - by rewrite (py_index_out r Hr).
Qed.

Lemma set_figure_index b r c v :
  wf_board b -> -8 <= r < 8 -> -8 <= c < 8 ->
  set_figure b r c v = Ok (upd b (norm r) (norm c) v).
Proof.
  intros Hwf Hr Hc. unfold set_figure, getitem, setitem, upd.
  destruct (wf_row b (Z.to_nat (norm r)) Hwf) as (row & Hrow & Hlen).
  { pose proof (norm_range r Hr). lia. }
  rewrite (proj1 Hwf), (py_index_norm r Hr), Hrow. simpl.
  by rewrite Hlen, (py_index_norm c Hc).
Qed.

Lemma set_figure_raise b r c v :
  wf_board b -> ~ (-8 <= r < 8 /\ -8 <= c < 8) ->
  set_figure b r c v = Raise IndexError.
Proof.
  intros Hwf Hout. unfold set_figure, getitem, setitem.
  rewrite (proj1 Hwf).
  destruct (decide (-8 <= r < 8)) as [Hr|Hr].
  - destruct (wf_row b (Z.to_nat (norm r)) Hwf) as (row & Hrow & Hlen).
    { pose proof (norm_range r Hr). lia. }
    rewrite (py_index_norm r Hr), Hrow. simpl.
    rewrite Hlen, py_index_out; [done|tauto].
  - by rewrite (py_index_out r Hr).
Qed.

Lemma wf_upd b r c v : wf_board b -> wf_board (upd b r c v).
Proof.
  intros [Hlen Hrows]. unfold upd.
  destruct (b !! Z.to_nat r) as [row|] eqn:Hrow; [|done].
  split.
  - by rewrite length_insert.
  - apply Forall_insert; [done|]. rewrite length_insert.
    by eapply Forall_lookup_1 in Hrows.
Qed.

Lemma cell_upd_same b r c v :
  wf_board b -> 0 <= r < 8 -> 0 <= c < 8 -> cell (upd b r c v) r c = v.
Proof.
  intros Hwf Hr Hc. unfold cell, upd.
  destruct (wf_row b (Z.to_nat r) Hwf) as (row & Hrow & Hlen); [lia|].
  rewrite Hrow, list_lookup_insert_eq by (rewrite (proj1 Hwf); lia).
  by rewrite list_lookup_insert_eq by lia.
Qed.

Lemma cell_upd_other b r c v r' c' :
  0 <= r -> 0 <= c -> 0 <= r' -> 0 <= c' -> (r, c) <> (r', c') ->
  cell (upd b r c v) r' c' = cell b r' c'.
Proof.
  intros Hr Hc Hr' Hc' Hne. unfold cell, upd.
  destruct (b !! Z.to_nat r) as [row|] eqn:Hrow; [|done].
  destruct (decide (r = r')) as [->|Hrr].
  - destruct (decide (Z.to_nat r' < length b)%nat).
    + rewrite list_lookup_insert_eq, Hrow by done.
      rewrite list_lookup_insert_ne; [done|]. intros Heq.
      apply Hne. f_equal. lia.
    + rewrite lookup_ge_None_2 in Hrow by lia. done.
  - rewrite list_lookup_insert_ne by lia. done.
Qed.

Lemma board_ext b1 b2 :
  wf_board b1 -> wf_board b2 ->
  (forall r c, 0 <= r < 8 -> 0 <= c < 8 -> cell b1 r c = cell b2 r c) ->
  b1 = b2.
Proof.
  intros Hwf1 Hwf2 Hcells.
  apply (list_eq_same_length _ _ 8); [apply Hwf2|apply Hwf1|].
  intros i row1 row2 Hi Hrow1 Hrow2.
  pose proof (Forall_lookup_1 _ _ _ _ (proj2 Hwf1) Hrow1) as Hlen1.
  pose proof (Forall_lookup_1 _ _ _ _ (proj2 Hwf2) Hrow2) as Hlen2.
  simpl in Hlen1, Hlen2.
  apply (list_eq_same_length _ _ 8); [done..|].
  intros j x1 x2 Hj Hx1 Hx2.
  specialize (Hcells (Z.of_nat i) (Z.of_nat j) ltac:(lia) ltac:(lia)).
  unfold cell in Hcells. rewrite !Nat2Z.id in Hcells.
  by rewrite Hrow1, Hrow2, Hx1, Hx2 in Hcells.
Qed.
End GridFacts.

Create HintDb grid.
#[export] Hint Resolve wf_upd wf_empty_grid : grid.

Section MoreGrid.
Context {A : Type}.
Implicit Types (b : Grid A) (v : option A).

Lemma get_figure_cases b r c :
  wf_board b ->
  (-8 <= r < 8 /\ -8 <= c < 8 /\ get_figure b r c = Ok (cell b (norm r) (norm c)))
  \/ get_figure b r c = Raise IndexError.
Proof.
  intros Hwf. destruct (decide (-8 <= r < 8 /\ -8 <= c < 8)) as [[Hr Hc]|Hout].
  - left. split; [done|]. split; [done|]. by apply get_figure_index.
  - right. by apply get_figure_raise.
Qed.

Lemma cell_upd b r c v r' c' :
  wf_board b -> 0 <= r < 8 -> 0 <= c < 8 -> 0 <= r' -> 0 <= c' ->
  cell (upd b r c v) r' c' =
    if bool_decide ((r', c') = (r, c)) then v else cell b r' c'.
Proof.
  intros Hwf Hr Hc Hr' Hc'. case_bool_decide as Heq.
  - injection Heq as -> ->. by apply cell_upd_same.
  - apply cell_upd_other; [lia..|congruence].
Qed.
End MoreGrid.

(** * Loops and rays *)

(** The loop body added no destination. *)
Ltac adds_nothing := exists []; rewrite app_nil_r; split; [done|].


(** A loop whose body keeps an invariant and never raises keeps the
    invariant and never raises. *)
Lemma for_each_inv {A S} (P : S -> Prop) (xs : list A)
    (body : S -> A -> result S) (s : S) :
  P s ->
  (forall s x, x ∈ xs -> P s -> exists s', body s x = Ok s' /\ P s') ->
  exists s', for_each xs body s = Ok s' /\ P s'.
Proof.
  revert s. induction xs as [|x xs IH]; intros s Hs Hbody; simpl.
  - by exists s.
  - destruct (Hbody s x) as (s1 & -> & Hs1); [left|done|]. simpl.
    apply IH; [done|]. intros s2 x2 Hx2. apply Hbody. by right.
Qed.

Lemma bound_step y x row col :
  unit_dir y x -> bound y x (row + y) (col + x) = bound y x row col - 1.
Proof.
  intros (Hy & Hx & Hne). unfold bound.
  destruct (Z.eqb_spec y 1); [lia|].
  destruct (Z.eqb_spec y (-1)); [lia|].
  assert (y = 0) as -> by lia.
  destruct (Z.eqb_spec x 1); [lia|].
  assert (x = -1) by (destruct (decide (x = 0)); [congruence|lia]). lia.
Qed.

Lemma bound_on_board y x row col :
  check_pos row col = true -> 1 <= bound y x row col <= 8.
Proof.
  intros [Hr Hc]%check_pos_true. unfold bound.
  repeat case_match; lia.
Qed.

Lemma mem_true (q : pos) ms : mem q ms = true <-> q ∈ ms.
Proof. unfold mem. apply bool_decide_eq_true. Qed.

Lemma all_on_board_nil : all_on_board [].
Proof. by intros q ?%elem_of_nil. Qed.

Lemma all_on_board_snoc ms r c :
  all_on_board ms -> check_pos r c = true -> all_on_board (ms ++ [(r, c)]).
Proof.
  intros Hms Hpos q [Hin | ->%list_elem_of_singleton]%elem_of_app; [auto|done].
Qed.

Lemma shade_diag sr sc dr dc n :
  (dr = 1 \/ dr = -1) -> (dc = 1 \/ dc = -1) ->
  shade (sr + n * dr, sc + n * dc) = shade (sr, sc).
Proof.
  intros Hdr Hdc. unfold shade. simpl.
  destruct Hdr as [-> | ->], Hdc as [-> | ->].
  - replace (sr + n * 1 + (sc + n * 1)) with (sr + sc + n * 2) by lia.
    apply Z_mod_plus_full.
  - f_equal. lia.
  - f_equal. lia.
  - replace (sr + n * -1 + (sc + n * -1)) with (sr + sc + (- n) * 2) by lia.
    apply Z_mod_plus_full.
Qed.

Lemma norm_sum_parity r c : (norm r + norm c) `mod` 2 = (r + c) `mod` 2.
Proof.
  rewrite Z.add_mod, !norm_parity, <- Z.add_mod by lia. done.
Qed.

(** Two rays from one square share no square: a square determines the
    direction and the distance it is reached by. *)
Lemma along_inj sr sc y x j y' x' k :
  unit_dir y x -> unit_dir y' x' -> 1 <= j -> 1 <= k ->
  along sr sc y x j = along sr sc y' x' k -> y = y' /\ x = x' /\ j = k.
Proof.
  intros (Hy & Hx & Hne) (Hy' & Hx' & Hne') Hj Hk Heq.
  injection Heq as Hrow Hcol.
  assert (y = -1 \/ y = 0 \/ y = 1) as Hyc by lia.
  assert (x = -1 \/ x = 0 \/ x = 1) as Hxc by lia.
  assert (y' = -1 \/ y' = 0 \/ y' = 1) as Hyc' by lia.
  assert (x' = -1 \/ x' = 0 \/ x' = 1) as Hxc' by lia.
  destruct Hyc as [-> | [-> | ->]], Hxc as [-> | [-> | ->]],
           Hyc' as [-> | [-> | ->]], Hxc' as [-> | [-> | ->]];
    try congruence; lia.
Qed.

(** The iteration bound does not shape the result: a loop that ends
    within its bound ends with the same list under any larger bound. *)
Lemma slide_more_fuel c (board : Chess.Board) y x fuel :
  forall row col acc ms,
    Chess.slide fuel c board row col y x acc = Ok ms ->
    Chess.slide (S fuel) c board row col y x acc = Ok ms.
Proof.
  induction fuel as [|fuel IH]; intros row col acc ms.
  - simpl. by destruct (check_pos row col).
  - intros Hrun. cbn [Chess.slide] in Hrun |- *.
    destruct (check_pos row col); [|done].
    destruct (get_figure board row col) as [[p|]|e]; cbn [bind] in *; try done.
    by apply IH.
Qed.

Lemma king_slide_more_fuel c (board : Checkers.Board) dr dc fuel :
  forall row col acc ms,
    Checkers.king_slide fuel c board row col dr dc acc = Ok ms ->
    Checkers.king_slide (S fuel) c board row col dr dc acc = Ok ms.
Proof.
  induction fuel as [|fuel IH]; intros row col acc ms.
  - simpl. by destruct (check_pos row col).
  - intros Hrun. cbn [Checkers.king_slide] in Hrun |- *.
    destruct (check_pos row col); [|done].
    destruct (get_figure board row col) as [[p|]|e]; cbn [bind] in *; try done.
    by apply IH.
Qed.

(** * Chess: the move generators *)

Section ChessMoves.
Import Chess.

Lemma color_eqb_true a b : color_eqb a b = true <-> a = b.
Proof. unfold color_eqb. apply bool_decide_eq_true. Qed.

Lemma color_eqb_false a b : color_eqb a b = false <-> a <> b.
Proof. unfold color_eqb. apply bool_decide_eq_false. Qed.

Lemma slide_spec self_color (board : Board) sr sc y x :
  wf_board board -> unit_dir y x ->
  forall fuel n acc,
    (on_board (along sr sc y x n) ->
     bound y x (sr + n * y) (sc + n * x) <= Z.of_nat fuel) ->
    exists ms,
      slide fuel self_color board (sr + n * y) (sc + n * x) y x acc
        = Ok (acc ++ ms) /\
      forall q, q ∈ ms <->
        exists k, n <= k /\ q = along sr sc y x k /\ on_board q /\
                  clear_path board sr sc y x n k /\
                  landing self_color board q.
Proof.
  intros Hwf Hdir. induction fuel as [|fuel IH]; intros n acc Hfuel.
  - simpl. destruct (check_pos _ _) eqn:Hpos.
    + pose proof (bound_on_board y x _ _ Hpos). specialize (Hfuel Hpos). lia.
    + adds_nothing.
      intros q. split; [by intros ?%elem_of_nil|].
      intros (k & Hk & -> & Hq & Hclear & _).
      destruct (decide (k = n)) as [->|Hne].
      * unfold on_board in Hq. simpl in Hq. congruence.
      * destruct (Hclear n) as [Hn _]; [lia|].
        unfold on_board in Hn. simpl in Hn. congruence.
  - simpl. destruct (check_pos _ _) eqn:Hpos.
    + rewrite (get_figure_ok _ _ _ Hwf Hpos). simpl.
      destruct (cell board _ _) as [p|] eqn:Hcell.
      * (* the ray stops here *)
        destruct (negb _) eqn:Hcol.
        -- exists [(sr + n * y, sc + n * x)]. split; [done|].
           intros q. rewrite list_elem_of_singleton. split.
           ++ intros ->. exists n. split; [lia|]. split; [done|].
              split; [done|]. split; [intros j; lia|].
              right. exists p. split; [done|].
              by apply color_eqb_false, negb_true_iff.
           ++ intros (k & Hk & -> & Hq & Hclear & _).
              destruct (decide (k = n)) as [->|Hne]; [done|].
              destruct (Hclear n) as [_ Hn]; [lia|]. congruence.
        -- adds_nothing.
           intros q. split; [by intros ?%elem_of_nil|].
           intros (k & Hk & -> & Hq & Hclear & Hland).
           destruct (decide (k = n)) as [->|Hne].
           ++ destruct Hland as [Hland|(p' & Hland & Hp')]; simpl in Hland;
                [congruence|].
              apply negb_false_iff, color_eqb_true in Hcol. congruence.
           ++ destruct (Hclear n) as [_ Hn]; [lia|]. congruence.
      * (* an empty square: it is kept and the loop goes on *)
        replace (sr + n * y + y) with (sr + (n + 1) * y) by lia.
        replace (sc + n * x + x) with (sc + (n + 1) * x) by lia.
        destruct (IH (n + 1) (acc ++ [(sr + n * y, sc + n * x)])) as (ms & -> & Hms).
        { intros _. specialize (Hfuel Hpos).
          replace (sr + (n + 1) * y) with (sr + n * y + y) by lia.
          replace (sc + (n + 1) * x) with (sc + n * x + x) by lia.
          rewrite bound_step by done. lia. }
        exists ((sr + n * y, sc + n * x) :: ms). split.
        { by rewrite <- app_assoc. }
        intros q. rewrite elem_of_cons, Hms. split.
        -- intros [->|(k & Hk & -> & Hq & Hclear & Hland)].
           ++ exists n. split; [lia|]. split; [done|]. split; [done|].
              split; [intros j; lia|]. by left.
           ++ exists k. split; [lia|]. split; [done|]. split; [done|].
              split; [|done]. intros j Hj.
              destruct (decide (j = n)) as [->|Hne]; [done|].
              apply Hclear. lia.
        -- intros (k & Hk & -> & Hq & Hclear & Hland).
           destruct (decide (k = n)) as [->|Hne]; [by left|right].
           exists k. split; [lia|]. split; [done|]. split; [done|].
           split; [|done]. intros j Hj. apply Hclear. lia.
    + adds_nothing.
      intros q. split; [by intros ?%elem_of_nil|].
      intros (k & Hk & -> & Hq & Hclear & _).
      destruct (decide (k = n)) as [->|Hne].
      * unfold on_board in Hq. simpl in Hq. congruence.
      * destruct (Hclear n) as [Hn _]; [lia|].
        unfold on_board in Hn. simpl in Hn. congruence.
Qed.
Lemma slide_all_spec self_color (board : Board) sr sc dirs :
  wf_board board ->
  (forall y x, (y, x) ∈ dirs -> unit_dir y x) ->
  exists ms,
    slide_all self_color board sr sc dirs = Ok ms /\
    forall q, q ∈ ms <->
      exists y x, (y, x) ∈ dirs /\ ray self_color board sr sc y x q.
Proof.
  intros Hwf. unfold slide_all.
  enough (forall acc, (forall y x, (y, x) ∈ dirs -> unit_dir y x) ->
    exists ms,
      for_each dirs
        (fun moves '(y, x) =>
           slide 8 self_color board (sr + y) (sc + x) y x moves) acc
        = Ok (acc ++ ms) /\
      forall q, q ∈ ms <->
        exists y x, (y, x) ∈ dirs /\ ray self_color board sr sc y x q) as Hgen.
  { intros Hdirs. destruct (Hgen [] Hdirs) as (ms & Hrun & Hms). by exists ms. }
  induction dirs as [|[y x] dirs IH]; intros acc Hdirs; cbn [for_each].
  - adds_nothing.
    intros q. split; [by intros ?%elem_of_nil|].
    by intros (y & x & ?%elem_of_nil & _).
  - destruct (slide_spec self_color board sr sc y x Hwf
                (Hdirs y x ltac:(left)) 8 1 acc) as (ms1 & Hrun1 & Hms1).
    { intros Hon. apply bound_on_board. exact Hon. }
    replace (sr + 1 * y) with (sr + y) in Hrun1 by lia.
    replace (sc + 1 * x) with (sc + x) in Hrun1 by lia.
    rewrite Hrun1. cbn [bind].
    destruct (IH (acc ++ ms1)) as (ms2 & -> & Hms2).
    { intros y' x' Hin. apply Hdirs. by right. }
    exists (ms1 ++ ms2). split; [by rewrite app_assoc|].
    intros q. rewrite elem_of_app, Hms1, Hms2. split.
    + intros [Hq|(y' & x' & Hin & Hq)].
      * exists y, x. split; [left|done].
      * exists y', x'. split; [by right|done].
    + intros (y' & x' & [Heq|Hin]%elem_of_cons & Hq).
      * injection Heq as -> ->. by left.
      * right. by exists y', x'.
Qed.

Lemma Rook_directions_unit y x : (y, x) ∈ Rook_directions -> unit_dir y x.
Proof.
  unfold Rook_directions, unit_dir. rewrite !elem_of_cons, elem_of_nil.
  intros [H|[H|[H|[H|[]]]]]; injection H as -> ->; repeat split; (lia || congruence).
Qed.

Lemma Bishop_directions_unit y x : (y, x) ∈ Bishop_directions -> unit_dir y x.
Proof.
  unfold Bishop_directions, unit_dir. rewrite !elem_of_cons, elem_of_nil.
  intros [H|[H|[H|[H|[]]]]]; injection H as -> ->; repeat split; (lia || congruence).
Qed.

Lemma Rook_spec c (board : Board) sr sc :
  wf_board board ->
  exists ms, Rook_get_possible_moves c board sr sc = Ok ms /\
    forall q, q ∈ ms <->
      exists y x, (y, x) ∈ Rook_directions /\ ray c board sr sc y x q.
Proof. intros Hwf. apply slide_all_spec; [done|]. apply Rook_directions_unit. Qed.

Lemma Bishop_spec c (board : Board) sr sc :
  wf_board board ->
  exists ms, Bishop_get_possible_moves c board sr sc = Ok ms /\
    forall q, q ∈ ms <->
      exists y x, (y, x) ∈ Bishop_directions /\ ray c board sr sc y x q.
Proof. intros Hwf. apply slide_all_spec; [done|]. apply Bishop_directions_unit. Qed.

Lemma Queen_spec c (board : Board) sr sc :
  wf_board board ->
  exists ms, Queen_get_possible_moves c board sr sc = Ok ms /\
    forall q, q ∈ ms <->
      exists y x, (y, x) ∈ Rook_directions ++ Bishop_directions /\
                  ray c board sr sc y x q.
Proof.
  intros Hwf. unfold Queen_get_possible_moves.
  destruct (Rook_spec c board sr sc Hwf) as (r & -> & Hr).
  destruct (Bishop_spec c board sr sc Hwf) as (b & -> & Hb). cbn [bind].
  exists (r ++ b). split; [done|].
  intros q. rewrite elem_of_app, Hr, Hb. split.
  - intros [(y & x & Hin & Hq)|(y & x & Hin & Hq)]; exists y, x;
      rewrite elem_of_app; tauto.
  - intros (y & x & [Hin|Hin]%elem_of_app & Hq); [left|right]; by exists y, x.
Qed.

Lemma scan_spec c (board : Board) cands :
  wf_board board ->
  exists ms, scan c board cands = Ok ms /\
    forall q, q ∈ ms <-> q ∈ cands /\ on_board q /\ landing c board q.
Proof.
  intros Hwf. unfold scan.
  enough (forall acc, exists ms,
    for_each cands
      (fun moves '(row, col) =>
         if check_pos row col then
           let* p := get_figure board row col in
           match p with
           | None => Ok (moves ++ [(row, col)])
           | Some q =>
               if negb (color_eqb (color q) c)
               then Ok (moves ++ [(row, col)]) else Ok moves
           end
         else Ok moves) acc = Ok (acc ++ ms) /\
    forall q, q ∈ ms <-> q ∈ cands /\ on_board q /\ landing c board q) as Hgen.
  { destruct (Hgen []) as (ms & Hrun & Hms). by exists ms. }
  induction cands as [|[row col] cands IH]; intros acc; simpl.
  - adds_nothing.
    intros q. split; [by intros ?%elem_of_nil|]. by intros [?%elem_of_nil _].
  - assert (exists here,
      (if check_pos row col then
         let* p := get_figure board row col in
         match p with
         | None => Ok (acc ++ [(row, col)])
         | Some q =>
             if negb (color_eqb (color q) c)
             then Ok (acc ++ [(row, col)]) else Ok acc
         end
       else Ok acc) = Ok (acc ++ here) /\
      forall q, q ∈ here <->
        q = (row, col) /\ on_board q /\ landing c board q)
      as (here & -> & Hhere).
    { destruct (check_pos row col) eqn:Hpos.
      - rewrite (get_figure_ok _ _ _ Hwf Hpos). simpl.
        destruct (cell board row col) as [p|] eqn:Hcell.
        + destruct (negb _) eqn:Hcol.
          * exists [(row, col)]. split; [done|]. intros q.
            rewrite list_elem_of_singleton. split; [|tauto].
            intros ->. split; [done|]. split; [done|]. right. exists p.
            split; [done|]. by apply color_eqb_false, negb_true_iff.
          * adds_nothing. intros q.
            split; [by intros ?%elem_of_nil|].
            intros (-> & _ & [Hl|(p' & Hl & Hp')]); simpl in Hl; [congruence|].
            apply negb_false_iff, color_eqb_true in Hcol. congruence.
        + exists [(row, col)]. split; [done|]. intros q.
          rewrite list_elem_of_singleton. split; [|tauto].
          intros ->. split; [done|]. split; [done|]. by left.
      - adds_nothing. intros q.
        split; [by intros ?%elem_of_nil|].
        intros (-> & Hon & _). unfold on_board in Hon. simpl in Hon. congruence. }
    simpl. destruct (IH (acc ++ here)) as (ms & -> & Hms).
    exists (here ++ ms). split; [by rewrite app_assoc|].
    intros q. rewrite elem_of_app, Hhere, Hms, elem_of_cons. tauto.
Qed.
Lemma blocked_ray c (board : Board) sr sc y x n p y' x' j :
  unit_dir y x -> unit_dir y' x' ->
  first_blocker board sr sc y x n p -> n <= j ->
  ray c board sr sc y' x' (along sr sc y x j) ->
  j = n /\ color p <> c.
Proof.
  intros Hdir Hdir' (Hn & Hclear & Hon & Hcell) Hj (k & Hk & Heq & _ & Hpath & Hland).
  apply along_inj in Heq as (-> & -> & ->); [|done|done|lia|lia].
  destruct (decide (k = n)) as [-> | Hne].
  - split; [done|]. destruct Hland as [Hl|(p' & Hl & Hp')]; simpl in Hl; congruence.
  - destruct (Hpath n) as [_ Hnone]; [lia|]. congruence.
Qed.

Lemma blocker_in_rays c (board : Board) sr sc (dirs : list (Z * Z))
    (ms : list pos) y x n p :
  (forall y x, (y, x) ∈ dirs -> unit_dir y x) ->
  (forall q, q ∈ ms <-> exists y x, (y, x) ∈ dirs /\ ray c board sr sc y x q) ->
  (y, x) ∈ dirs ->
  first_blocker board sr sc y x n p ->
  (forall j, n < j -> along sr sc y x j ∉ ms) /\
  (along sr sc y x n ∈ ms <-> color p <> c).
Proof.
  intros Hdirs Hms Hin Hblock. split.
  - intros j Hj (y' & x' & Hin' & Hray)%Hms.
    destruct (blocked_ray c board sr sc y x n p y' x' j) as [? _];
      [by apply Hdirs..|done|lia|done|lia].
  - rewrite Hms. split.
    + intros (y' & x' & Hin' & Hray).
      destruct (blocked_ray c board sr sc y x n p y' x' n) as [_ ?];
        [by apply Hdirs..|done|lia|done|done].
    + intros Hcol. exists y, x. split; [done|].
      destruct Hblock as (Hn & Hclear & Hon & Hcell).
      exists n. split; [done|]. split; [done|]. split; [done|]. split; [done|].
      right. by exists p.
Qed.

Lemma app_directions_unit y x :
  (y, x) ∈ Rook_directions ++ Bishop_directions -> unit_dir y x.
Proof.
  intros [?|?]%elem_of_app;
    [by apply Rook_directions_unit|by apply Bishop_directions_unit].
Qed.

(** C6.  For every board, every Rook, Bishop or Queen, every origin and
    every direction the piece slides in: if the first occupied square in
    that direction is [n] steps away, the destinations contain no square
    further than [n] steps in that direction, and they contain the square
    [n] steps away exactly when the piece on it is an enemy. *)
Theorem slide_stops_at_first_blocker (board : Board) (f : Figure)
    (sr sc y x n : Z) (p : Figure) :
  wf_board board ->
  (y, x) ∈ slide_directions f ->
  first_blocker board sr sc y x n p ->
  exists ms,
    get_possible_moves f board sr sc = Ok ms /\
    (forall j, n < j -> along sr sc y x j ∉ ms) /\
    (along sr sc y x n ∈ ms <-> color p <> color f).
Proof.
  intros Hwf Hin Hblock.
  destruct f as [c|c|c|c|c|c|c|c|c pw]; simpl in Hin;
    try by apply elem_of_nil in Hin.
  - destruct (Rook_spec c board sr sc Hwf) as (ms & Hrun & Hms).
    exists ms. split; [done|].
    eapply blocker_in_rays; eauto using Rook_directions_unit.
  - destruct (Bishop_spec c board sr sc Hwf) as (ms & Hrun & Hms).
    exists ms. split; [done|].
    eapply blocker_in_rays; eauto using Bishop_directions_unit.
  - destruct (Queen_spec c board sr sc Hwf) as (ms & Hrun & Hms).
    exists ms. split; [done|].
    eapply blocker_in_rays; eauto using app_directions_unit.
Qed.
Lemma chess_free_spec (board : Board) r c :
  wf_board board ->
  free board r c =
    Ok (check_pos r c && bool_decide (cell board r c = None)).
Proof.
  intros Hwf. unfold free. destruct (check_pos r c) eqn:Hpos; [|done].
  rewrite (get_figure_ok _ _ _ Hwf Hpos). simpl.
  by destruct (cell board r c).
Qed.

Lemma Pawn_on_board c (board : Board) sr sc :
  wf_board board ->
  exists ms, Pawn_get_possible_moves c board sr sc = Ok ms /\ all_on_board ms.
Proof.
  intros Hwf. unfold Pawn_get_possible_moves.
  assert (exists ahead,
    (let* one := free board (sr + direction c) sc in
     if one then
       if color_eqb c White && (sr =? 6) || color_eqb c Black && (sr =? 1)
       then
         let* two := free board (sr + 2 * direction c) sc in
         if two
         then Ok (([] ++ [(sr + direction c, sc)]) ++ [(sr + 2 * direction c, sc)])
         else Ok ([] ++ [(sr + direction c, sc)])
       else Ok ([] ++ [(sr + direction c, sc)])
     else Ok []) = Ok ahead /\ all_on_board ahead) as (ahead & -> & Hahead).
  { rewrite !chess_free_spec by done. cbn [bind].
    destruct (check_pos (sr + direction c) sc && _) eqn:Hone;
      [|eexists; split; [done|apply all_on_board_nil]].
    apply andb_true_iff in Hone as [Hone _].
    destruct (_ || _).
    - destruct (check_pos (sr + 2 * direction c) sc && _) eqn:Htwo.
      + apply andb_true_iff in Htwo as [Htwo _].
        eexists. split; [done|].
        by repeat apply all_on_board_snoc; [apply all_on_board_nil|..].
      + eexists. split; [done|].
        by apply all_on_board_snoc; [apply all_on_board_nil|].
    - eexists. split; [done|].
      by apply all_on_board_snoc; [apply all_on_board_nil|]. }
  cbn [bind]. apply for_each_inv; [done|].
  intros ms col _ Hms.
  destruct (check_pos (sr + direction c) col) eqn:Hpos; [|by exists ms].
  rewrite (get_figure_ok _ _ _ Hwf Hpos). cbn [bind].
  destruct (cell board _ _) as [t|]; [|by exists ms].
  destruct (negb _); [|by exists ms].
  eexists. split; [done|]. by apply all_on_board_snoc.
Qed.

Lemma scan_on_board c (board : Board) cands :
  wf_board board ->
  exists ms, scan c board cands = Ok ms /\ all_on_board ms.
Proof.
  intros Hwf. destruct (scan_spec c board cands Hwf) as (ms & Hrun & Hms).
  exists ms. split; [done|]. by intros q (_ & Hon & _)%Hms.
Qed.

Lemma ray_on_board c (board : Board) sr sc y x q :
  ray c board sr sc y x q -> on_board q.
Proof. by intros (k & _ & _ & Hon & _). Qed.

Lemma fresh_moves_on_board name c (board : Board) sr sc :
  wf_board board ->
  exists ms, fresh_moves name c board sr sc = Ok ms /\ all_on_board ms.
Proof.
  intros Hwf. destruct name; cbn [fresh_moves].
  - by apply Pawn_on_board.
  - destruct (Rook_spec c board sr sc Hwf) as (ms & Hrun & Hms).
    exists ms. split; [done|].
    intros q (y & x & _ & Hray)%Hms. by eapply ray_on_board.
  - by apply scan_on_board.
  - destruct (Bishop_spec c board sr sc Hwf) as (ms & Hrun & Hms).
    exists ms. split; [done|].
    intros q (y & x & _ & Hray)%Hms. by eapply ray_on_board.
  - destruct (Queen_spec c board sr sc Hwf) as (ms & Hrun & Hms).
    exists ms. split; [done|].
    intros q (y & x & _ & Hray)%Hms. by eapply ray_on_board.
  - by apply scan_on_board.
  - exists []. split; [done|apply all_on_board_nil].
  - by apply scan_on_board.
  - by apply scan_on_board.
Qed.

Lemma get_possible_moves_fresh f (board : Board) sr sc :
  get_possible_moves f board sr sc = fresh_moves (moves_as f) (color f) board sr sc.
Proof. by destruct f. Qed.

Lemma fresh_moves_new name c (board : Board) sr sc :
  fresh_moves name c board sr sc = get_possible_moves (new name c) board sr sc.
Proof. by destruct name. Qed.

Lemma get_possible_moves_on_board f (board : Board) sr sc :
  wf_board board ->
  exists ms, get_possible_moves f board sr sc = Ok ms /\ all_on_board ms.
Proof.
  intros Hwf. rewrite get_possible_moves_fresh. by apply fresh_moves_on_board.
Qed.

Lemma chess_is_valid_move_spec f (board : Board) sr sc er ec :
  wf_board board ->
  exists ms,
    get_possible_moves f board sr sc = Ok ms /\
    is_valid_move f board sr sc er ec =
      Ok (check_pos er ec && negb (held_by board (color f) er ec)
          && (mem (er, ec) ms || bool_decide (type_name f = Name.Mage))).
Proof.
  intros Hwf. unfold is_valid_move, held_by.
  destruct (get_possible_moves_on_board f board sr sc Hwf) as (ms & Hms & _).
  exists ms. split; [done|].
  destruct (check_pos er ec) eqn:Hpos; [|done]. simpl.
  rewrite (get_figure_ok _ _ _ Hwf Hpos). cbn [bind].
  destruct (cell board er ec) as [t|].
  - destruct (color_eqb (color t) (color f)); [done|].
    rewrite Hms. cbn [bind]. simpl.
    by destruct (mem (er, ec) ms), (bool_decide (type_name f = Name.Mage)).
  - rewrite Hms. cbn [bind]. simpl.
    by destruct (mem (er, ec) ms), (bool_decide (type_name f = Name.Mage)).
Qed.

Lemma chess_move_figure_cases (board : Board) sr sc er ec r board' :
  wf_board board ->
  move_figure board sr sc er ec = (r, board') ->
  (board' = board /\ (r = Ok Rejected \/ exists e, r = Raise e)) \/
  (exists figure,
     (-8 <= sr < 8 /\ -8 <= sc < 8) /\
     cell board (norm sr) (norm sc) = Some figure /\
     is_valid_move figure board sr sc er ec = Ok true /\
     r = Ok (Captured (cell board er ec)) /\
     board' = upd (upd board er ec (Some figure)) (norm sr) (norm sc) None /\
     wf_board board' /\
     committed board board' figure sr sc er ec).
Proof.
  intros Hwf. unfold move_figure, reading.
  destruct (get_figure_cases board sr sc Hwf) as [(Hsr & Hsc & ->)| ->];
    [|intros [= <- <-]; left; eauto].
  destruct (cell board (norm sr) (norm sc)) as [figure|] eqn:Hfig;
    [|intros [= <- <-]; left; eauto].
  destruct (chess_is_valid_move_spec figure board sr sc er ec Hwf) as (ms & _ & Hv).
  rewrite Hv.
  destruct (check_pos er ec) eqn:Hpos; [|intros [= <- <-]; left; eauto].
  destruct (held_by board (color figure) er ec) eqn:Hheld;
    [intros [= <- <-]; left; eauto|].
  simpl. destruct (_ || _) eqn:Hlist; [|intros [= <- <-]; left; eauto].
  rewrite (get_figure_ok _ _ _ Hwf Hpos).
  apply check_pos_true in Hpos as [Her Hec].
  pose proof (norm_range sr Hsr) as Hnsr. pose proof (norm_range sc Hsc) as Hnsc.
  assert ((er, ec) <> (norm sr, norm sc)) as Hne.
  { intros [= -> ->]. unfold held_by in Hheld. rewrite Hfig in Hheld.
    by apply color_eqb_false in Hheld. }
  unfold writing.
  rewrite set_figure_index by (done || lia).
  rewrite (norm_id er), (norm_id ec) by lia.
  rewrite set_figure_index by (auto with grid).
  intros [= <- <-]. right. exists figure.
  do 5 (split; [done|]). split; [auto with grid|].
  clear Hv Hlist. unfold committed. rewrite !cell_upd by (auto with grid || lia).
  repeat case_bool_decide; try congruence.
  split; [done|]. split; [done|]. intros row col Hr Hc Hne1 Hne2.
  rewrite !cell_upd by (auto with grid || lia).
  repeat case_bool_decide; congruence.
Qed.


Lemma choose_figure_spec g sr sc figure :
  wf_board (board g) -> check_pos sr sc = true ->
  cell (board g) sr sc = Some figure ->
  choose_figure g sr sc = Ok (color_eqb (color figure) (current_turn g)).
Proof.
  intros Hwf Hpos Hfig. unfold choose_figure. rewrite Hpos. simpl.
  rewrite (get_figure_ok _ _ _ Hwf Hpos). cbn [bind]. by rewrite Hfig.
Qed.

Lemma play_iter_accepted g sr sc er ec figure captured board' :
  wf_board (board g) -> check_pos sr sc = true ->
  cell (board g) sr sc = Some figure ->
  color figure = current_turn g ->
  move_figure (board g) sr sc er ec = (Ok (Captured captured), board') ->
  play_iter g (Select sr sc er ec)
    = Ok (after_move g board' figure sr sc er ec captured, is_King captured).
Proof.
  intros Hwf Hpos Hfig Hcol Hmove. unfold play_iter.
  rewrite (choose_figure_spec g sr sc figure) by done. cbn [bind].
  replace (color_eqb (color figure) (current_turn g)) with true
    by (symmetry; by apply color_eqb_true).
  cbn [negb]. rewrite (get_figure_ok _ _ _ Hwf Hpos). cbn [bind].
  rewrite Hfig.
  destruct (get_possible_moves_on_board figure (board g) sr sc Hwf)
    as (ms & Hms & _).
  rewrite Hms. rewrite Hmove.
  unfold after_move. destruct (bool_decide _); cbn [bind];
    by destruct (is_King captured).
Qed.

Lemma transfer_power_cell (board' : Board) figure er ec captured :
  wf_board board' -> check_pos er ec = true ->
  cell board' er ec = Some figure ->
  wf_board (transfer_power board' figure er ec captured) /\
  cell (transfer_power board' figure er ec captured) er ec
    = Some (empowered figure captured) /\
  forall r c, 0 <= r < 8 -> 0 <= c < 8 -> (r, c) <> (er, ec) ->
    cell (transfer_power board' figure er ec captured) r c = cell board' r c.
Proof.
  intros Hwf [Her Hec]%check_pos_true Hfig.
  unfold transfer_power, empowered.
  destruct figure, captured; try done.
  split; [by apply wf_upd|]. split; [by apply cell_upd_same|].
  intros r c Hr Hc Hne. apply cell_upd_other; [lia..|congruence].
Qed.

End ChessMoves.

(** * Checkers: the move generators and the board *)

Section CheckersMoves.
Import Checkers.

Lemma checkers_free_spec (board : Board) r c :
  wf_board board ->
  free board r c =
    Ok (check_pos r c && bool_decide (cell board r c = None)).
Proof.
  intros Hwf. unfold free. destruct (check_pos r c) eqn:Hpos; [|done].
  rewrite (get_figure_ok _ _ _ Hwf Hpos). simpl.
  by destruct (cell board r c).
Qed.

Lemma directions_diag dr dc :
  (dr, dc) ∈ directions -> (dr = 1 \/ dr = -1) /\ (dc = 1 \/ dc = -1).
Proof.
  unfold directions. rewrite !elem_of_cons, elem_of_nil.
  intros [H|[H|[H|[H|[]]]]]; injection H as -> ->; lia.
Qed.

Lemma directions_unit dr dc : (dr, dc) ∈ directions -> unit_dir dr dc.
Proof.
  intros [Hr Hc]%directions_diag. unfold unit_dir.
  repeat split; try lia. intros [= -> ->]. lia.
Qed.

Lemma same_shade_snoc sr sc ms q :
  same_shade sr sc ms -> on_board q -> shade q = shade (sr, sc) ->
  same_shade sr sc (ms ++ [q]).
Proof.
  intros Hms Hon Hsh q' [Hin | ->%list_elem_of_singleton]%elem_of_app; auto.
Qed.

Lemma Checker_captures_same_shade c (board : Board) sr sc :
  wf_board board ->
  exists ms, Checker_captures c board sr sc = Ok ms /\ same_shade sr sc ms.
Proof.
  intros Hwf. unfold Checker_captures.
  apply for_each_inv; [by intros q ?%elem_of_nil|].
  intros ms [dr dc] Hdir Hms.
  destruct (check_pos (sr + dr) (sc + dc)) eqn:Hpos; [|by exists ms].
  rewrite (get_figure_ok _ _ _ Hwf Hpos). cbn [bind].
  destruct (cell board (sr + dr) (sc + dc)) as [p|]; [|by exists ms].
  destruct (negb _); [|by exists ms].
  rewrite checkers_free_spec by done. cbn [bind].
  destruct (check_pos (sr + 2 * dr) (sc + 2 * dc) && _) eqn:Hland;
    [|by exists ms].
  eexists. split; [done|]. apply andb_true_iff in Hland as [Hland _].
  apply same_shade_snoc; [done|done|].
  apply directions_diag in Hdir as [Hdr Hdc].
  by apply shade_diag.
Qed.

Lemma Checker_same_shade c (board : Board) sr sc k :
  wf_board board ->
  exists ms, Checker_get_possible_moves c board sr sc k = Ok ms /\
             same_shade sr sc ms.
Proof.
  intros Hwf. unfold Checker_get_possible_moves.
  destruct (Checker_captures_same_shade c board sr sc Hwf) as (caps & -> & Hcaps).
  cbn [bind]. destruct (negb _); [|by exists caps].
  apply for_each_inv; [done|].
  intros ms [dr dc] Hdir Hms.
  destruct (check_pos (sr + dr) (sc + dc)) eqn:Hpos; [|by exists ms].
  eexists. split; [done|]. apply same_shade_snoc; [done|done|].
  assert ((dr = 1 \/ dr = -1) /\ (dc = 1 \/ dc = -1)) as [Hdr Hdc].
  { revert Hdir. rewrite !elem_of_cons, elem_of_nil.
    destruct (color_eqb c White); intros [H|[H|[]]]; injection H as -> ->; lia. }
  rewrite <- (Z.mul_1_l dr), <- (Z.mul_1_l dc). by apply shade_diag.
Qed.

Lemma king_slide_same_shade c (board : Board) sr sc dr dc :
  wf_board board -> (dr, dc) ∈ directions ->
  forall fuel n acc,
    (on_board (along sr sc dr dc n) ->
     bound dr dc (sr + n * dr) (sc + n * dc) <= Z.of_nat fuel) ->
    same_shade sr sc acc ->
    exists ms,
      king_slide fuel c board (sr + n * dr) (sc + n * dc) dr dc acc = Ok ms /\
      same_shade sr sc ms.
Proof.
  intros Hwf Hdir. pose proof (directions_unit _ _ Hdir) as Hunit.
  apply directions_diag in Hdir as [Hdr Hdc].
  induction fuel as [|fuel IH]; intros n acc Hfuel Hacc.
  - simpl. destruct (check_pos _ _) eqn:Hpos; [|by exists acc].
    pose proof (bound_on_board dr dc _ _ Hpos). specialize (Hfuel Hpos). lia.
  - simpl. destruct (check_pos _ _) eqn:Hpos; [|by exists acc].
    rewrite (get_figure_ok _ _ _ Hwf Hpos). cbn [bind].
    destruct (cell board _ _) as [p|].
    + destruct (negb _); [|by exists acc].
      rewrite checkers_free_spec by done. cbn [bind].
      destruct (check_pos _ _ && _) eqn:Hland; [|by exists acc].
      eexists. split; [done|]. apply andb_true_iff in Hland as [Hland _].
      apply same_shade_snoc; [done|done|].
      replace (sr + n * dr + dr) with (sr + (n + 1) * dr) by lia.
      replace (sc + n * dc + dc) with (sc + (n + 1) * dc) by lia.
      by apply shade_diag.
    + replace (sr + n * dr + dr) with (sr + (n + 1) * dr) by lia.
      replace (sc + n * dc + dc) with (sc + (n + 1) * dc) by lia.
      apply IH.
      * intros _. specialize (Hfuel Hpos).
        replace (sr + (n + 1) * dr) with (sr + n * dr + dr) by lia.
        replace (sc + (n + 1) * dc) with (sc + n * dc + dc) by lia.
        rewrite bound_step by done. lia.
      * apply same_shade_snoc; [done|done|]. by apply shade_diag.
Qed.

Lemma KingChecker_same_shade c (board : Board) sr sc k :
  wf_board board ->
  exists ms, KingChecker_get_possible_moves c board sr sc k = Ok ms /\
             same_shade sr sc ms.
Proof.
  intros Hwf. unfold KingChecker_get_possible_moves.
  apply for_each_inv; [by intros q ?%elem_of_nil|].
  intros ms [dr dc] Hdir Hms.
  destruct (king_slide_same_shade c board sr sc dr dc Hwf Hdir 8 1 ms)
    as (ms' & Hrun & Hms'); [|done|].
  { intros Hon. apply bound_on_board. exact Hon. }
  replace (sr + 1 * dr) with (sr + dr) in Hrun by lia.
  replace (sc + 1 * dc) with (sc + dc) in Hrun by lia.
  by exists ms'.
Qed.

Lemma get_possible_moves_same_shade f (board : Board) sr sc k :
  wf_board board ->
  exists ms, get_possible_moves f board sr sc k = Ok ms /\ same_shade sr sc ms.
Proof.
  intros Hwf. destruct f as [c|c]; simpl.
  - by apply Checker_same_shade.
  - by apply KingChecker_same_shade.
Qed.


Lemma checkers_is_valid_move_spec f (board : Board) sr sc er ec k :
  wf_board board ->
  exists v ms,
    is_valid_move f board sr sc er ec k = Ok v /\
    get_possible_moves f board sr sc k = Ok ms /\
    (v = true <->
     check_pos er ec = true /\ cell board er ec = None /\ (er, ec) ∈ ms).
Proof.
  intros Hwf. unfold is_valid_move.
  destruct (get_possible_moves_same_shade f board sr sc k Hwf) as (ms & Hms & _).
  destruct (check_pos er ec) eqn:Hpos; simpl.
  - rewrite (get_figure_ok _ _ _ Hwf Hpos). cbn [bind].
    destruct (cell board er ec) as [p|] eqn:Hcell.
    + exists false, ms. split; [done|]. split; [done|].
      split; [done|]. intros (_ & Hnone & _). congruence.
    + rewrite Hms. cbn [bind]. destruct (mem (er, ec) ms) eqn:Hmem; simpl.
      * exists true, ms. apply mem_true in Hmem.
        split; [done|]. split; [done|]. by split.
      * exists false, ms. split; [done|]. split; [done|].
        split; [done|]. intros (_ & _ & Hin%mem_true). congruence.
  - exists false, ms. split; [done|]. split; [done|].
    split; [done|]. intros (Hon & _). congruence.
Qed.

Lemma checkers_move_figure_cases (board : Board) sr sc er ec k r board' :
  wf_board board ->
  move_figure board sr sc er ec k = (r, board') ->
  (board' = board /\ (r = Ok Rejected \/ exists e, r = Raise e)) \/
  (exists figure,
     (-8 <= sr < 8 /\ -8 <= sc < 8) /\
     cell board (norm sr) (norm sc) = Some figure /\
     is_valid_move figure board sr sc er ec k = Ok true /\
     let mid := jumped sr sc er ec in
     r = Ok (Captured (if is_jump sr er
                       then cell board (norm mid.1) (norm mid.2) else None)) /\
     wf_board board' /\
     committed board board' figure sr sc er ec).
Proof.
  intros Hwf. unfold move_figure, reading.
  destruct (get_figure_cases board sr sc Hwf) as [(Hsr & Hsc & ->)| ->];
    [|intros [= <- <-]; left; eauto].
  destruct (cell board (norm sr) (norm sc)) as [figure|] eqn:Hfig;
    [|intros [= <- <-]; left; eauto].
  destruct (checkers_is_valid_move_spec figure board sr sc er ec k Hwf)
    as (v & ms & Hv & _ & Hvalid).
  rewrite Hv. destruct v; [|intros [= <- <-]; left; eauto].
  destruct Hvalid as [(Hpos & Hempty & _) _]; [done|].
  apply check_pos_true in Hpos as [Her Hec].
  pose proof (norm_range sr Hsr) as Hnsr. pose proof (norm_range sc Hsc) as Hnsc.
  assert ((er, ec) <> (norm sr, norm sc)) as Hne.
  { intros [= -> ->]. congruence. }
  (* the relocation and the promotion, from any board reached so far *)
  assert (forall board0 cap,
    wf_board board0 ->
    exists board1, wf_board board1 /\
      writing board0 er ec (Some figure) (fun board1 =>
        writing board1 sr sc None (fun board2 =>
          if promotes figure er then
            writing board2 er ec (Some (KingChecker (color figure)))
              (fun board3 => (Ok (Captured cap), board3))
          else (Ok (Captured cap), board2)))
        = (Ok (Captured cap), board1) /\
      cell board1 er ec = Some (landed figure er) /\
      cell board1 (norm sr) (norm sc) = None /\
      forall r c, 0 <= r < 8 -> 0 <= c < 8 ->
        (r, c) <> (er, ec) -> (r, c) <> (norm sr, norm sc) ->
        cell board1 r c = cell board0 r c) as Hrelocate.
  { intros board0 cap Hwf0. unfold writing, landed.
    rewrite set_figure_index by (done || lia). rewrite ?(norm_id er), ?(norm_id ec) by lia.
    rewrite set_figure_index by (auto with grid).
    destruct (promotes figure er).
    - rewrite set_figure_index by (auto with grid || lia).
      rewrite ?(norm_id er), ?(norm_id ec) by lia.
      eexists. split; [|split; [done|]]; [auto with grid|].
      rewrite !cell_upd by (auto with grid || lia).
      repeat case_bool_decide; try congruence.
      split; [done|]. split; [done|]. intros row col Hr Hc Hne1 Hne2.
      rewrite !cell_upd by (auto with grid || lia).
      repeat case_bool_decide; congruence.
    - eexists. split; [|split; [done|]]; [auto with grid|].
      rewrite !cell_upd by (auto with grid || lia).
      repeat case_bool_decide; try congruence.
      split; [done|]. split; [done|]. intros row col Hr Hc Hne1 Hne2.
      rewrite !cell_upd by (auto with grid || lia).
      repeat case_bool_decide; congruence. }
  fold (is_jump sr er).
  destruct (is_jump sr er) eqn:Hjump.
  - (* a jump: the square before the destination is read, then cleared *)
    change (er - (if er - sr >? 0 then 1 else -1)) with (jumped sr sc er ec).1.
    change (ec - (if ec - sc >? 0 then 1 else -1)) with (jumped sr sc er ec).2.
    set (mid := jumped sr sc er ec).
    destruct (get_figure_cases board mid.1 mid.2 Hwf) as [(Hm1 & Hm2 & ->)| ->];
      [|intros [= <- <-]; left; eauto].
    unfold writing at 1. rewrite set_figure_index by done.
    pose proof (norm_range _ Hm1) as Hnm1. pose proof (norm_range _ Hm2) as Hnm2.
    destruct (Hrelocate (upd board (norm mid.1) (norm mid.2) None)
                (cell board (norm mid.1) (norm mid.2)))
      as (board1 & Hwf1 & -> & Hend & Hstart & Hrest); [by apply wf_upd|].
    intros [= <- <-]. right. exists figure.
    split; [done|]. split; [done|]. split; [done|]. split; [done|]. split; [done|].
    assert ((norm mid.1, norm mid.2) <> (er, ec)) as Hmid.
    { unfold mid, jumped, norm. simpl. intros [= Hrow _]. revert Hrow.
      repeat case_match; lia. }
    unfold committed. fold mid. rewrite Hjump.
    split; [done|]. split; [done|]. split.
    + intros _. destruct (decide ((norm mid.1, norm mid.2) = (norm sr, norm sc)))
        as [Heq|Hneq].
      * assert (norm mid.1 = norm sr /\ norm mid.2 = norm sc) as [Heq1 Heq2]
          by (by injection Heq).
        by rewrite Heq1, Heq2.
      * rewrite Hrest by (done || lia). by apply cell_upd_same.
    + intros row col Hr Hc Hne1 Hne2 Hne3. rewrite Hrest by done.
      apply cell_upd_other; [lia..|]. specialize (Hne3 eq_refl). congruence.
  - destruct (Hrelocate board None Hwf)
      as (board1 & Hwf1 & -> & Hend & Hstart & Hrest).
    intros [= <- <-]. right. exists figure.
    split; [done|]. split; [done|]. split; [done|]. split; [done|]. split; [done|].
    unfold committed. rewrite Hjump.
    split; [done|]. split; [done|]. split; [done|].
    intros row col Hr Hc Hne1 Hne2 _. by apply Hrest.
Qed.


Lemma wf_checkers_initial_board : wf_board initial_board.
Proof. split; [done|]. by repeat constructor. Qed.

Lemma all_dark_checkers_initial_board : all_dark initial_board.
Proof.
  intros row col p Hrow Hcol.
  assert (row = 0 \/ row = 1 \/ row = 2 \/ row = 3 \/ row = 4 \/ row = 5
          \/ row = 6 \/ row = 7) as Hr by lia.
  assert (col = 0 \/ col = 1 \/ col = 2 \/ col = 3 \/ col = 4 \/ col = 5
          \/ col = 6 \/ col = 7) as Hc by lia.
  destruct Hr as [-> | [-> | [-> | [-> | [-> | [-> | [-> | ->]]]]]]],
           Hc as [-> | [-> | [-> | [-> | [-> | [-> | [-> | ->]]]]]]];
    vm_compute; congruence.
Qed.

Lemma move_figure_dark (board : Board) sr sc er ec k r board' :
  wf_board board -> all_dark board ->
  move_figure board sr sc er ec k = (r, board') ->
  wf_board board' /\ all_dark board'.
Proof.
  intros Hwf Hdark Hmove.
  destruct (checkers_move_figure_cases _ _ _ _ _ _ _ _ Hwf Hmove)
    as [[-> _]|(figure & [Hsr Hsc] & Hfig & Hvalid & _ & Hwf' & Hend & Hstart & Hmid & Hrest)];
    [done|].
  split; [done|]. intros row col p Hrow Hcol Hp.
  destruct (checkers_is_valid_move_spec figure board sr sc er ec k Hwf)
    as (v & ms & Hv & Hms & Hiff).
  rewrite Hvalid in Hv. injection Hv as <-.
  destruct Hiff as [(Hpos & _ & Hin) _]; [done|].
  destruct (get_possible_moves_same_shade figure board sr sc k Hwf)
    as (ms' & Hms' & Hshade).
  rewrite Hms in Hms'. injection Hms' as <-.
  destruct (decide ((row, col) = (er, ec))) as [[= -> ->]|Hne1].
  { destruct (Hshade _ Hin) as [_ Hsh]. unfold shade in Hsh. simpl in Hsh.
    rewrite Hsh, <- norm_sum_parity.
    eapply Hdark; [by apply norm_range..|done]. }
  destruct (decide ((row, col) = (norm sr, norm sc))) as [[= -> ->]|Hne2];
    [congruence|].
  destruct (is_jump sr er) eqn:Hjump.
  - destruct (decide ((row, col) =
        (norm (jumped sr sc er ec).1, norm (jumped sr sc er ec).2)))
      as [Heq|Hne3].
    + specialize (Hmid eq_refl). simpl in Hmid.
      injection Heq as Heq1 Heq2. rewrite Heq1, Heq2 in Hp. congruence.
    + rewrite Hrest in Hp by done. by eapply Hdark.
  - rewrite Hrest in Hp by done. by eapply Hdark.
Qed.

Lemma reachable_dark board : reachable board -> wf_board board /\ all_dark board.
Proof.
  induction 1 as [|board sr sc er ec k r board' _ [IHwf IHdark] Hmove].
  - split; [apply wf_checkers_initial_board|apply all_dark_checkers_initial_board].
  - by eapply move_figure_dark.
Qed.

(** C10.  In the initial checkers layout every piece stands on a dark
    square; every destination a Checker or a KingChecker is offered has
    the colour of the square it is asked from; and every board reached
    from the initial layout by calls of [move_figure] has all its pieces
    on dark squares. *)
Theorem pieces_stay_on_dark_squares :
  all_dark initial_board /\
  (forall f (board : Board) sr sc k ms q,
     wf_board board -> get_possible_moves f board sr sc k = Ok ms ->
     q ∈ ms -> shade q = shade (sr, sc)) /\
  (forall board, reachable board -> all_dark board).
Proof.
  split; [apply all_dark_checkers_initial_board|]. split.
  - intros f board sr sc k ms q Hwf Hms Hq.
    destruct (get_possible_moves_same_shade f board sr sc k Hwf)
      as (ms' & Hms' & Hshade).
    rewrite Hms in Hms'. injection Hms' as <-. by apply Hshade.
  - intros board Hreach. by apply reachable_dark.
Qed.
End CheckersMoves.

(** * Chess: the claims about validation and the controller *)

Section ChessGame.
Import Chess.

Lemma wf_initial_board : wf_board initial_board.
Proof. split; [done|]. by repeat constructor. Qed.

Lemma wf_initial_new_board : wf_board initial_new_board.
Proof. split; [done|]. by repeat constructor. Qed.

Lemma slide_stops_at_first_blocker_witness :
  exists ms,
    get_possible_moves (Queen White) initial_board 4 3 = Ok ms /\
    (forall j, 3 < j -> along 4 3 (-1) 0 j ∉ ms) /\
    (along 4 3 (-1) 0 3 ∈ ms <-> color (Pawn Black) <> color (Queen White)).
Proof.
  apply (slide_stops_at_first_blocker initial_board (Queen White) 4 3 (-1) 0 3
           (Pawn Black)).
  - split; [reflexivity|]. repeat constructor.
  - left.
  - split; [lia|]. split; [|split; reflexivity].
    intros j Hj. assert (j = 1 \/ j = 2) as [-> | ->] by lia;
      split; reflexivity.
Defined.

(** C2 as it is stated fails: on the special-variant board the white Mage
    on d1 is refused the move onto its own King on e1. *)
Lemma mage_refused_on_own_piece :
  ~ (forall (board : Board) (c : Color) (sr sc er ec : Z),
       wf_board board -> cell board sr sc = Some (Mage c) ->
       check_pos er ec = true ->
       is_valid_move (Mage c) board sr sc er ec = Ok true).
Proof.
  intros Hall.
  specialize (Hall initial_new_board White 7 3 7 4 wf_initial_new_board
                eq_refl eq_refl).
  vm_compute in Hall. discriminate.
Qed.

(** C2, amended.  A Mage skips the destination-set test and nothing
    else: for every board, every origin and every destination its move is
    accepted exactly when the destination is on the board and does not
    hold a piece of the Mage's own colour. *)
Theorem mage_valid_iff_not_own_piece (board : Board) (c : Color)
    (sr sc er ec : Z) :
  wf_board board ->
  is_valid_move (Mage c) board sr sc er ec
    = Ok (check_pos er ec && negb (held_by board c er ec)).
Proof.
  intros Hwf.
  destruct (chess_is_valid_move_spec (Mage c) board sr sc er ec Hwf)
    as (ms & _ & ->).
  simpl. by rewrite orb_true_r, andb_true_r.
Qed.

Lemma mage_valid_iff_not_own_piece_witness :
  is_valid_move (Mage White) initial_new_board 7 3 3 4
    = Ok (check_pos 3 4 && negb (held_by initial_new_board White 3 4)).
Proof.
  apply (mage_valid_iff_not_own_piece initial_new_board White 7 3 3 4).
  split; [reflexivity|]. repeat constructor.
Defined.

Lemma choose_figure_true g sr sc :
  wf_board (board g) -> choose_figure g sr sc = Ok true ->
  check_pos sr sc = true /\
  exists figure, cell (board g) sr sc = Some figure /\
                 color figure = current_turn g.
Proof.
  intros Hwf. unfold choose_figure.
  destruct (check_pos sr sc) eqn:Hpos; [|done]. simpl.
  rewrite (get_figure_ok _ _ _ Hwf Hpos). cbn [bind].
  destruct (cell (board g) sr sc) as [figure|]; [|done].
  intros [= Hcol%color_eqb_true]. split; [done|]. by exists figure.
Qed.

Lemma accepted_move_on_board (board : Board) sr sc er ec captured board' :
  wf_board board -> check_pos sr sc = true ->
  move_figure board sr sc er ec = (Ok (Captured captured), board') ->
  exists figure,
    cell board sr sc = Some figure /\ check_pos er ec = true /\
    captured = cell board er ec /\ (sr, sc) <> (er, ec) /\
    wf_board board' /\ committed board board' figure sr sc er ec.
Proof.
  intros Hwf [Hsr Hsc]%check_pos_true Hmove.
  destruct (chess_move_figure_cases _ _ _ _ _ _ _ Hwf Hmove)
    as [[_ [?|[e ?]]]|(figure & _ & Hfig & Hvalid & Hr & _ & Hwf' & Hcommit)];
    [done..|].
  rewrite !norm_id in Hfig by lia. exists figure. split; [done|].
  destruct (chess_is_valid_move_spec figure board sr sc er ec Hwf)
    as (ms & _ & Hv).
  rewrite Hvalid in Hv. injection Hv as Hv. symmetry in Hv.
  apply andb_true_iff in Hv as [[Hpos Hheld]%andb_true_iff _].
  split; [done|]. split; [congruence|]. split; [|done].
  intros [= <- <-]. unfold held_by in Hheld. rewrite Hfig in Hheld.
  apply negb_true_iff, color_eqb_false in Hheld. done.
Qed.

(** What an accepted move leaves on the board once [play] has dealt with
    the capture. *)
Lemma after_move_board g sr sc er ec figure captured board' :
  wf_board (board g) -> check_pos sr sc = true ->
  cell (board g) sr sc = Some figure ->
  move_figure (board g) sr sc er ec = (Ok (Captured captured), board') ->
  let g' := after_move g board' figure sr sc er ec captured in
  wf_board (board g') /\
  check_pos er ec = true /\ (sr, sc) <> (er, ec) /\
  captured = cell (board g) er ec /\
  cell (board g') er ec = Some (empowered figure captured) /\
  cell (board g') sr sc = None /\
  forall r c, 0 <= r < 8 -> 0 <= c < 8 ->
    (r, c) <> (er, ec) -> (r, c) <> (sr, sc) ->
    cell (board g') r c = cell (board g) r c.
Proof.
  intros Hwf Hpos Hfig Hmove.
  destruct (accepted_move_on_board _ _ _ _ _ _ _ Hwf Hpos Hmove)
    as (figure' & Hfig' & Hend & Hcap & Hne & Hwf' & Hland & Hstart & Hrest).
  assert (figure' = figure) as -> by congruence.
  pose proof Hpos as [Hsr Hsc]%check_pos_true.
  rewrite !norm_id in Hstart, Hrest by lia.
  destruct (transfer_power_cell board' figure er ec captured Hwf' Hend Hland)
    as (Hwf'' & Hcell & Hother).
  cbn. split; [done|]. split; [done|]. split; [done|]. split; [done|].
  split; [done|]. split.
  - rewrite Hother by (lia || done). done.
  - intros r c Hr Hc Hne1 Hne2. rewrite Hother by done. by apply Hrest.
Qed.

Lemma undo_move_spec g m :
  wf_board (board g) -> last (moves g) = Some m ->
  check_pos (start_row m) (start_col m) = true ->
  check_pos (end_row m) (end_col m) = true ->
  undo_move g =
    Ok {| board := upd (upd (board g) (start_row m) (start_col m)
                            (cell (board g) (end_row m) (end_col m)))
                       (end_row m) (end_col m) (captured_figure m);
          current_turn := other (current_turn g);
          move_count := move_count g - 1;
          moves := removelast (moves g) |}.
Proof.
  intros Hwf Hlast Hstart Hend. unfold undo_move. rewrite Hlast.
  rewrite (get_figure_ok _ _ _ Hwf Hend). cbn [bind].
  pose proof Hstart as [? ?]%check_pos_true.
  pose proof Hend as [? ?]%check_pos_true.
  rewrite set_figure_index by (done || lia). cbn [bind].
  rewrite set_figure_index by (auto with grid || lia).
  by rewrite !norm_id by lia.
Qed.

Lemma other_involutive c : other (other c) = c.
Proof. by destruct c. Qed.

(** Undo right after an accepted move that did not end the game gives
    back the turn, the move count, the log, and the board square by
    square, except that the mover returns to its origin as the move left
    it: a Demon that took a piece keeps the [power] the capture gave it. *)
Lemma undo_after_move g sr sc er ec captured board' :
  wf_board (board g) ->
  choose_figure g sr sc = Ok true ->
  move_figure (board g) sr sc er ec = (Ok (Captured captured), board') ->
  is_King captured = false ->
  exists figure g',
    cell (board g) sr sc = Some figure /\
    play g [Select sr sc er ec; Undo] = Ok (g', AwaitingInput) /\
    current_turn g' = current_turn g /\
    move_count g' = move_count g /\
    moves g' = moves g /\
    wf_board (board g') /\
    cell (board g') sr sc = Some (empowered figure captured) /\
    forall r c, 0 <= r < 8 -> 0 <= c < 8 -> (r, c) <> (sr, sc) ->
      cell (board g') r c = cell (board g) r c.
Proof.
  intros Hwf Hsel Hmove Hking.
  destruct (choose_figure_true g sr sc Hwf Hsel) as (Hpos & figure & Hfig & Hcol).
  destruct (after_move_board g sr sc er ec figure captured board'
              Hwf Hpos Hfig Hmove)
    as (Hwf1 & Hend & Hne & Hcap & Hland & Hstart & Hrest).
  set (g1 := after_move g board' figure sr sc er ec captured) in *.
  exists figure. eexists. split; [done|].
  cbn [play]. rewrite (play_iter_accepted g sr sc er ec figure captured board')
    by done.
  cbn [bind]. fold g1. rewrite Hking. cbn [play_iter].
  rewrite (undo_move_spec g1 {| start_row := sr; start_col := sc;
                                end_row := er; end_col := ec;
                                captured_figure := captured |});
    [|done|apply last_snoc|done|done].
  cbn [bind start_row start_col end_row end_col captured_figure].
  split; [reflexivity|]. cbn [current_turn move_count moves board].
  pose proof Hpos as [? ?]%check_pos_true.
  pose proof Hend as [? ?]%check_pos_true.
  split.
  { subst g1. cbn. rewrite Hking. apply other_involutive. }
  split; [subst g1; cbn; lia|].
  split; [subst g1; cbn; apply removelast_last|].
  split; [auto with grid|].
  rewrite !cell_upd by (auto with grid || lia).
  split.
  - case_bool_decide; [congruence|]. by case_bool_decide.
  - intros r c Hr Hc Hne1. rewrite !cell_upd by (auto with grid || lia).
    case_bool_decide as Heq; [congruence|].
    case_bool_decide; [congruence|]. by apply Hrest.
Qed.

(** Where the mover is not a Demon that took a piece, that is the game as
    it was. *)
Lemma undo_after_move_restores g sr sc er ec captured board' :
  wf_board (board g) ->
  choose_figure g sr sc = Ok true ->
  move_figure (board g) sr sc er ec = (Ok (Captured captured), board') ->
  is_King captured = false ->
  (forall c power, cell (board g) sr sc = Some (Demon c power) -> captured = None) ->
  play g [Select sr sc er ec; Undo] = Ok (g, AwaitingInput).
Proof.
  intros Hwf Hsel Hmove Hking Hdemon.
  destruct (undo_after_move g sr sc er ec captured board' Hwf Hsel Hmove Hking)
    as (figure & g' & Hfig & -> & Hturn & Hcount & Hlog & Hwf' & Hstart & Hrest).
  do 2 f_equal. destruct g as [b t n l], g' as [b' t' n' l']. simpl in *.
  subst. f_equal. apply board_ext; [done..|].
  intros r c Hr Hc. destruct (decide ((r, c) = (sr, sc))) as [[= -> ->]|Hne].
  - rewrite Hstart, Hfig. f_equal. unfold empowered.
    destruct figure; try done. by rewrite (Hdemon _ _ Hfig).
  - by apply Hrest.
Qed.

(** C1 fails for a Demon that takes a piece.  In the special-variant
    game [demon_walk] the white Demon on g6 has the power ["King"]; it
    takes the Spearman on g7 and the move is undone.  The turn, the move
    count, the log and the position of every piece are as before, but the
    Demon is back on g6 with the power ["Spearman"]: [undo_move] does not
    restore the attribute that [play] wrote after the capture, so the
    board is not the board before the move, and the Demon is offered
    three squares where it was offered eight. *)
Theorem undo_keeps_captured_power :
  exists g g',
    play (init special) demon_walk = Ok (g, AwaitingInput) /\
    play g [Select 2 6 1 6; Undo] = Ok (g', AwaitingInput) /\
    current_turn g' = current_turn g /\
    move_count g' = move_count g /\
    moves g' = moves g /\
    cell (board g) 2 6 = Some (Demon White Name.King) /\
    cell (board g) 1 6 = Some (Spearman Black) /\
    cell (board g') 2 6 = Some (Demon White Name.Spearman) /\
    cell (board g') 1 6 = Some (Spearman Black) /\
    board g' <> board g /\
    get_possible_moves (Demon White Name.King) (board g) 2 6
      = Ok [(1, 5); (1, 6); (1, 7); (2, 5); (2, 7); (3, 5); (3, 6); (3, 7)] /\
    get_possible_moves (Demon White Name.Spearman) (board g') 2 6
      = Ok [(1, 5); (1, 6); (1, 7)].
Proof.
  eexists. eexists.
  split; [vm_compute; reflexivity|].
  split; [vm_compute; reflexivity|].
  repeat split; try (vm_compute; reflexivity).
  vm_compute. discriminate.
Qed.

(** C8.  When [move_figure] reports a captured King, the pass of the
    loop ends in [break]: [play] announces [current_turn] as it stood
    before the move, which is the colour of the mover and not the colour
    of the King, leaves [current_turn] unswitched, and returns whatever
    inputs follow, so that no further move is accepted. *)
Theorem king_capture_ends_game (g : Game) (sr sc er ec : Z)
    (king : Figure) (board' : Board) :
  wf_board (board g) ->
  choose_figure g sr sc = Ok true ->
  move_figure (board g) sr sc er ec = (Ok (Captured (Some king)), board') ->
  type_name king = Name.King ->
  exists figure g',
    cell (board g) sr sc = Some figure /\
    color figure = current_turn g /\
    cell (board g) er ec = Some king /\
    color king <> current_turn g /\
    current_turn g' = current_turn g /\
    cell (board g') er ec = Some (empowered figure (Some king)) /\
    forall rest,
      play g (Select sr sc er ec :: rest) = Ok (g', Won (current_turn g)).
Proof.
  intros Hwf Hsel Hmove Hking.
  destruct (choose_figure_true g sr sc Hwf Hsel) as (Hpos & figure & Hfig & Hcol).
  destruct (after_move_board g sr sc er ec figure (Some king) board'
              Hwf Hpos Hfig Hmove)
    as (Hwf1 & Hend & Hne & Hcap & Hland & Hstart & Hrest).
  assert (is_King (Some king) = true) as Hk
    by (by apply bool_decide_eq_true).
  exists figure, (after_move g board' figure sr sc er ec (Some king)).
  split; [done|]. split; [done|]. split; [done|]. split.
  { (* the captured piece is an enemy: the move was valid *)
    destruct (chess_move_figure_cases _ _ _ _ _ _ _ Hwf Hmove)
      as [[_ [?|[e ?]]]|(figure' & _ & Hfig' & Hvalid & _)]; [done..|].
    pose proof Hpos as [? ?]%check_pos_true.
    rewrite !norm_id in Hfig' by lia.
    assert (figure' = figure) as -> by congruence.
    destruct (chess_is_valid_move_spec figure (board g) sr sc er ec Hwf)
      as (ms & _ & Hv).
    rewrite Hvalid in Hv. injection Hv as Hv. symmetry in Hv.
    apply andb_true_iff in Hv as [[_ Hheld]%andb_true_iff _].
    unfold held_by in Hheld. rewrite <- Hcap in Hheld.
    apply negb_true_iff, color_eqb_false in Hheld. congruence. }
  split; [cbn; by rewrite bool_decide_eq_true_2|]. split; [done|].
  intros rest. cbn [play].
  rewrite (play_iter_accepted g sr sc er ec figure (Some king) board') by done.
  cbn [bind]. rewrite Hk. do 2 f_equal.
  cbn. by rewrite bool_decide_eq_true_2.
Qed.

(** C5.  A Demon that has taken nothing moves as a King.  At every call
    a Demon moves as a freshly built piece of the class its [power] names
    at that moment.  An accepted move leaves on the destination the mover
    with, for a Demon that took a piece, the class of that piece as its
    [power], and unchanged otherwise; every square other than the origin
    and the destination keeps its piece, and so does an undo, which only
    carries pieces back: a Demon keeps its [power] until it takes another
    piece. *)
Theorem demon_moves_as_last_capture :
  (forall (c : Color) (board : Board) (sr sc : Z),
     get_possible_moves (new Name.Demon c) board sr sc
       = King_get_possible_moves c board sr sc) /\
  (forall (c : Color) (power : Name.t) (board : Board) (sr sc : Z),
     get_possible_moves (Demon c power) board sr sc
       = get_possible_moves (new power c) board sr sc) /\
  (forall (g : Game) (sr sc er ec : Z) (captured : option Figure)
          (board' : Board),
     wf_board (board g) ->
     choose_figure g sr sc = Ok true ->
     move_figure (board g) sr sc er ec = (Ok (Captured captured), board') ->
     exists figure g' stop,
       cell (board g) sr sc = Some figure /\
       play_iter g (Select sr sc er ec) = Ok (g', stop) /\
       wf_board (board g') /\
       cell (board g') er ec = Some (empowered figure captured) /\
       forall r c, 0 <= r < 8 -> 0 <= c < 8 ->
         (r, c) <> (er, ec) -> (r, c) <> (sr, sc) ->
         cell (board g') r c = cell (board g) r c) /\
  (forall (g g' : Game) (m : Move),
     wf_board (board g) ->
     last (moves g) = Some m ->
     check_pos (start_row m) (start_col m) = true ->
     check_pos (end_row m) (end_col m) = true ->
     (start_row m, start_col m) <> (end_row m, end_col m) ->
     play_iter g Undo = Ok (g', false) ->
     wf_board (board g') /\
     cell (board g') (start_row m) (start_col m)
       = cell (board g) (end_row m) (end_col m) /\
     cell (board g') (end_row m) (end_col m) = captured_figure m /\
     forall r c, 0 <= r < 8 -> 0 <= c < 8 ->
       (r, c) <> (end_row m, end_col m) ->
       (r, c) <> (start_row m, start_col m) ->
       cell (board g') r c = cell (board g) r c).
Proof.
  split; [done|]. split; [by intros c []|]. split.
  - intros g sr sc er ec captured board' Hwf Hsel Hmove.
    destruct (choose_figure_true g sr sc Hwf Hsel)
      as (Hpos & figure & Hfig & Hcol).
    destruct (after_move_board g sr sc er ec figure captured board'
                Hwf Hpos Hfig Hmove)
      as (Hwf1 & Hend & Hne & Hcap & Hland & Hstart & Hrest).
    exists figure, (after_move g board' figure sr sc er ec captured),
           (is_King captured).
    split; [done|]. split; [by apply play_iter_accepted|]. done.
  - intros g g' m Hwf Hlast Hstart Hend Hne. cbn [play_iter].
    rewrite (undo_move_spec g m) by done. cbn [bind]. intros [= <-].
    cbn [board].
    pose proof Hstart as [? ?]%check_pos_true.
    pose proof Hend as [? ?]%check_pos_true.
    split; [auto with grid|].
    rewrite !cell_upd by (auto with grid || lia).
    split.
    + case_bool_decide; [congruence|]. by case_bool_decide.
    + split; [by case_bool_decide|].
      intros r c Hr Hc Hne1 Hne2.
      rewrite !cell_upd by (auto with grid || lia).
      case_bool_decide; [congruence|]. by case_bool_decide.
Qed.


Lemma wf_game_after_demon_walk : wf_board (board (game_after special demon_walk)).
Proof. split; [done|]. by repeat constructor. Qed.

Lemma wf_game_after_queen_raid : wf_board (board (game_after classic queen_raid)).
Proof. split; [done|]. by repeat constructor. Qed.

Lemma king_capture_ends_game_witness :
  exists figure g',
    cell (board (game_after classic queen_raid)) 4 7 = Some figure /\
    color figure = current_turn (game_after classic queen_raid) /\
    cell (board (game_after classic queen_raid)) 7 4 = Some (King White) /\
    color (King White) <> current_turn (game_after classic queen_raid) /\
    current_turn g' = current_turn (game_after classic queen_raid) /\
    cell (board g') 7 4 = Some (empowered figure (Some (King White))) /\
    forall rest,
      play (game_after classic queen_raid) (Select 4 7 7 4 :: rest)
        = Ok (g', Won (current_turn (game_after classic queen_raid))).
Proof.
  apply (king_capture_ends_game (game_after classic queen_raid) 4 7 7 4
           (King White)
           (snd (move_figure (board (game_after classic queen_raid)) 4 7 7 4))).
  - split; [reflexivity|]. repeat constructor.
  - vm_compute. reflexivity.
  - vm_compute. reflexivity.
  - reflexivity.
Defined.

Lemma demon_moves_as_last_capture_witness :
  exists figure g' stop,
    cell (board (game_after special demon_walk)) 2 6 = Some figure /\
    play_iter (game_after special demon_walk) (Select 2 6 1 6) = Ok (g', stop) /\
    wf_board (board g') /\
    cell (board g') 1 6 = Some (empowered figure (Some (Spearman Black))) /\
    forall r c, 0 <= r < 8 -> 0 <= c < 8 ->
      (r, c) <> (1, 6) -> (r, c) <> (2, 6) ->
      cell (board g') r c = cell (board (game_after special demon_walk)) r c.
Proof.
  apply (proj1 (proj2 (proj2 demon_moves_as_last_capture))
           (game_after special demon_walk) 2 6 1 6 (Some (Spearman Black))
           (snd (move_figure (board (game_after special demon_walk)) 2 6 1 6))).
  - split; [reflexivity|]. repeat constructor.
  - vm_compute. reflexivity.
  - vm_compute. reflexivity.
Defined.

End ChessGame.

(** * Checkers: the claims about mandatory captures and the game loop *)

Section CheckersGame.
Import Checkers.

Lemma Checker_captures_spec c (board : Board) sr sc :
  wf_board board ->
  exists caps,
    Checker_captures c board sr sc = Ok caps /\
    forall q, q ∈ caps <-> jump_square c board sr sc q.
Proof.
  intros Hwf. unfold Checker_captures, jump_square.
  generalize directions as dirs. intros dirs.
  enough (forall acc, exists caps,
    for_each dirs
      (fun moves '(dr, dc) =>
         if check_pos (sr + dr) (sc + dc) then
           let* position := get_figure board (sr + dr) (sc + dc) in
           match position with
           | Some p =>
               if negb (color_eqb (color p) c) then
                 let* landing := free board (sr + 2 * dr) (sc + 2 * dc) in
                 if landing
                 then Ok (moves ++ [(sr + 2 * dr, sc + 2 * dc)])
                 else Ok moves
               else Ok moves
           | None => Ok moves
           end
         else Ok moves) acc = Ok (acc ++ caps) /\
    forall q, q ∈ caps <->
      exists dr dc, (dr, dc) ∈ dirs /\ q = (sr + 2 * dr, sc + 2 * dc) /\
        check_pos (sr + dr) (sc + dc) = true /\
        (exists p, cell board (sr + dr) (sc + dc) = Some p /\ color p <> c) /\
        on_board q /\ cell board q.1 q.2 = None) as Hgen.
  { destruct (Hgen []) as (caps & Hrun & Hcaps). by exists caps. }
  induction dirs as [|[dr dc] dirs IH]; intros acc; cbn [for_each].
  - adds_nothing.
    intros q. split; [by intros ?%elem_of_nil|].
    by intros (dr & dc & ?%elem_of_nil & _).
  - assert (exists here,
      (if check_pos (sr + dr) (sc + dc) then
         let* position := get_figure board (sr + dr) (sc + dc) in
         match position with
         | Some p =>
             if negb (color_eqb (color p) c) then
               let* landing := free board (sr + 2 * dr) (sc + 2 * dc) in
               if landing
               then Ok (acc ++ [(sr + 2 * dr, sc + 2 * dc)])
               else Ok acc
             else Ok acc
         | None => Ok acc
         end
       else Ok acc) = Ok (acc ++ here) /\
      forall q, q ∈ here <->
        q = (sr + 2 * dr, sc + 2 * dc) /\
        check_pos (sr + dr) (sc + dc) = true /\
        (exists p, cell board (sr + dr) (sc + dc) = Some p /\ color p <> c) /\
        on_board q /\ cell board q.1 q.2 = None)
      as (here & -> & Hhere).
    { assert (forall P : pos -> Prop, (forall q, ~ P q) ->
              forall q, q ∈ ([] : list pos) <-> P q) as Hnone.
      { intros P HP q. split; [by intros ?%elem_of_nil|]. by intros ?%HP. }
      destruct (check_pos (sr + dr) (sc + dc)) eqn:Hpos.
      - rewrite (get_figure_ok _ _ _ Hwf Hpos). cbn [bind].
        destruct (cell board (sr + dr) (sc + dc)) as [p|] eqn:Hcell.
        + destruct (negb _) eqn:Hcol.
          * rewrite checkers_free_spec by done. cbn [bind].
            destruct (check_pos _ _ && _) eqn:Hland.
            -- exists [(sr + 2 * dr, sc + 2 * dc)]. split; [done|]. intros q.
               rewrite list_elem_of_singleton. split; [|tauto].
               apply andb_true_iff in Hland as [Hon Hempty%bool_decide_eq_true].
               intros ->. split; [done|]. split; [done|]. split; [|done].
               exists p. split; [done|].
               by apply color_eqb_false, negb_true_iff.
            -- adds_nothing. apply Hnone.
               intros q (-> & _ & _ & Hon & Hempty). simpl in Hempty.
               apply andb_false_iff in Hland as [Hland|Hland%bool_decide_eq_false];
                 [unfold on_board in Hon; simpl in Hon; congruence|done].
          * adds_nothing. apply Hnone.
            intros q (_ & _ & (p' & Hp' & Hne) & _).
            apply negb_false_iff, color_eqb_true in Hcol. congruence.
        + adds_nothing. apply Hnone.
          intros q (_ & _ & (p' & Hp' & _) & _). congruence.
      - adds_nothing. apply Hnone.
        intros q (_ & ? & _). congruence. }
    cbn [bind]. destruct (IH (acc ++ here)) as (caps & -> & Hcaps).
    exists (here ++ caps). split; [by rewrite app_assoc|].
    intros q. rewrite elem_of_app, Hhere, Hcaps. split.
    + intros [Hq|(dr' & dc' & Hin & Hq)].
      * exists dr, dc. split; [left|done].
      * exists dr', dc'. split; [by right|done].
    + intros (dr' & dc' & [Heq|Hin]%elem_of_cons & Hq).
      * injection Heq as -> ->. by left.
      * right. by exists dr', dc'.
Qed.
(** For a [Checker] the rule holds: once a jump is available, or the
    piece is in a chain, it is offered its jumps and nothing else. *)
Lemma checker_must_capture c (board : Board) sr sc is_killer :
  wf_board board ->
  exists caps ms,
    Checker_captures c board sr sc = Ok caps /\
    Checker_get_possible_moves c board sr sc is_killer = Ok ms /\
    (is_killer = true \/ caps <> [] -> ms = caps).
Proof.
  intros Hwf.
  destruct (Checker_captures_same_shade c board sr sc Hwf) as (caps & Hcaps & _).
  destruct (Checker_same_shade c board sr sc is_killer Hwf) as (ms & Hms & _).
  exists caps, ms. split; [done|]. split; [done|].
  revert Hms. unfold Checker_get_possible_moves. rewrite Hcaps. cbn [bind].
  intros Hms [-> | Hne].
  - simpl in Hms. congruence.
  - destruct caps; [done|]. rewrite orb_true_r in Hms. simpl in Hms. congruence.
Qed.

(** After a capture the turn stays with the mover for as long as the
    piece on the landing square is offered any move with
    [is_killer = True]. *)
Lemma capture_keeps_turn g sr sc er ec is_killer taken board' figure ms :
  check_pos er ec = true ->
  move_figure (board g) sr sc er ec is_killer
    = (Ok (Captured (Some taken)), board') ->
  get_figure board' er ec = Ok (Some figure) ->
  get_possible_moves figure board' er ec true = Ok ms ->
  ms <> [] ->
  step g (Moving sr sc is_killer) (Pos er ec)
    = Ok ({| board := board'; current_turn := current_turn g;
             move_count := move_count g |}, Moving er ec true).
Proof.
  intros Hpos Hmove Hfig Hms Hne. cbn [step]. rewrite Hpos, Hmove. cbn.
  unfold enter. cbn [board]. rewrite Hfig. cbn [bind]. rewrite Hms. cbn [bind].
  by destruct ms.
Qed.


(** C3 fails for a KingChecker.  In the game [king_game] followed by the
    jump b8xd6 the white king stands on d6 in the middle of a capture
    chain ([is_killer = True]) and can take the checker on c5 or the one
    on e5; it is nevertheless offered the slides to c7 and b8, which take
    nothing.  [KingChecker.get_possible_moves] receives [is_killer] and
    does not read it, where [Checker.get_possible_moves] withholds the
    plain steps ([checker_must_capture]). *)
Theorem king_offered_slides_despite_capture :
  exists g,
    run init Selecting (king_game ++ [Pos 0 1; Pos 2 3])
      = Ok (g, Moving 2 3 true) /\
    cell (board g) 2 3 = Some (KingChecker White) /\
    cell (board g) 3 2 = Some (Checker Black) /\
    cell (board g) 4 1 = None /\
    cell (board g) 1 2 = None /\
    get_possible_moves (KingChecker White) (board g) 2 3 true
      = Ok [(4, 5); (4, 1); (1, 2); (0, 1)] /\
    fst (move_figure (board g) 2 3 4 1 true)
      = Ok (Captured (Some (Checker Black))) /\
    fst (move_figure (board g) 2 3 1 2 true) = Ok (Captured None).
Proof.
  eexists. split; [vm_compute; reflexivity|].
  repeat split; vm_compute; reflexivity.
Qed.

(** C7 fails for a KingChecker.  In the game [king_game] the white king
    on b8 jumps the checker on c7 and lands on d6, from where the
    checkers on c5 and e5 can be taken: the turn stays with White and the
    loop waits for a destination from d6.  The slide d6-c7 is then
    accepted, takes nothing, and the turn passes to Black, although the
    king could have gone on capturing and, on c7, still can. *)
Theorem king_may_leave_capture_chain :
  exists g g1 g2,
    run init Selecting (king_game ++ [Pos 0 1]) = Ok (g, Moving 0 1 false) /\
    current_turn g = White /\
    fst (move_figure (board g) 0 1 2 3 false)
      = Ok (Captured (Some (Checker Black))) /\
    step g (Moving 0 1 false) (Pos 2 3) = Ok (g1, Moving 2 3 true) /\
    current_turn g1 = White /\
    get_possible_moves (KingChecker White) (board g1) 2 3 true
      = Ok [(4, 5); (4, 1); (1, 2); (0, 1)] /\
    fst (move_figure (board g1) 2 3 4 1 true)
      = Ok (Captured (Some (Checker Black))) /\
    step g1 (Moving 2 3 true) (Pos 1 2) = Ok (g2, Selecting) /\
    current_turn g2 = Black /\
    cell (board g2) 1 2 = Some (KingChecker White) /\
    cell (board g2) 3 2 = Some (Checker Black) /\
    cell (board g2) 3 4 = Some (Checker Black) /\
    fst (move_figure (board g2) 1 2 4 5 true)
      = Ok (Captured (Some (Checker Black))).
Proof.
  eexists. eexists. eexists. split; [vm_compute; reflexivity|].
  do 3 (split; [vm_compute; reflexivity|]).
  repeat split; vm_compute; reflexivity.
Qed.

Lemma pieces_stay_on_dark_squares_witness :
  all_dark (snd (move_figure initial_board 5 0 4 1 false)).
Proof.
  apply (proj2 (proj2 pieces_stay_on_dark_squares)
           (snd (move_figure initial_board 5 0 4 1 false))).
  apply (reachable_move initial_board 5 0 4 1 false
           (fst (move_figure initial_board 5 0 4 1 false))).
  - apply reachable_initial.
  - reflexivity.
Defined.

End CheckersGame.

(** * Both games *)

(** C4 as it is stated fails: asked for the moves of a white King from the
    off-board origin (8, 3) on an empty board, [get_possible_moves] does
    not raise, but it does not return the empty list either. *)
Lemma off_board_origin_has_moves :
  ~ (forall (f : Chess.Figure) (board : Chess.Board) (sr sc : Z),
       wf_board board -> check_pos sr sc = false ->
       Chess.get_possible_moves f board sr sc = Ok []).
Proof.
  intros Hall.
  specialize (Hall (Chess.King White) empty_grid 8 3 wf_empty_grid eq_refl).
  vm_compute in Hall. discriminate.
Qed.

(** C4, amended.  For every piece kind of either game and every request,
    on the board or off it, [get_possible_moves] returns a list and does
    not raise, and the list holds squares of the board only; it is not
    always empty for an origin off the board.  [is_valid_move] returns a
    boolean and does not raise, and the boolean is false as soon as the
    destination is off the board, is held by a piece of the mover's
    colour (chess) or by any piece (checkers), or is not in the list (for
    any piece but a Mage). *)
Theorem requests_never_raise :
  (forall (f : Chess.Figure) (board : Chess.Board) (sr sc er ec : Z),
     wf_board board ->
     exists ms,
       Chess.get_possible_moves f board sr sc = Ok ms /\
       all_on_board ms /\
       Chess.is_valid_move f board sr sc er ec =
         Ok (check_pos er ec
             && negb (Chess.held_by board (Chess.color f) er ec)
             && (mem (er, ec) ms
                 || bool_decide (Chess.type_name f = Chess.Name.Mage)))) /\
  (forall (f : Checkers.Figure) (board : Checkers.Board) (sr sc er ec : Z)
          (is_killer : bool),
     wf_board board ->
     exists ms v,
       Checkers.get_possible_moves f board sr sc is_killer = Ok ms /\
       all_on_board ms /\
       Checkers.is_valid_move f board sr sc er ec is_killer = Ok v /\
       (v = true <->
        check_pos er ec = true /\ cell board er ec = None /\ (er, ec) ∈ ms)).
Proof.
  split.
  - intros f board sr sc er ec Hwf.
    destruct (chess_is_valid_move_spec f board sr sc er ec Hwf)
      as (ms & Hms & Hvalid).
    destruct (get_possible_moves_on_board f board sr sc Hwf)
      as (ms' & Hms' & Hon).
    rewrite Hms in Hms'. injection Hms' as <-. by exists ms.
  - intros f board sr sc er ec k Hwf.
    destruct (checkers_is_valid_move_spec f board sr sc er ec k Hwf)
      as (v & ms & Hv & Hms & Hiff).
    destruct (get_possible_moves_same_shade f board sr sc k Hwf)
      as (ms' & Hms' & Hshade).
    rewrite Hms in Hms'. injection Hms' as <-.
    exists ms, v. split; [done|]. split; [|done].
    intros q Hq. by apply Hshade.
Qed.

(** C9.  In both games [move_figure] is atomic.  Whenever it returns the
    rejection, and also whenever it raises, the board is the board before
    the call.  Whenever it returns a capture result the move is committed
    in full: the origin is empty, the destination holds the mover (in
    checkers, the king it is promoted to on its last row), in checkers
    the jumped square is empty after a jump, no other square has changed,
    and the result is the piece that stood on the destination (chess) or
    on the jumped square (checkers). *)
Theorem move_figure_atomic :
  (forall (board : Chess.Board) (sr sc er ec : Z)
          (r : result Chess.MoveResult) (board' : Chess.Board),
     wf_board board ->
     Chess.move_figure board sr sc er ec = (r, board') ->
     match r with
     | Ok (Chess.Captured captured) =>
         exists figure,
           cell board (norm sr) (norm sc) = Some figure /\
           captured = cell board er ec /\
           Chess.committed board board' figure sr sc er ec
     | Ok Chess.Rejected | Raise _ => board' = board
     end) /\
  (forall (board : Checkers.Board) (sr sc er ec : Z) (is_killer : bool)
          (r : result Checkers.MoveResult) (board' : Checkers.Board),
     wf_board board ->
     Checkers.move_figure board sr sc er ec is_killer = (r, board') ->
     match r with
     | Ok (Checkers.Captured captured) =>
         exists figure,
           cell board (norm sr) (norm sc) = Some figure /\
           captured =
             (if Checkers.is_jump sr er
              then cell board (norm (Checkers.jumped sr sc er ec).1)
                              (norm (Checkers.jumped sr sc er ec).2)
              else None) /\
           Checkers.committed board board' figure sr sc er ec
     | Ok Checkers.Rejected | Raise _ => board' = board
     end).
Proof.
  split.
  - intros board sr sc er ec r board' Hwf Hmove.
    destruct (chess_move_figure_cases _ _ _ _ _ _ _ Hwf Hmove)
      as [[-> [-> |[e ->]]]|(figure & _ & Hfig & _ & -> & _ & _ & Hcommit)];
      [done..|].
    by exists figure.
  - intros board sr sc er ec k r board' Hwf Hmove.
    destruct (checkers_move_figure_cases _ _ _ _ _ _ _ _ Hwf Hmove)
      as [[-> [-> |[e ->]]]|(figure & _ & Hfig & _ & -> & _ & Hcommit)];
      [done..|].
    by exists figure.
Qed.


Lemma requests_never_raise_witness :
  exists ms,
    Chess.get_possible_moves (Chess.King White) empty_grid 8 3 = Ok ms /\
    all_on_board ms /\
    Chess.is_valid_move (Chess.King White) empty_grid 8 3 7 3 =
      Ok (check_pos 7 3
          && negb (Chess.held_by empty_grid (Chess.color (Chess.King White)) 7 3)
          && (mem (7, 3) ms
              || bool_decide (Chess.type_name (Chess.King White)
                              = Chess.Name.Mage))).
Proof.
  apply (proj1 requests_never_raise (Chess.King White) empty_grid 8 3 7 3).
  split; [reflexivity|]. repeat constructor.
Defined.

Lemma move_figure_atomic_witness :
  exists figure,
    cell Chess.initial_board (norm 6) (norm 4) = Some figure /\
    None = cell Chess.initial_board 4 4 /\
    Chess.committed Chess.initial_board
      (snd (Chess.move_figure Chess.initial_board 6 4 4 4)) figure 6 4 4 4.
Proof.
  apply (proj1 move_figure_atomic Chess.initial_board 6 4 4 4
           (Ok (Chess.Captured None))
           (snd (Chess.move_figure Chess.initial_board 6 4 4 4))).
  - split; [reflexivity|]. repeat constructor.
  - vm_compute. reflexivity.
Defined.

(** * Loops that collect squares *)

(** A loop that, for each element, appends the squares picked out by
    [P] appends, in all, the squares some element picks out. *)
Lemma for_each_collect {A} (xs : list A)
    (body : list pos -> A -> result (list pos)) (P : A -> pos -> Prop) :
  (forall acc x, x ∈ xs ->
     exists here, body acc x = Ok (acc ++ here) /\ forall q, q ∈ here <-> P x q) ->
  forall acc, exists ms,
    for_each xs body acc = Ok (acc ++ ms) /\
    forall q, q ∈ ms <-> exists x, x ∈ xs /\ P x q.
Proof.
  induction xs as [|x xs IH]; intros Hbody acc; cbn [for_each].
  - adds_nothing. intros q. split; [by intros ?%elem_of_nil|].
    by intros (x & ?%elem_of_nil & _).
  - destruct (Hbody acc x) as (here & -> & Hhere); [left|]. cbn [bind].
    destruct (IH (fun acc y Hy => Hbody acc y (list_elem_of_further _ _ _ Hy))
                 (acc ++ here)) as (ms & -> & Hms).
    exists (here ++ ms). split; [by rewrite app_assoc|].
    intros q. rewrite elem_of_app, Hhere, Hms. split.
    + intros [Hq|(y & Hy & Hq)]; [exists x|exists y]; split; try done;
        [left|by right].
    + intros (y & [-> |Hy]%elem_of_cons & Hq); [by left|right; by exists y].
Qed.

(** * Chess: what each piece is offered *)

Section ChessOffers.
Import Chess.

Lemma home_rank_test c sr :
  color_eqb c White && (sr =? 6) || color_eqb c Black && (sr =? 1) = true
  <-> home_rank c sr.
Proof.
  unfold home_rank.
  by rewrite orb_true_iff, !andb_true_iff, !color_eqb_true, !Z.eqb_eq.
Qed.

Lemma free_empty_at (board : Board) r c :
  wf_board board ->
  exists v, free board r c = Ok v /\ (v = true <-> empty_at board (r, c)).
Proof.
  intros Hwf. rewrite chess_free_spec by done. eexists. split; [done|].
  unfold empty_at, on_board. simpl.
  rewrite andb_true_iff, bool_decide_eq_true. done.
Qed.

Lemma Pawn_spec c (board : Board) sr sc :
  wf_board board ->
  exists ms, Pawn_get_possible_moves c board sr sc = Ok ms /\
             forall q, q ∈ ms <-> pawn_move c board sr sc q.
Proof.
  intros Hwf. unfold Pawn_get_possible_moves, pawn_move.
  set (d := direction c).
  (* the advance *)
  assert (exists ahead,
    (let* one := free board (sr + d) sc in
     if one then
       if color_eqb c White && (sr =? 6) || color_eqb c Black && (sr =? 1)
       then
         let* two := free board (sr + 2 * d) sc in
         if two then Ok (([] ++ [(sr + d, sc)]) ++ [(sr + 2 * d, sc)])
         else Ok ([] ++ [(sr + d, sc)])
       else Ok ([] ++ [(sr + d, sc)])
     else Ok []) = Ok ahead /\
    forall q, q ∈ ahead <->
      q = (sr + d, sc) /\ empty_at board q
      \/ q = (sr + 2 * d, sc) /\ home_rank c sr /\
         empty_at board (sr + d, sc) /\ empty_at board q)
    as (ahead & -> & Hahead).
  { destruct (free_empty_at board (sr + d) sc Hwf) as (one & -> & Hone).
    destruct (free_empty_at board (sr + 2 * d) sc Hwf) as (two & -> & Htwo).
    cbn [bind]. pose proof (home_rank_test c sr) as Hhome.
    assert (d <> 0) as Hd by (unfold d, direction; by destruct (color_eqb c White)).
    destruct one.
    - destruct (_ || _).
      + destruct two; eexists; (split; [done|]); intros q; simpl;
          rewrite ?elem_of_cons, elem_of_nil.
        * split.
          -- intros [-> |[-> |[]]]; [left|right]; intuition.
          -- intros [[-> _]|[-> _]]; auto.
        * split.
          -- intros [-> |[]]. left. intuition.
          -- intros [[-> _]|(-> & _ & _ & He)]; [auto|].
             apply Htwo in He. discriminate.
      + eexists. split; [done|]. intros q. simpl.
        rewrite elem_of_cons, elem_of_nil. split.
        * intros [-> |[]]. left. intuition.
        * intros [[-> _]|(-> & Hh & _)]; [auto|].
          apply Hhome in Hh. discriminate.
    - eexists. split; [done|]. intros q. rewrite elem_of_nil. split; [done|].
      intros [[-> He]|(_ & _ & He & _)]; apply Hone in He; discriminate. }
  cbn [bind]. cbv zeta.
  destruct (for_each_collect [sc - 1; sc + 1]
    (fun (moves : list (Z * Z)) col =>
       if check_pos (sr + d) col then
         let* target_figure := get_figure board (sr + d) col in
         match target_figure with
         | Some t =>
             if negb (color_eqb (color t) c)
             then Ok (moves ++ [(sr + d, col)]) else Ok moves
         | None => Ok moves
         end
       else Ok moves)
    (fun col q => q = (sr + d, col) /\ enemy_at c board q)) with
    (ahead) as (diag & Hrun & Hdiag).
  { intros acc col _.
    assert (forall P : pos -> Prop, (forall q, ~ P q) ->
            forall q, q ∈ ([] : list pos) <-> P q) as Hnone.
    { intros P HP q. split; [by intros ?%elem_of_nil|]. by intros ?%HP. }
    unfold enemy_at, on_board.
    destruct (check_pos (sr + d) col) eqn:Hpos.
    - rewrite (get_figure_ok _ _ _ Hwf Hpos). cbn [bind].
      destruct (cell board (sr + d) col) as [t|] eqn:Hcell.
      + destruct (negb _) eqn:Hcol.
        * exists [(sr + d, col)]. split; [done|]. intros q.
          rewrite list_elem_of_singleton. split; [|tauto].
          intros ->. split; [done|]. split; [done|]. exists t.
          split; [done|]. by apply color_eqb_false, negb_true_iff.
        * adds_nothing. apply Hnone.
          intros q (-> & _ & t' & Ht' & Hne). simpl in Ht'.
          apply negb_false_iff, color_eqb_true in Hcol. congruence.
      + adds_nothing. apply Hnone.
        intros q (-> & _ & t' & Ht' & _). simpl in Ht'. congruence.
    - adds_nothing. apply Hnone.
      intros q (-> & Hon & _). simpl in Hon. congruence. }
  exists (ahead ++ diag). split; [exact Hrun|].
  intros q. rewrite elem_of_app, Hahead, Hdiag. split.
  - intros [[H|H]|(col & Hcol & -> & He)]; [by left|by right; left|].
    right. right. split; [|done].
    revert Hcol. rewrite !elem_of_cons, elem_of_nil. intros [-> |[-> |[]]]; auto.
  - intros [H|[H|[[-> | ->] He]]]; [left; by left|left; by right|right..].
    + exists (sc - 1). split; [left|done].
    + exists (sc + 1). split; [right; left|done].
Qed.

(** X1.  A Pawn is offered exactly: the square ahead when it is empty; the
    second square ahead when the Pawn stands on its home rank and both
    squares are empty; and the two squares diagonally ahead that hold an
    enemy.  All of them on the board; nothing else, and no error. *)
Theorem Pawn_moves_exactly (c : Color) (board : Board) (sr sc : Z) :
  wf_board board ->
  exists ms,
    Pawn_get_possible_moves c board sr sc = Ok ms /\
    forall q, q ∈ ms <-> pawn_move c board sr sc q.
Proof.
  intros Hwf. destruct (Pawn_spec c board sr sc Hwf) as (ms & Hrun & Hms).
  by exists ms.
Qed.

Lemma Pawn_moves_exactly_witness :
  exists ms,
    Pawn_get_possible_moves White initial_board 6 4 = Ok ms /\
    forall q, q ∈ ms <-> pawn_move White initial_board 6 4 q.
Proof.
  apply (Pawn_moves_exactly White initial_board 6 4).
  split; [reflexivity|]. repeat constructor.
Defined.

Lemma no_member_nil {B} (l : list B) : (forall x, x ∉ l) -> l = [].
Proof. destruct l as [|x l]; [done|]. intros H. destruct (H x). left. Qed.

(** X2.  A Pawn on the rank farthest from its home (row 0 for White, row 7
    for Black) is offered no move: the code has no promotion. *)
Theorem Pawn_on_its_last_rank_is_stuck (c : Color) (board : Board)
    (sr sc : Z) :
  wf_board board ->
  (c = White /\ sr = 0 \/ c = Black /\ sr = 7) ->
  Pawn_get_possible_moves c board sr sc = Ok [].
Proof.
  intros Hwf Hlast.
  destruct (Pawn_spec c board sr sc Hwf) as (ms & -> & Hms).
  f_equal. apply no_member_nil. intros q Hq%Hms.
  assert (sr + direction c = -1 \/ sr + direction c = 8) as Hrow
    by (destruct Hlast as [[-> ->]|[-> ->]]; vm_compute; tauto).
  unfold pawn_move, empty_at, enemy_at, on_board in Hq.
  destruct Hq as [(-> & Hon & _)|[(_ & _ & [Hon _] & _)|(Hq & Hon & _)]];
    [| |destruct Hq as [-> | ->]];
    simpl in Hon; apply check_pos_true in Hon; lia.
Qed.

Lemma Pawn_on_its_last_rank_is_stuck_witness :
  Pawn_get_possible_moves White (upd empty_grid 0 4 (Some (Pawn White))) 0 4
  = Ok [].
Proof.
  apply (Pawn_on_its_last_rank_is_stuck White
           (upd empty_grid 0 4 (Some (Pawn White))) 0 4).
  - split; [reflexivity|]. repeat constructor.
  - left. split; reflexivity.
Defined.

Lemma pair_eq (a b c d : Z) : (a, b) = (c, d) <-> a = c /\ b = d.
Proof. split; [by intros [= -> ->]|by intros [-> ->]]. Qed.

(** X3.  A King is offered exactly the squares of the board next to its
    own, in the eight directions, that are empty or hold an enemy. *)
Theorem King_moves_are_the_free_neighbours (c : Color) (board : Board)
    (sr sc : Z) :
  wf_board board ->
  exists ms,
    King_get_possible_moves c board sr sc = Ok ms /\
    forall q, q ∈ ms <->
      Z.max (Z.abs (q.1 - sr)) (Z.abs (q.2 - sc)) = 1 /\
      on_board q /\ landing c board q.
Proof.
  intros Hwf. unfold King_get_possible_moves.
  destruct (scan_spec c board
    [ (sr - 1, sc - 1); (sr - 1, sc); (sr - 1, sc + 1); (sr, sc - 1);
      (sr, sc + 1); (sr + 1, sc - 1); (sr + 1, sc); (sr + 1, sc + 1) ] Hwf)
    as (ms & Hrun & Hms).
  exists ms. split; [exact Hrun|]. intros [r k]. rewrite Hms.
  rewrite !elem_of_cons, elem_of_nil, !pair_eq. simpl.
  split; intros [H ?]; (split; [lia|done]).
Qed.

Lemma King_moves_are_the_free_neighbours_witness :
  exists ms,
    King_get_possible_moves White initial_board 7 4 = Ok ms /\
    forall q, q ∈ ms <->
      Z.max (Z.abs (q.1 - 7)) (Z.abs (q.2 - 4)) = 1 /\
      on_board q /\ landing White initial_board q.
Proof.
  apply (King_moves_are_the_free_neighbours White initial_board 7 4).
  split; [reflexivity|]. repeat constructor.
Defined.

(** X4.  A Knight is offered exactly the squares of the board one row and
    two columns away, or two rows and one column, that are empty or hold an
    enemy. *)
Theorem Knight_moves_are_the_free_leaps (c : Color) (board : Board)
    (sr sc : Z) :
  wf_board board ->
  exists ms,
    Knight_get_possible_moves c board sr sc = Ok ms /\
    forall q, q ∈ ms <->
      (Z.abs (q.1 - sr) = 1 /\ Z.abs (q.2 - sc) = 2
       \/ Z.abs (q.1 - sr) = 2 /\ Z.abs (q.2 - sc) = 1) /\
      on_board q /\ landing c board q.
Proof.
  intros Hwf. unfold Knight_get_possible_moves.
  destruct (scan_spec c board
    [ (sr - 2, sc - 1); (sr - 2, sc + 1); (sr - 1, sc - 2); (sr - 1, sc + 2);
      (sr + 1, sc - 2); (sr + 1, sc + 2); (sr + 2, sc - 1); (sr + 2, sc + 1) ]
    Hwf) as (ms & Hrun & Hms).
  exists ms. split; [exact Hrun|]. intros [r k]. rewrite Hms.
  rewrite !elem_of_cons, elem_of_nil, !pair_eq. simpl.
  split; intros [H ?]; (split; [lia|done]).
Qed.

Lemma Knight_moves_are_the_free_leaps_witness :
  exists ms,
    Knight_get_possible_moves White initial_board 7 1 = Ok ms /\
    forall q, q ∈ ms <->
      (Z.abs (q.1 - 7) = 1 /\ Z.abs (q.2 - 1) = 2
       \/ Z.abs (q.1 - 7) = 2 /\ Z.abs (q.2 - 1) = 1) /\
      on_board q /\ landing White initial_board q.
Proof.
  apply (Knight_moves_are_the_free_leaps White initial_board 7 1).
  split; [reflexivity|]. repeat constructor.
Defined.

(** X5.  A Spearman is offered exactly the squares of the board in the row
    ahead, in its own column or a neighbouring one, that are empty or hold
    an enemy. *)
Theorem Spearman_moves_are_the_free_squares_ahead (c : Color) (board : Board)
    (sr sc : Z) :
  wf_board board ->
  exists ms,
    Spearman_get_possible_moves c board sr sc = Ok ms /\
    forall q, q ∈ ms <->
      q.1 = sr + direction c /\ Z.abs (q.2 - sc) <= 1 /\
      on_board q /\ landing c board q.
Proof.
  intros Hwf. unfold Spearman_get_possible_moves.
  destruct (scan_spec c board
    [ (sr + direction c, sc - 1); (sr + direction c, sc);
      (sr + direction c, sc + 1) ] Hwf) as (ms & Hrun & Hms).
  exists ms. split; [exact Hrun|]. intros [r k]. rewrite Hms.
  rewrite !elem_of_cons, elem_of_nil, !pair_eq. simpl.
  split.
  - intros [H ?]. split; [lia|]. split; [lia|done].
  - intros (H1 & H2 & ?). split; [lia|done].
Qed.

Lemma Spearman_moves_are_the_free_squares_ahead_witness :
  exists ms,
    Spearman_get_possible_moves Black initial_new_board 1 0 = Ok ms /\
    forall q, q ∈ ms <->
      q.1 = 1 + direction Black /\ Z.abs (q.2 - 0) <= 1 /\
      on_board q /\ landing Black initial_new_board q.
Proof.
  apply (Spearman_moves_are_the_free_squares_ahead Black initial_new_board 1 0).
  split; [reflexivity|]. repeat constructor.
Defined.



Lemma pawn_move_landing c (board : Board) sr sc q :
  pawn_move c board sr sc q -> on_board q /\ landing c board q.
Proof.
  unfold pawn_move, empty_at, enemy_at, landing.
  intros [(-> & Hon & He)|[(-> & _ & _ & Hon & He)|(_ & Hon & p & Hp & Hne)]];
    (split; [done|]); [by left|by left|right; by exists p].
Qed.

Lemma scan_landing c (board : Board) cands :
  wf_board board ->
  exists ms, scan c board cands = Ok ms /\
             forall q, q ∈ ms -> on_board q /\ landing c board q.
Proof.
  intros Hwf. destruct (scan_spec c board cands Hwf) as (ms & Hrun & Hms).
  exists ms. split; [done|]. by intros q (_ & Hon & Hl)%Hms.
Qed.

Lemma fresh_moves_landing name c (board : Board) sr sc :
  wf_board board ->
  exists ms, fresh_moves name c board sr sc = Ok ms /\
             forall q, q ∈ ms -> on_board q /\ landing c board q.
Proof.
  intros Hwf. destruct name; cbn [fresh_moves].
  - destruct (Pawn_spec c board sr sc Hwf) as (ms & Hrun & Hms).
    exists ms. split; [done|]. intros q Hq%Hms. by eapply pawn_move_landing.
  - destruct (Rook_spec c board sr sc Hwf) as (ms & Hrun & Hms).
    exists ms. split; [done|].
    by intros q (y & x & _ & k & _ & _ & Hon & _ & Hl)%Hms.
  - by apply scan_landing.
  - destruct (Bishop_spec c board sr sc Hwf) as (ms & Hrun & Hms).
    exists ms. split; [done|].
    by intros q (y & x & _ & k & _ & _ & Hon & _ & Hl)%Hms.
  - destruct (Queen_spec c board sr sc Hwf) as (ms & Hrun & Hms).
    exists ms. split; [done|].
    by intros q (y & x & _ & k & _ & _ & Hon & _ & Hl)%Hms.
  - by apply scan_landing.
  - exists []. split; [done|]. by intros q ?%elem_of_nil.
  - by apply scan_landing.
  - by apply scan_landing.
Qed.

(** X7.  For every piece but a Mage, a move is valid exactly when its
    destination is among the offered ones, and every offered destination
    is on the board and is empty or holds an enemy: the two guards of
    [is_valid_move] refuse nothing that [get_possible_moves] offers. *)
Theorem valid_move_is_offered_move (f : Figure) (board : Board)
    (sr sc er ec : Z) :
  wf_board board ->
  type_name f <> Name.Mage ->
  exists ms,
    get_possible_moves f board sr sc = Ok ms /\
    (forall q, q ∈ ms -> on_board q /\ landing (color f) board q) /\
    is_valid_move f board sr sc er ec = Ok (mem (er, ec) ms).
Proof.
  intros Hwf Hmage.
  destruct (chess_is_valid_move_spec f board sr sc er ec Hwf)
    as (ms & Hms & ->).
  exists ms. split; [done|].
  assert (forall q, q ∈ ms -> on_board q /\ landing (color f) board q) as Hland.
  { rewrite get_possible_moves_fresh in Hms.
    destruct (fresh_moves_landing (moves_as f) (color f) board sr sc Hwf)
      as (ms' & Hms' & Hl).
    rewrite Hms in Hms'. by injection Hms' as <-. }
  split; [done|]. f_equal.
  rewrite (bool_decide_eq_false_2 _ Hmage), orb_false_r.
  destruct (mem (er, ec) ms) eqn:Hmem; [|by rewrite andb_false_r].
  apply mem_true, Hland in Hmem as [Hon Hl].
  unfold on_board in Hon. simpl in Hon. rewrite Hon. simpl.
  unfold held_by. destruct Hl as [Hl|(p & Hl & Hne)]; simpl in Hl; rewrite Hl;
    [done|].
  by rewrite (proj2 (color_eqb_false _ _) Hne).
Qed.

Lemma valid_move_is_offered_move_witness :
  exists ms,
    get_possible_moves (Knight White) initial_board 7 1 = Ok ms /\
    (forall q, q ∈ ms -> on_board q /\ landing White initial_board q) /\
    is_valid_move (Knight White) initial_board 7 1 5 2 = Ok (mem (5, 2) ms).
Proof.
  apply (valid_move_is_offered_move (Knight White) initial_board 7 1 5 2).
  - split; [reflexivity|]. repeat constructor.
  - discriminate.
Defined.

(** X8.  A Demon whose [power] is ["Mage"], as after it has taken a Mage,
    is offered no move, and every move asked of it is refused and leaves
    the board as it is: [Mage] inherits the generator of [Figure], which
    returns nothing, and the Demon is not itself a Mage. *)
Theorem Demon_that_took_a_Mage_cannot_move (c : Color) (board : Board)
    (sr sc er ec : Z) :
  wf_board board ->
  cell board (norm sr) (norm sc) = Some (Demon c Name.Mage) ->
  -8 <= sr < 8 -> -8 <= sc < 8 ->
  get_possible_moves (Demon c Name.Mage) board sr sc = Ok [] /\
  move_figure board sr sc er ec = (Ok Rejected, board).
Proof.
  intros Hwf Hfig Hsr Hsc. split; [done|].
  unfold move_figure, reading. rewrite get_figure_index, Hfig by done.
  destruct (chess_is_valid_move_spec (Demon c Name.Mage) board sr sc er ec Hwf)
    as (ms & Hms & ->).
  injection Hms as <-. cbn. by rewrite !andb_false_r.
Qed.

Lemma Demon_that_took_a_Mage_cannot_move_witness :
  get_possible_moves (Demon White Name.Mage)
    (upd initial_new_board 4 6 (Some (Demon White Name.Mage))) 4 6 = Ok [] /\
  move_figure (upd initial_new_board 4 6 (Some (Demon White Name.Mage)))
    4 6 3 6
  = (Ok Rejected, upd initial_new_board 4 6 (Some (Demon White Name.Mage))).
Proof.
  apply (Demon_that_took_a_Mage_cannot_move White
           (upd initial_new_board 4 6 (Some (Demon White Name.Mage)))
           4 6 3 6).
  - split; [reflexivity|]. repeat constructor.
  - reflexivity.
  - lia.
  - lia.
Defined.
End ChessOffers.

(** * Counting the pieces *)

Section CountingFacts.
Context {A : Type}.

Lemma sum_list_with_insert {B} (f : B -> nat) (l : list B) i x y :
  l !! i = Some x ->
  (sum_list_with f (<[i := y]> l) + f x = sum_list_with f l + f y)%nat.
Proof.
  intros Hi. rewrite insert_take_drop by (by eapply lookup_lt_Some).
  replace (sum_list_with f l)
    with (sum_list_with f (take i l ++ x :: drop (S i) l))
    by (by rewrite take_drop_middle).
  rewrite !sum_list_with_app. simpl. lia.
Qed.

Lemma census_upd (board : Grid A) r c v :
  wf_board board -> 0 <= r < 8 -> 0 <= c < 8 ->
  (census (upd board r c v) + occupied (cell board r c)
   = census board + occupied v)%nat.
Proof.
  intros Hwf Hr Hc. unfold census, upd, cell.
  destruct (wf_row board (Z.to_nat r) Hwf) as (row & Hrow & Hlen); [lia|].
  rewrite Hrow.
  destruct (lookup_lt_is_Some_2 row (Z.to_nat c)) as [x Hx]; [lia|].
  rewrite Hx.
  pose proof (sum_list_with_insert (sum_list_with occupied) board (Z.to_nat r)
                row (<[Z.to_nat c := v]> row) Hrow) as Hb.
  pose proof (sum_list_with_insert occupied row (Z.to_nat c) x v Hx) as Hr'.
  lia.
Qed.
End CountingFacts.

(** * Python indexing of the board *)

Section Indexing.
Context {A : Type}.

(** X9.  [get_figure] on an 8 by 8 board: a row and a column from -8 to 7
    give a square, a negative one counting from the far edge as Python
    lists do; anything else raises [IndexError]. *)
Theorem get_figure_wraps_negative_indices (board : Grid A) (row col : Z) :
  wf_board board ->
  get_figure board row col =
    if (-8 <=? row) && (row <? 8) && (-8 <=? col) && (col <? 8)
    then Ok (cell board (norm row) (norm col))
    else Raise IndexError.
Proof.
  intros Hwf. destruct (_ && _) eqn:Hin.
  - rewrite !andb_true_iff in Hin. apply get_figure_index; [done|lia..].
  - apply get_figure_raise; [done|]. intros [? ?].
    rewrite !andb_false_iff in Hin. lia.
Qed.
End Indexing.

Section IndexingExample.
Import Chess.

Lemma get_figure_wraps_negative_indices_witness :
  get_figure initial_board (-1) (-8) = Ok (Some (Rook White)) /\
  get_figure initial_board 8 0 = Raise IndexError.
Proof.
  split.
  - apply (get_figure_wraps_negative_indices initial_board (-1) (-8)).
    split; [reflexivity|]. repeat constructor.
  - apply (get_figure_wraps_negative_indices initial_board 8 0).
    split; [reflexivity|]. repeat constructor.
Defined.
End IndexingExample.

(** * Chess: what a move does to the board *)

Section ChessCensus.
Import Chess.

(** X10.  An accepted chess move starts from a piece, leaves an 8 by 8
    board, and removes from it exactly the piece it reports: the board
    has one piece less when a piece is reported and as many as before when
    none is; the reported piece is an enemy of the mover. *)
Theorem chess_move_takes_only_the_enemy_on_the_destination (board : Board)
    (sr sc er ec : Z) (captured : option Figure) (board' : Board) :
  wf_board board ->
  move_figure board sr sc er ec = (Ok (Captured captured), board') ->
  exists mover,
    cell board (norm sr) (norm sc) = Some mover /\
    wf_board board' /\
    (census board' + occupied captured = census board)%nat /\
    forall p, captured = Some p -> color p <> color mover.
Proof.
  intros Hwf Hmove.
  destruct (chess_move_figure_cases _ _ _ _ _ _ _ Hwf Hmove)
    as [[_ [?|[e ?]]]|(mover & [Hsr Hsc] & Hfig & Hvalid & Hr & -> & Hwf' & _)];
    [done..|].
  injection Hr as ->. exists mover. split; [done|]. split; [done|].
  destruct (chess_is_valid_move_spec mover board sr sc er ec Hwf)
    as (ms & _ & Hv).
  rewrite Hvalid in Hv. injection Hv as Hv. symmetry in Hv.
  apply andb_true_iff in Hv as [[Hpos Hheld]%andb_true_iff _].
  apply check_pos_true in Hpos as [Her Hec].
  apply negb_true_iff in Hheld. unfold held_by in Hheld.
  pose proof (norm_range sr Hsr) as Hnsr. pose proof (norm_range sc Hsc) as Hnsc.
  assert ((norm sr, norm sc) <> (er, ec)) as Hne.
  { intros [= Hr Hc]. rewrite <- Hr, <- Hc, Hfig in Hheld.
    by apply color_eqb_false in Hheld. }
  split.
  - pose proof (census_upd board er ec (Some mover) Hwf Her Hec) as H1.
    pose proof (census_upd (upd board er ec (Some mover)) (norm sr) (norm sc)
                  None (wf_upd _ _ _ _ Hwf) Hnsr Hnsc) as H2.
    rewrite cell_upd_other, Hfig in H2 by (lia || congruence).
    simpl in H1, H2. lia.
  - intros p Hp. rewrite Hp in Hheld. by apply color_eqb_false in Hheld.
Qed.

Lemma chess_move_takes_only_the_enemy_on_the_destination_witness :
  exists mover,
    cell (board (game_after classic queen_raid)) (norm 4) (norm 7)
    = Some mover /\
    wf_board (move_figure (board (game_after classic queen_raid)) 4 7 7 4).2 /\
    (census (move_figure (board (game_after classic queen_raid)) 4 7 7 4).2
     + occupied (Some (King White))
     = census (board (game_after classic queen_raid)))%nat /\
    forall p, Some (King White) = Some p -> color p <> color mover.
Proof.
  apply (chess_move_takes_only_the_enemy_on_the_destination
           (board (game_after classic queen_raid)) 4 7 7 4
           (Some (King White))
           (move_figure (board (game_after classic queen_raid)) 4 7 7 4).2).
  - split; [reflexivity|]. repeat constructor.
  - reflexivity.
Defined.
End ChessCensus.

(** * Chess: the game loop *)

Section ChessSafety.
Import Chess.

Lemma chess_move_figure_returns (board : Board) sr sc er ec :
  wf_board board -> -8 <= sr < 8 -> -8 <= sc < 8 ->
  exists mr, (move_figure board sr sc er ec).1 = Ok mr.
Proof.
  intros Hwf Hsr Hsc. unfold move_figure, reading.
  rewrite get_figure_index by done.
  destruct (cell board (norm sr) (norm sc)) as [figure|]; [|by eexists].
  destruct (chess_is_valid_move_spec figure board sr sc er ec Hwf) as (ms & _ & ->).
  destruct (check_pos er ec) eqn:Hpos; [|by eexists]. simpl.
  destruct (negb _ && _); [|by eexists].
  rewrite (get_figure_ok _ _ _ Hwf Hpos). unfold writing.
  apply check_pos_true in Hpos as [Her Hec].
  rewrite set_figure_index by (done || lia).
  rewrite set_figure_index by (auto with grid). by eexists.
Qed.

Lemma even_pred n : Z.even (n - 1) = negb (Z.even n).
Proof.
  replace (n - 1) with (Z.pred n) by lia.
  by rewrite Z.even_pred, <- Z.negb_even.
Qed.

Lemma even_succ n : Z.even (n + 1) = negb (Z.even n).
Proof.
  replace (n + 1) with (Z.succ n) by lia.
  by rewrite Z.even_succ, <- Z.negb_even.
Qed.

Lemma to_move_step g g' :
  move_count g' = move_count g + 1 \/ move_count g' = move_count g - 1 ->
  to_move g' = other (to_move g).
Proof.
  unfold to_move. intros [-> | ->]; rewrite ?even_succ, ?even_pred;
    by destruct (Z.even (move_count g)).
Qed.

Lemma play_iter_sound g inp :
  sound g -> current_turn g = to_move g ->
  exists g' stop,
    play_iter g inp = Ok (g', stop) /\ sound g' /\
    current_turn g' = (if stop then other (to_move g') else to_move g').
Proof.
  intros (Hwf & Hlog & Hcount) Hturn. destruct inp as [|sr sc er ec].
  - (* undo *)
    cbn [play_iter]. destruct (last (moves g)) as [m|] eqn:Hlast.
    + pose proof Hlast as [l' Hl']%last_Some.
      assert (log_ok m /\ Forall log_ok l') as [[Hs He] Hl''].
      { rewrite Hl' in Hlog. apply Forall_app in Hlog as [? Hm].
        rewrite Forall_singleton in Hm. by split. }
      rewrite (undo_move_spec g m) by done. cbn [bind].
      eexists _, false. split; [done|]. split.
      * split; [cbn; auto with grid|]. cbn [moves move_count].
        rewrite Hl', removelast_last. split; [done|].
        rewrite Hcount, Hl', length_app. simpl. lia.
      * cbn [current_turn]. rewrite Hturn. symmetry. apply to_move_step.
        right. done.
    + unfold undo_move. rewrite Hlast. cbn [bind].
      exists g, false. done.
  - cbn [play_iter]. unfold choose_figure.
    destruct (check_pos sr sc) eqn:Hpos; cbn [negb bind];
      [|exists g, false; done].
    rewrite (get_figure_ok _ _ _ Hwf Hpos). cbn [bind].
    destruct (cell (board g) sr sc) as [figure|] eqn:Hfig; cbn [negb bind];
      [|exists g, false; done].
    destruct (color_eqb (color figure) (current_turn g)) eqn:Hcol;
      cbn [negb]; [|exists g, false; done].
    apply color_eqb_true in Hcol.
    destruct (get_possible_moves_on_board figure (board g) sr sc Hwf)
      as (ms & Hms & _).
    rewrite Hms.
    pose proof Hpos as [Hsr Hsc]%check_pos_true.
    destruct (chess_move_figure_returns (board g) sr sc er ec Hwf)
      as (mr & Hmr); [lia..|].
    destruct (move_figure (board g) sr sc er ec) as [r board'] eqn:Hmove.
    simpl in Hmr. subst r.
    destruct mr as [|captured].
    + (* refused: nothing has changed *)
      destruct (chess_move_figure_cases _ _ _ _ _ _ _ Hwf Hmove)
        as [[-> _]|(? & _ & _ & _ & ? & _)]; [|done].
      exists g, false. split; [|done].
      destruct (bool_decide _); cbn [bind]; by destruct g.
    + destruct (after_move_board g sr sc er ec figure captured board'
                  Hwf Hpos Hfig Hmove) as (Hwf1 & Hend & _).
      exists (after_move g board' figure sr sc er ec captured),
             (is_King captured).
      split.
      { destruct (bool_decide _); cbn [bind]; unfold after_move;
          by destruct (is_King captured). }
      split.
      * split; [done|]. cbn [after_move moves move_count]. split.
        -- apply Forall_app. split; [done|]. by apply Forall_singleton.
        -- rewrite length_app. simpl. lia.
      * rewrite (to_move_step g (after_move g board' figure sr sc er ec captured))
          by (left; done).
        cbn [after_move current_turn]. rewrite Hturn.
        destruct (is_King captured); [|done].
        by destruct (to_move g).
Qed.

Lemma sound_init mode : sound (init mode) /\ current_turn (init mode) = to_move (init mode).
Proof.
  split; [|done]. split; [|by split].
  destruct mode; [apply wf_initial_board|apply wf_initial_new_board].
Qed.

Lemma play_sound inputs :
  forall g, sound g -> current_turn g = to_move g ->
  exists g' st,
    play g inputs = Ok (g', st) /\ sound g' /\
    match st with
    | AwaitingInput => current_turn g' = to_move g'
    | Won w => w = current_turn g' /\ current_turn g' = other (to_move g')
    end.
Proof.
  induction inputs as [|inp rest IH]; intros g Hsound Hturn; cbn [play].
  - by exists g, AwaitingInput.
  - destruct (play_iter_sound g inp Hsound Hturn) as (g1 & stop & -> & Hs1 & Ht1).
    cbn [bind]. destruct stop.
    + by exists g1, (Won (current_turn g1)).
    + by apply IH.
Qed.

(** X11.  From the start of either variant and for every sequence of
    inputs, the loop of [play] raises no error (the empty log stops an
    undo, and every coordinate it indexes the board with was checked); the
    board stays 8 by 8; [move_count] is 1 plus half the number of logged
    moves; and the colour to move is the one the parity of the count
    tells, until a King falls and the mover is announced the winner. *)
Theorem chess_play_never_raises (mode : Mode) (inputs : list Input) :
  exists g st,
    play (init mode) inputs = Ok (g, st) /\
    wf_board (board g) /\
    move_count g = 2 + Z.of_nat (length (moves g)) /\
    match st with
    | AwaitingInput => current_turn g = to_move g
    | Won w => w = current_turn g /\ current_turn g = other (to_move g)
    end.
Proof.
  destruct (sound_init mode) as [Hs Ht].
  destruct (play_sound inputs (init mode) Hs Ht) as (g & st & Hrun & (? & _ & ?) & ?).
  by exists g, st.
Qed.
End ChessSafety.

(** * Chess: undoing a whole game *)

Section ChessRewind.
Import Chess.

Lemma wf_placement (board : Board) : wf_board board -> wf_board (placement board).
Proof.
  intros [Hlen Hrows]. unfold placement. split; [by rewrite length_fmap|].
  apply Forall_fmap. eapply Forall_impl; [done|].
  intros r Hr. simpl. by rewrite length_fmap.
Qed.

Lemma cell_placement (board : Board) r c :
  cell (placement board) r c = erase <$> cell board r c.
Proof.
  unfold cell, placement. rewrite list_lookup_fmap.
  destruct (board !! Z.to_nat r) as [row|]; [|done]. simpl.
  rewrite list_lookup_fmap. by destruct (row !! Z.to_nat c).
Qed.

Lemma placement_upd (board : Board) r c v :
  placement (upd board r c v) = upd (placement board) r c (erase <$> v).
Proof.
  unfold upd, placement. rewrite list_lookup_fmap.
  destruct (board !! Z.to_nat r) as [row|]; [|done]. simpl.
  by rewrite !list_fmap_insert.
Qed.

Lemma placement_undo1 (board : Board) sr sc er ec captured :
  placement (undo1 board sr sc er ec captured)
  = undo1 (placement board) sr sc er ec (erase <$> captured).
Proof. unfold undo1. by rewrite !placement_upd, cell_placement. Qed.

Lemma placement_unwind rlog : forall board : Board,
  placement (unwind board rlog) = unwind (placement board) (erase_move <$> rlog).
Proof.
  induction rlog as [|m rlog IH]; intros board; [done|].
  cbn [unwind fmap list_fmap]. rewrite IH, placement_undo1. done.
Qed.

Lemma erase_empowered figure captured :
  erase (empowered figure captured) = erase figure.
Proof. by destruct figure, captured. Qed.

(** Undoing an accepted move gives back the placement before it. *)
Lemma undo1_after_move g sr sc er ec figure captured board' :
  wf_board (board g) -> check_pos sr sc = true ->
  cell (board g) sr sc = Some figure ->
  move_figure (board g) sr sc er ec = (Ok (Captured captured), board') ->
  placement (undo1 (board (after_move g board' figure sr sc er ec captured))
                   sr sc er ec captured)
  = placement (board g).
Proof.
  intros Hwf Hpos Hfig Hmove.
  destruct (after_move_board g sr sc er ec figure captured board'
              Hwf Hpos Hfig Hmove)
    as (Hwf1 & Hend & Hne & Hcap & Hland & Hstart & Hrest).
  set (b1 := board (after_move g board' figure sr sc er ec captured)) in *.
  pose proof Hpos as [? ?]%check_pos_true.
  pose proof Hend as [? ?]%check_pos_true.
  apply board_ext; [apply wf_placement; unfold undo1; auto with grid
                   |by apply wf_placement|].
  intros r c Hr Hc. rewrite !cell_placement. unfold undo1.
  rewrite !cell_upd by (auto with grid || lia).
  case_bool_decide as Heq1; [injection Heq1 as -> ->; by rewrite Hcap|].
  case_bool_decide as Heq2.
  - injection Heq2 as -> ->. rewrite Hland, Hfig. simpl.
    by rewrite erase_empowered.
  - by rewrite Hrest.
Qed.

Lemma play_iter_rewinds start g inp g' stop :
  sound g -> rewinds_to start g ->
  play_iter g inp = Ok (g', stop) -> rewinds_to start g'.
Proof.
  intros (Hwf & Hlog & Hcount) Hrew. unfold rewinds_to in *.
  destruct inp as [|sr sc er ec].
  - cbn [play_iter]. destruct (last (moves g)) as [m|] eqn:Hlast.
    + pose proof Hlast as [l' Hl']%last_Some.
      assert (log_ok m) as [Hs He].
      { rewrite Hl' in Hlog. apply Forall_app in Hlog as [? Hm].
        by rewrite Forall_singleton in Hm. }
      rewrite (undo_move_spec g m) by done. cbn [bind]. intros [= <- <-].
      cbn [board moves]. rewrite Hl', removelast_last.
      rewrite Hl', reverse_snoc in Hrew. exact Hrew.
    + unfold undo_move. rewrite Hlast. cbn [bind]. by intros [= <- <-].
  - cbn [play_iter]. unfold choose_figure.
    destruct (check_pos sr sc) eqn:Hpos; cbn [negb bind];
      [|by intros [= <- <-]].
    rewrite (get_figure_ok _ _ _ Hwf Hpos). cbn [bind].
    destruct (cell (board g) sr sc) as [figure|] eqn:Hfig; cbn [negb bind];
      [|by intros [= <- <-]].
    destruct (color_eqb (color figure) (current_turn g)) eqn:Hcol;
      cbn [negb]; [|by intros [= <- <-]].
    destruct (get_possible_moves_on_board figure (board g) sr sc Hwf)
      as (ms & Hms & _).
    rewrite Hms.
    destruct (move_figure (board g) sr sc er ec) as [r board'] eqn:Hmove.
    destruct r as [[|captured]|e].
    + destruct (chess_move_figure_cases _ _ _ _ _ _ _ Hwf Hmove)
        as [[-> _]|(? & _ & _ & _ & ? & _)]; [|done].
      destruct (bool_decide _); cbn [bind]; by intros [= <- <-].
    + intros Hiter.
      assert (g' = after_move g board' figure sr sc er ec captured) as ->.
      { revert Hiter. destruct (bool_decide _); cbn [bind]; unfold after_move;
          destruct (is_King captured); by intros [= <- <-]. }
      clear Hiter. cbn [after_move moves]. rewrite reverse_snoc. cbn [unwind].
      cbn [start_row start_col end_row end_col captured_figure].
      change (transfer_power board' figure er ec captured)
        with (board (after_move g board' figure sr sc er ec captured)).
      rewrite placement_unwind, (undo1_after_move g) by done.
      rewrite <- placement_unwind. exact Hrew.
    + destruct (bool_decide _); cbn [bind]; by intros [=].
Qed.

Lemma play_rewinds start inputs :
  forall g g' st, sound g -> current_turn g = to_move g ->
    rewinds_to start g ->
    play g inputs = Ok (g', st) -> rewinds_to start g'.
Proof.
  induction inputs as [|inp rest IH]; intros g g' st Hs Ht Hrew; cbn [play].
  - by intros [= <- <-].
  - destruct (play_iter_sound g inp Hs Ht) as (g1 & stop & Hiter & Hs1 & Ht1).
    rewrite Hiter. cbn [bind].
    pose proof (play_iter_rewinds start g inp g1 stop Hs Hrew Hiter) as Hrew1.
    destruct stop; [by intros [= <- <-]|]. by apply IH.
Qed.

(** Undoing as many times as the log is long. *)
Lemma undo_all n : forall g,
  sound g -> length (moves g) = n ->
  exists g0,
    play g (replicate n Undo) = Ok (g0, AwaitingInput) /\
    board g0 = unwind (board g) (reverse (moves g)) /\
    moves g0 = [] /\ move_count g0 = 2 /\
    (current_turn g = to_move g -> current_turn g0 = White).
Proof.
  induction n as [|n IH]; intros g (Hwf & Hlog & Hcount) Hlen.
  - apply nil_length_inv in Hlen. exists g. rewrite Hlen in *.
    split; [done|]. split; [done|]. split; [done|]. split; [simpl in Hcount; lia|].
    unfold to_move. rewrite Hcount. simpl. done.
  - destruct (last (moves g)) as [m|] eqn:Hlast;
      [|apply last_None in Hlast; rewrite Hlast in Hlen; done].
    pose proof Hlast as [l' Hl']%last_Some.
    assert (log_ok m /\ Forall log_ok l') as [[Hs He] Hl''].
    { rewrite Hl' in Hlog. apply Forall_app in Hlog as [? Hm].
      rewrite Forall_singleton in Hm. by split. }
    cbn [replicate play play_iter].
    rewrite (undo_move_spec g m) by done. cbn [bind].
    set (g1 := {| board := _; current_turn := _; move_count := _; moves := _ |}).
    destruct (IH g1) as (g0 & Hrun & Hb & Hm0 & Hc0 & Ht0).
    { split; [cbn; auto with grid|]. cbn [g1 moves move_count].
      rewrite Hl', removelast_last. split; [done|].
      rewrite Hcount, Hl', length_app. simpl. lia. }
    { cbn [g1 moves]. rewrite Hl', removelast_last.
      rewrite Hl', length_app in Hlen. simpl in Hlen. lia. }
    exists g0. split; [done|]. split.
    { rewrite Hb. cbn [g1 board moves]. rewrite Hl', removelast_last.
      rewrite reverse_snoc. done. }
    split; [done|]. split; [done|]. intros Ht. apply Ht0.
    cbn [g1 current_turn]. rewrite Ht. symmetry. apply to_move_step. by right.
Qed.

(** X12.  After any sequence of inputs that has not ended the game, one
    undo for each logged move is accepted and gives back the initial
    position of every piece, White to move, the count at 1 and an empty
    log.  (The [power] of a Demon that has taken something is what may
    differ.) *)
Theorem undoing_every_move_restores_the_start (mode : Mode)
    (inputs : list Input) (g : Game) :
  play (init mode) inputs = Ok (g, AwaitingInput) ->
  exists g0,
    play g (replicate (length (moves g)) Undo) = Ok (g0, AwaitingInput) /\
    placement (board g0) = placement (board (init mode)) /\
    current_turn g0 = White /\ move_count g0 = 2 /\ moves g0 = [].
Proof.
  intros Hrun. destruct (sound_init mode) as [Hs Ht].
  destruct (play_sound inputs (init mode) Hs Ht) as (g' & st & Hrun' & Hs' & Ht').
  rewrite Hrun in Hrun'. injection Hrun' as <- <-.
  pose proof (play_rewinds (board (init mode)) inputs (init mode) g AwaitingInput
                Hs Ht eq_refl Hrun) as Hrew.
  destruct (undo_all (length (moves g)) g Hs' eq_refl)
    as (g0 & Hundo & Hb & Hm & Hc & Hturn).
  exists g0. split; [done|]. split; [by rewrite Hb|]. auto.
Qed.

Lemma undoing_every_move_restores_the_start_witness :
  exists g0,
    play (game_after special demon_walk)
      (replicate (length (moves (game_after special demon_walk))) Undo)
    = Ok (g0, AwaitingInput) /\
    placement (board g0) = placement (board (init special)) /\
    current_turn g0 = White /\ move_count g0 = 2 /\ moves g0 = [].
Proof.
  apply (undoing_every_move_restores_the_start special demon_walk
           (game_after special demon_walk)).
  reflexivity.
Defined.
End ChessRewind.

(** * Checkers: what each piece is offered *)

Section CheckersExact.
Import Checkers.

Lemma Checker_spec (c : Color) (board : Board) (sr sc : Z)
    (is_killer : bool) :
  wf_board board ->
  exists ms,
    Checker_get_possible_moves c board sr sc is_killer = Ok ms /\
    forall q, q ∈ ms <-> checker_move c board sr sc is_killer q.
Proof.
  intros Hwf. unfold Checker_get_possible_moves, checker_move.
  destruct (Checker_captures_spec c board sr sc Hwf) as (caps & -> & Hcaps).
  cbn [bind]. fold (forward c).
  destruct is_killer; cbn [orb negb].
  { exists caps. split; [done|]. intros q. rewrite Hcaps.
    split; [by left|]. by intros [?|[? _]]. }
  destruct caps as [|q0 caps]; cbn [negb].
  - destruct (for_each_collect [(forward c, 1); (forward c, -1)]
      (fun (moves : list (Z * Z)) '(dr, dc) =>
         if check_pos (sr + dr) (sc + dc)
         then Ok (moves ++ [(sr + dr, sc + dc)]) else Ok moves)
      (fun d q => q = (sr + d.1, sc + d.2) /\ on_board q)) with ([] : list pos)
      as (ms & Hrun & Hms).
    { intros acc [dr dc] _. simpl.
      destruct (check_pos (sr + dr) (sc + dc)) eqn:Hpos.
      - exists [(sr + dr, sc + dc)]. split; [done|]. intros q.
        rewrite list_elem_of_singleton. split; [by intros ->|tauto].
      - adds_nothing. intros q. split; [by intros ?%elem_of_nil|].
        intros [-> Hon]. unfold on_board in Hon. simpl in Hon. congruence. }
    exists ms. split; [exact Hrun|]. intros [r k]. rewrite Hms. split.
    + intros ([dr dc] & Hd & [= -> ->] & Hon). right. split; [done|].
      split; [by intros q' ?%Hcaps%elem_of_nil|]. simpl.
      revert Hd. rewrite !elem_of_cons, elem_of_nil.
      intros [[= -> ->]|[[= -> ->]|[]]]; (split; [done|]); split; (done || lia || auto).
    + intros [Hj|(_ & _ & Hr & Hk & Hon)]; [by apply Hcaps, elem_of_nil in Hj|].
      simpl in Hr, Hk. subst r. destruct Hk as [-> | ->].
      * exists (forward c, 1). split; [left|]. split; [done|done].
      * exists (forward c, -1). split; [right; left|]. split; [|done].
        simpl. f_equal.
  - exists (q0 :: caps). split; [done|]. intros q. rewrite Hcaps. split; [by left|].
    intros [?|(_ & Hno & _)]; [done|].
    exfalso. apply (Hno q0), Hcaps. left.
Qed.

Lemma king_slide_spec c (board : Board) sr sc dr dc :
  wf_board board -> unit_dir dr dc ->
  forall fuel n acc,
    (on_board (along sr sc dr dc n) ->
     bound dr dc (sr + n * dr) (sc + n * dc) <= Z.of_nat fuel) ->
    exists ms,
      king_slide fuel c board (sr + n * dr) (sc + n * dc) dr dc acc
        = Ok (acc ++ ms) /\
      forall q, q ∈ ms <->
        exists k, n <= k /\ clear_path board sr sc dr dc n k /\
          (q = along sr sc dr dc k /\ on_board q /\ cell board q.1 q.2 = None
           \/ on_board (along sr sc dr dc k) /\
              (exists p, cell board (sr + k * dr) (sc + k * dc) = Some p /\
                         color p <> c) /\
              q = along sr sc dr dc (k + 1) /\ on_board q /\
              cell board q.1 q.2 = None).
Proof.
  intros Hwf Hdir.
  (* beyond a square that is off the board, or occupied, nothing is met *)
  assert (forall n k, n <= k -> clear_path board sr sc dr dc n k ->
            (check_pos (sr + n * dr) (sc + n * dc) = false \/
             exists p, cell board (sr + n * dr) (sc + n * dc) = Some p) ->
            k = n) as Hstop.
  { intros n k Hk Hclear Hn. destruct (decide (k = n)) as [|Hne]; [done|].
    destruct (Hclear n) as [Hon He]; [lia|]. unfold on_board in Hon. simpl in Hon.
    destruct Hn as [?|[p ?]]; congruence. }
  induction fuel as [|fuel IH]; intros n acc Hfuel.
  - simpl. destruct (check_pos _ _) eqn:Hpos.
    + pose proof (bound_on_board dr dc _ _ Hpos). specialize (Hfuel Hpos). lia.
    + adds_nothing. intros q. split; [by intros ?%elem_of_nil|].
      intros (k & Hk & Hclear & Hq).
      assert (k = n) as -> by (apply Hstop; auto).
      destruct Hq as [(-> & Hon & _)|(Hon & _)];
        unfold on_board in Hon; simpl in Hon; congruence.
  - simpl. destruct (check_pos _ _) eqn:Hpos.
    + rewrite (get_figure_ok _ _ _ Hwf Hpos). cbn [bind].
      destruct (cell board _ _) as [p|] eqn:Hcell.
      * (* the first piece met *)
        assert (forall q,
          (exists k, n <= k /\ clear_path board sr sc dr dc n k /\
             (q = along sr sc dr dc k /\ on_board q /\ cell board q.1 q.2 = None
              \/ on_board (along sr sc dr dc k) /\
                 (exists p, cell board (sr + k * dr) (sc + k * dc) = Some p /\
                            color p <> c) /\
                 q = along sr sc dr dc (k + 1) /\ on_board q /\
                 cell board q.1 q.2 = None))
          <-> (color p <> c /\ q = along sr sc dr dc (n + 1) /\ on_board q /\
               cell board q.1 q.2 = None)) as Hhere.
        { intros q. split.
          - intros (k & Hk & Hclear & Hq).
            assert (k = n) as -> by (apply Hstop; eauto).
            destruct Hq as [(-> & _ & He)|(_ & (p' & Hp' & Hne) & Hq)].
            + simpl in He. congruence.
            + split; [congruence|done].
          - intros (Hne & Hq). exists n. split; [lia|].
            split; [intros j; lia|]. right. split; [done|]. split; [by exists p|done]. }
        destruct (negb _) eqn:Hcol.
        -- rewrite checkers_free_spec by done. cbn [bind].
           destruct (check_pos _ _ && _) eqn:Hland.
           ++ exists [(sr + n * dr + dr, sc + n * dc + dc)]. split; [done|].
              intros q. rewrite Hhere, list_elem_of_singleton.
              apply andb_true_iff in Hland as [Hon He%bool_decide_eq_true].
              apply negb_true_iff, color_eqb_false in Hcol.
              unfold along.
              replace (sr + (n + 1) * dr) with (sr + n * dr + dr) by lia.
              replace (sc + (n + 1) * dc) with (sc + n * dc + dc) by lia.
              split; [by intros ->|tauto].
           ++ adds_nothing. intros q. rewrite Hhere.
              split; [by intros ?%elem_of_nil|].
              intros (_ & -> & Hon & He). unfold on_board in Hon.
              simpl in Hon, He.
              replace (sr + (n + 1) * dr) with (sr + n * dr + dr) in * by lia.
              replace (sc + (n + 1) * dc) with (sc + n * dc + dc) in * by lia.
              apply andb_false_iff in Hland as [?|Hland%bool_decide_eq_false];
                congruence.
        -- adds_nothing. intros q. rewrite Hhere.
           split; [by intros ?%elem_of_nil|]. intros [Hne _].
           apply negb_false_iff, color_eqb_true in Hcol. done.
      * (* an empty square: it is kept and the loop goes on *)
        replace (sr + n * dr + dr) with (sr + (n + 1) * dr) by lia.
        replace (sc + n * dc + dc) with (sc + (n + 1) * dc) by lia.
        destruct (IH (n + 1) (acc ++ [(sr + n * dr, sc + n * dc)]))
          as (ms & -> & Hms).
        { intros _. specialize (Hfuel Hpos).
          replace (sr + (n + 1) * dr) with (sr + n * dr + dr) by lia.
          replace (sc + (n + 1) * dc) with (sc + n * dc + dc) by lia.
          rewrite bound_step by done. lia. }
        exists ((sr + n * dr, sc + n * dc) :: ms). split.
        { by rewrite <- app_assoc. }
        intros q. rewrite elem_of_cons, Hms. split.
        -- intros [-> |(k & Hk & Hclear & Hq)].
           ++ exists n. split; [lia|]. split; [intros j; lia|]. by left.
           ++ exists k. split; [lia|]. split; [|done]. intros j Hj.
              destruct (decide (j = n)) as [-> |Hne]; [done|].
              apply Hclear. lia.
        -- intros (k & Hk & Hclear & Hq).
           destruct (decide (k = n)) as [-> |Hne].
           ++ destruct Hq as [(-> & _)|(_ & (p' & Hp' & _) & _)];
                [by left|congruence].
           ++ right. exists k. split; [lia|]. split; [|done].
              intros j Hj. apply Hclear. lia.
    + adds_nothing. intros q. split; [by intros ?%elem_of_nil|].
      intros (k & Hk & Hclear & Hq).
      assert (k = n) as -> by (apply Hstop; auto).
      destruct Hq as [(-> & Hon & _)|(Hon & _)];
        unfold on_board in Hon; simpl in Hon; congruence.
Qed.

Lemma KingChecker_spec (c : Color) (board : Board) (sr sc : Z)
    (is_killer : bool) :
  wf_board board ->
  exists ms,
    KingChecker_get_possible_moves c board sr sc is_killer = Ok ms /\
    forall q, q ∈ ms <-> king_move c board sr sc q.
Proof.
  intros Hwf. unfold KingChecker_get_possible_moves, king_move.
  destruct (for_each_collect directions
    (fun (moves : list (Z * Z)) '(dr, dc) =>
       king_slide 8 c board (sr + dr) (sc + dc) dr dc moves)
    (fun d q => king_reach c board sr sc d.1 d.2 q)) with ([] : list pos)
    as (ms & Hrun & Hms).
  { intros acc [dr dc] Hd.
    destruct (king_slide_spec c board sr sc dr dc Hwf (directions_unit _ _ Hd)
                8 1 acc) as (here & Hhere & Hq).
    { intros Hon. apply bound_on_board. exact Hon. }
    replace (sr + 1 * dr) with (sr + dr) in Hhere by lia.
    replace (sc + 1 * dc) with (sc + dc) in Hhere by lia.
    exists here. split; [exact Hhere|]. exact Hq. }
  exists ms. split; [exact Hrun|]. intros q. rewrite Hms. split.
  - intros ([dr dc] & Hd & Hq). by exists dr, dc.
  - intros (dr & dc & Hd & Hq). by exists (dr, dc).
Qed.

(** X13.  A Checker is offered exactly: the squares two steps away on a
    diagonal, on the board and empty, behind an adjacent enemy; and, when
    there is no such square and the piece has not taken in this turn, the
    two squares diagonally ahead that are on the board, empty or not. *)
Theorem Checker_moves_exactly (c : Color) (board : Board) (sr sc : Z)
    (is_killer : bool) :
  wf_board board ->
  exists ms,
    get_possible_moves (Checker c) board sr sc is_killer = Ok ms /\
    forall q, q ∈ ms <-> checker_move c board sr sc is_killer q.
Proof.
  intros Hwf.
  destruct (Checker_spec c board sr sc is_killer Hwf) as (ms & Hrun & Hms).
  by exists ms.
Qed.

Lemma Checker_moves_exactly_witness :
  exists ms,
    get_possible_moves (Checker White) initial_board 5 0 false = Ok ms /\
    forall q, q ∈ ms <-> checker_move White initial_board 5 0 false q.
Proof.
  apply (Checker_moves_exactly White initial_board 5 0 false).
  split; [reflexivity|]. repeat constructor.
Defined.

(** X14.  A KingChecker is offered exactly, along each of the four
    diagonals: the empty squares before the first piece, and the square
    right behind that piece when the piece is an enemy and the square is
    on the board and empty.  Whether it has taken in this turn makes no
    difference. *)
Theorem KingChecker_moves_exactly (c : Color) (board : Board) (sr sc : Z)
    (is_killer : bool) :
  wf_board board ->
  exists ms,
    get_possible_moves (KingChecker c) board sr sc is_killer = Ok ms /\
    forall q, q ∈ ms <-> king_move c board sr sc q.
Proof.
  intros Hwf.
  destruct (KingChecker_spec c board sr sc is_killer Hwf) as (ms & Hrun & Hms).
  by exists ms.
Qed.

Lemma KingChecker_moves_exactly_witness :
  exists ms,
    get_possible_moves (KingChecker White) (board_after king_game) 0 1 true
    = Ok ms /\
    forall q, q ∈ ms <-> king_move White (board_after king_game) 0 1 q.
Proof.
  apply (KingChecker_moves_exactly White (board_after king_game) 0 1 true).
  split; [reflexivity|]. repeat constructor.
Defined.
End CheckersExact.

(** * Checkers: what a move does to the board *)

Section CheckersMoveFacts.
Import Checkers.

Lemma checker_move_diagonal c (board : Board) sr sc k q :
  checker_move c board sr sc k q -> cell board q.1 q.2 = None ->
  on_board q -> diagonal_move c board sr sc q.1 q.2.
Proof.
  intros [(dr & dc & [Hdr Hdc]%directions_diag & -> & Hmid & (p & Hp & Hne) & Hon & He)
         |(_ & _ & Hr & Hc & Hon)] Hempty Hon'.
  - exists dr, dc, 2. simpl. do 3 (split; [done || lia|]).
    split; [lia|]. split; [lia|]. split; [done|]. split; [done|].
    intros _. replace (sr + 2 * dr - dr) with (sr + dr) by lia.
    replace (sc + 2 * dc - dc) with (sc + dc) by lia.
    split; [done|]. right. by exists p.
  - destruct q as [r col]. simpl in *.
    exists (forward c), (col - sc), 1.
    split; [unfold forward; destruct (color_eqb c White); auto|].
    split; [lia|]. split; [lia|]. split; [lia|]. split; [lia|].
    split; [done|]. split; [done|]. lia.
Qed.

Lemma king_move_diagonal c (board : Board) sr sc q :
  king_move c board sr sc q -> diagonal_move c board sr sc q.1 q.2.
Proof.
  intros (dr & dc & [Hdr Hdc]%directions_diag & k & Hk & Hclear & Hq).
  destruct Hq as [(-> & Hon & He)|(Honk & (p & Hp & Hne) & -> & Hon & He)].
  - exists dr, dc, k. simpl. do 3 (split; [done|]).
    split; [done|]. split; [done|]. split; [done|]. split; [done|].
    intros Hk2. destruct (Hclear (k - 1)) as [Hon1 He1]; [lia|].
    unfold on_board in Hon1. simpl in Hon1.
    replace (sr + k * dr - dr) with (sr + (k - 1) * dr) by lia.
    replace (sc + k * dc - dc) with (sc + (k - 1) * dc) by lia.
    split; [done|]. by left.
  - exists dr, dc, (k + 1). simpl. do 2 (split; [done|]). split; [lia|].
    split; [done|]. split; [done|]. split; [done|]. split; [done|].
    intros _.
    replace (sr + (k + 1) * dr - dr) with (sr + k * dr) by lia.
    replace (sc + (k + 1) * dc - dc) with (sc + k * dc) by lia.
    split; [done|]. right. by exists p.
Qed.

Lemma valid_move_diagonal f (board : Board) sr sc er ec k :
  wf_board board ->
  is_valid_move f board sr sc er ec k = Ok true ->
  diagonal_move (color f) board sr sc er ec.
Proof.
  intros Hwf Hvalid.
  destruct (checkers_is_valid_move_spec f board sr sc er ec k Hwf)
    as (v & ms & Hv & Hms & Hiff).
  rewrite Hvalid in Hv. injection Hv as <-.
  destruct Hiff as [(Hpos & He & Hin) _]; [done|].
  destruct f as [c|c]; cbn [get_possible_moves color] in *.
  - destruct (Checker_spec c board sr sc k Hwf) as (ms' & Hms' & Hspec).
    rewrite Hms in Hms'. injection Hms' as <-.
    apply Hspec in Hin.
    by apply (checker_move_diagonal c board sr sc k (er, ec)).
  - destruct (KingChecker_spec c board sr sc k Hwf) as (ms' & Hms' & Hspec).
    rewrite Hms in Hms'. injection Hms' as <-.
    apply Hspec in Hin. by apply (king_move_diagonal c board sr sc (er, ec)).
Qed.

Lemma diagonal_jumped c (board : Board) sr sc er ec :
  diagonal_move c board sr sc er ec ->
  exists dr dc,
    (dr = 1 \/ dr = -1) /\ (dc = 1 \/ dc = -1) /\
    jumped sr sc er ec = (er - dr, ec - dc) /\
    (is_jump sr er = true ->
     check_pos (er - dr) (ec - dc) = true /\
     (er - dr, ec - dc) <> (sr, sc) /\
     (cell board (er - dr) (ec - dc) = None \/
      exists p, cell board (er - dr) (ec - dc) = Some p /\ color p <> c)).
Proof.
  intros (dr & dc & n & Hdr & Hdc & Hn & -> & -> & Hpos & He & Hmid).
  exists dr, dc. split; [done|]. split; [done|]. split.
  - unfold jumped. destruct Hdr as [-> | ->], Hdc as [-> | ->];
      repeat match goal with
             | |- context [?a >? ?b] => destruct (Z.gtb_spec a b)
             end; (done || lia).
  - unfold is_jump. intros Hj.
    assert (2 <= n) as Hn2.
    { apply Z.geb_le in Hj. destruct Hdr as [-> | ->]; lia. }
    destruct (Hmid Hn2) as [Hpm Hcm]. split; [done|]. split; [|done].
    intros [= Hr _]. destruct Hdr as [-> | ->]; lia.
Qed.

(** X15.  An accepted checkers move from a square of the board starts from
    a piece, goes along a diagonal to an empty square, leaves an 8 by 8
    board and removes from it exactly the piece it reports: none for a
    single step, and for a longer move what stood on the square before the
    destination, an enemy of the mover when there was a piece. *)
Theorem checkers_move_takes_only_a_jumped_enemy (board : Board)
    (sr sc er ec : Z) (is_killer : bool) (captured : option Figure)
    (board' : Board) :
  wf_board board -> check_pos sr sc = true ->
  move_figure board sr sc er ec is_killer = (Ok (Captured captured), board') ->
  exists mover,
    cell board sr sc = Some mover /\
    wf_board board' /\
    diagonal_move (color mover) board sr sc er ec /\
    (census board' + occupied captured = census board)%nat /\
    (is_jump sr er = false -> captured = None) /\
    forall p, captured = Some p -> color p <> color mover.
Proof.
  intros Hwf Hpos Hmove.
  pose proof Hpos as [Hsr Hsc]%check_pos_true.
  destruct (checkers_move_figure_cases _ _ _ _ _ _ _ _ Hwf Hmove)
    as [[_ [?|[e ?]]]|(mover & _ & Hfig & Hvalid & Hr & Hwf' & _)]; [done..|].
  rewrite !norm_id in Hfig by lia.
  exists mover. split; [done|]. split; [done|].
  pose proof (valid_move_diagonal mover board sr sc er ec is_killer Hwf Hvalid)
    as Hdiag.
  split; [done|].
  destruct (diagonal_jumped _ _ _ _ _ _ Hdiag)
    as (dr & dc & Hdr & Hdc & Hjumped & Hmid).
  destruct Hdiag as (_ & _ & _ & _ & _ & _ & _ & _ & Hend & Hempty & _).
  pose proof Hend as [Her Hec]%check_pos_true.
  assert ((sr, sc) <> (er, ec)) as Hne by (intros [= -> ->]; congruence).
  (* the board the call leaves, written out *)
  revert Hmove. unfold move_figure, reading.
  rewrite (get_figure_ok _ _ _ Hwf Hpos), Hfig, Hvalid.
  fold (is_jump sr er).
  change (er - (if er - sr >? 0 then 1 else -1)) with (jumped sr sc er ec).1.
  change (ec - (if ec - sc >? 0 then 1 else -1)) with (jumped sr sc er ec).2.
  rewrite Hjumped. cbn [fst snd].
  assert (forall board0 : Board, wf_board board0 ->
            cell board0 er ec = None -> cell board0 sr sc = Some mover ->
            forall cap board1,
              writing board0 er ec (Some mover) (fun board1 =>
                writing board1 sr sc None (fun board2 =>
                  if promotes mover er then
                    writing board2 er ec (Some (KingChecker (color mover)))
                      (fun board3 => (Ok (Captured cap), board3))
                  else (Ok (Captured cap), board2)))
              = (Ok (Captured captured), board1) ->
              cap = captured /\ census board1 = census board0) as Hrelocate.
  { intros board0 Hwf0 He0 Hs0 cap board1. unfold writing.
    rewrite set_figure_index by (done || lia).
    rewrite (norm_id er), (norm_id ec) by lia.
    rewrite set_figure_index by (auto with grid || lia).
    rewrite (norm_id sr), (norm_id sc) by lia.
    pose proof (census_upd board0 er ec (Some mover) Hwf0 Her Hec) as H1.
    pose proof (census_upd (upd board0 er ec (Some mover)) sr sc None
                  (wf_upd _ _ _ _ Hwf0) Hsr Hsc) as H2.
    rewrite cell_upd_other, Hs0 in H2 by (lia || congruence).
    rewrite He0 in H1. simpl in H1, H2.
    destruct (promotes mover er).
    - rewrite set_figure_index by (auto with grid || lia).
      rewrite (norm_id er), (norm_id ec) by lia.
      intros [= <- <-]. split; [done|].
      pose proof (census_upd (upd (upd board0 er ec (Some mover)) sr sc None)
                    er ec (Some (KingChecker (color mover)))
                    (wf_upd _ _ _ _ (wf_upd _ _ _ _ Hwf0)) Her Hec) as H3.
      rewrite cell_upd_other in H3 by (lia || congruence).
      rewrite cell_upd_same in H3 by done.
      simpl in H3. lia.
    - intros [= <- <-]. split; [done|]. lia. }
  destruct (is_jump sr er) eqn:Hjump.
  - destruct (Hmid eq_refl) as (Hpm & Hnes & Hcm).
    pose proof Hpm as [Hm1 Hm2]%check_pos_true.
    rewrite (get_figure_ok _ _ _ Hwf Hpm). unfold writing at 1.
    rewrite set_figure_index by (done || lia).
    rewrite (norm_id (er - dr)), (norm_id (ec - dc)) by lia.
    intros Hrun.
    assert ((er - dr, ec - dc) <> (er, ec)) as Hnee
      by (intros [= ? _]; destruct Hdr; lia).
    apply Hrelocate in Hrun as [<- Hcensus]; [|auto with grid|..].
    + pose proof (census_upd board (er - dr) (ec - dc) None Hwf Hm1 Hm2) as H0.
      simpl in H0. split; [lia|]. split; [done|].
      intros p Hp. destruct Hcm as [?|(p' & Hp' & Hne')]; congruence.
    + rewrite cell_upd_other by (lia || done). done.
    + rewrite cell_upd_other by (lia || done). done.
  - intros Hrun. apply Hrelocate in Hrun as [<- Hcensus]; [|done..].
    simpl. split; [lia|]. split; [done|]. done.
Qed.

Lemma checkers_move_takes_only_a_jumped_enemy_witness :
  exists mover,
    cell (board_after (take 12 king_game)) 3 2 = Some mover /\
    wf_board (move_figure (board_after (take 12 king_game)) 3 2 1 0 false).2 /\
    diagonal_move (color mover) (board_after (take 12 king_game)) 3 2 1 0 /\
    (census (move_figure (board_after (take 12 king_game)) 3 2 1 0 false).2
     + occupied (Some (Checker Black))
     = census (board_after (take 12 king_game)))%nat /\
    (is_jump 3 1 = false -> Some (Checker Black) = None) /\
    forall p, Some (Checker Black) = Some p -> color p <> color mover.
Proof.
  apply (checkers_move_takes_only_a_jumped_enemy
           (board_after (take 12 king_game)) 3 2 1 0 false
           (Some (Checker Black))
           (move_figure (board_after (take 12 king_game)) 3 2 1 0 false).2).
  - split; [reflexivity|]. repeat constructor.
  - reflexivity.
  - reflexivity.
Defined.
End CheckersMoveFacts.

(** * Checkers: crowning and the game loop *)

Section CheckersSafety.
Import Checkers.

Lemma checkers_move_figure_returns (board : Board) sr sc er ec k :
  wf_board board -> check_pos sr sc = true ->
  exists mr, (move_figure board sr sc er ec k).1 = Ok mr.
Proof.
  intros Hwf Hpos. pose proof Hpos as [Hsr Hsc]%check_pos_true.
  unfold move_figure, reading. rewrite (get_figure_ok _ _ _ Hwf Hpos).
  destruct (cell board sr sc) as [mover|] eqn:Hfig; [|by eexists].
  destruct (checkers_is_valid_move_spec mover board sr sc er ec k Hwf)
    as (v & ms & Hv & _ & _).
  rewrite Hv. destruct v; [|by eexists].
  pose proof (valid_move_diagonal mover board sr sc er ec k Hwf Hv) as Hdiag.
  destruct (diagonal_jumped _ _ _ _ _ _ Hdiag)
    as (dr & dc & Hdr & Hdc & Hjumped & Hmid).
  destruct Hdiag as (_ & _ & _ & _ & _ & _ & _ & _ & Hend & _).
  pose proof Hend as [Her Hec]%check_pos_true.
  fold (is_jump sr er).
  change (er - (if er - sr >? 0 then 1 else -1)) with (jumped sr sc er ec).1.
  change (ec - (if ec - sc >? 0 then 1 else -1)) with (jumped sr sc er ec).2.
  rewrite Hjumped. cbn [fst snd].
  assert (forall (board0 : Board) cap, wf_board board0 ->
    exists mr,
      (writing board0 er ec (Some mover) (fun board1 =>
         writing board1 sr sc None (fun board2 =>
           if promotes mover er then
             writing board2 er ec (Some (KingChecker (color mover)))
               (fun board3 => (Ok (Captured cap), board3))
           else (Ok (Captured cap), board2)))).1 = Ok mr) as Hrelocate.
  { intros board0 cap Hwf0. unfold writing.
    rewrite set_figure_index by (done || lia).
    rewrite set_figure_index by (auto with grid || lia).
    destruct (promotes mover er); [|by eexists].
    rewrite set_figure_index by (auto with grid || lia). by eexists. }
  destruct (is_jump sr er).
  - destruct (Hmid eq_refl) as (Hpm & _).
    pose proof Hpm as [Hm1 Hm2]%check_pos_true.
    rewrite (get_figure_ok _ _ _ Hwf Hpm). unfold writing at 1.
    rewrite set_figure_index by (done || lia).
    apply Hrelocate. auto with grid.
  - by apply Hrelocate.
Qed.

Lemma all_crowned_initial : all_crowned initial_board.
Proof.
  intros row col p Hrow Hcol.
  assert (row = 0 \/ row = 1 \/ row = 2 \/ row = 3 \/ row = 4 \/ row = 5
          \/ row = 6 \/ row = 7) as Hr by lia.
  assert (col = 0 \/ col = 1 \/ col = 2 \/ col = 3 \/ col = 4 \/ col = 5
          \/ col = 6 \/ col = 7) as Hc by lia.
  destruct Hr as [-> | [-> | [-> | [-> | [-> | [-> | [-> | ->]]]]]]],
           Hc as [-> | [-> | [-> | [-> | [-> | [-> | [-> | ->]]]]]]];
    vm_compute; intros [= <-] || intros [=]; reflexivity.
Qed.

Lemma move_figure_crowned (board : Board) sr sc er ec k r board' :
  wf_board board -> all_crowned board ->
  move_figure board sr sc er ec k = (r, board') ->
  all_crowned board'.
Proof.
  intros Hwf Hcr Hmove.
  destruct (checkers_move_figure_cases _ _ _ _ _ _ _ _ Hwf Hmove)
    as [[-> _]|(mover & [Hsr Hsc] & Hfig & Hvalid & _ & Hwf' & Hend & Hstart & Hmid & Hrest)];
    [done|].
  intros row col p Hrow Hcol Hp.
  destruct (decide ((row, col) = (er, ec))) as [[= -> ->]|Hne1].
  { rewrite Hend in Hp. unfold landed in Hp.
    destruct (promotes mover er) eqn:Hpr; [done|]. by injection Hp as ->. }
  destruct (decide ((row, col) = (norm sr, norm sc))) as [[= -> ->]|Hne2];
    [congruence|].
  destruct (is_jump sr er) eqn:Hjump.
  - destruct (decide ((row, col) =
        (norm (jumped sr sc er ec).1, norm (jumped sr sc er ec).2)))
      as [Heq|Hne3].
    + specialize (Hmid eq_refl). simpl in Hmid.
      injection Heq as Heq1 Heq2. rewrite Heq1, Heq2 in Hp. congruence.
    + rewrite Hrest in Hp by done. by eapply Hcr.
  - rewrite Hrest in Hp by done. by eapply Hcr.
Qed.

(** X16.  On every board reached from the initial layout by calls of
    [move_figure] no uncrowned Checker stands on its last row (row 0 for
    White, row 7 for Black): it is crowned as it arrives. *)
Theorem no_uncrowned_checker_on_its_last_row (board : Board) :
  reachable board -> all_crowned board.
Proof.
  intros Hreach.
  enough (wf_board board /\ all_crowned board) as [_ ?] by done.
  induction Hreach as [|board sr sc er ec k r board' Hreach [IHwf IHcr] Hmove].
  - split; [apply wf_checkers_initial_board|apply all_crowned_initial].
  - split.
    + by destruct (move_figure_dark _ _ _ _ _ _ _ _ IHwf
                     (proj2 (reachable_dark _ Hreach)) Hmove).
    + by eapply move_figure_crowned.
Qed.

Lemma no_uncrowned_checker_on_its_last_row_witness :
  all_crowned (move_figure initial_board 5 2 4 3 false).2.
Proof.
  apply (no_uncrowned_checker_on_its_last_row
           (move_figure initial_board 5 2 4 3 false).2).
  apply (reachable_move initial_board 5 2 4 3 false
           (move_figure initial_board 5 2 4 3 false).1).
  - apply reachable_initial.
  - reflexivity.
Defined.

Lemma end_turn_ok g : 
  reachable (board g) -> current_turn g = to_move g ->
  waiting_ok (end_turn g).1 (end_turn g).2.
Proof.
  intros Hr Ht. split; [done|]. split; [|done].
  unfold end_turn, to_move in *. cbn. rewrite Ht, even_succ.
  by destruct (Z.even (move_count g)).
Qed.

Lemma enter_ok g sr sc k mover :
  reachable (board g) -> current_turn g = to_move g ->
  check_pos sr sc = true -> cell (board g) sr sc = Some mover ->
  exists g' ph, enter g sr sc k = Ok (g', ph) /\ waiting_ok g' ph.
Proof.
  intros Hr Ht Hpos Hfig. pose proof (proj1 (reachable_dark _ Hr)) as Hwf.
  unfold enter. rewrite (get_figure_ok _ _ _ Hwf Hpos), Hfig. cbn [bind].
  destruct (get_possible_moves_same_shade mover (board g) sr sc k Hwf)
    as (ms & -> & _).
  cbn [bind]. destruct ms.
  - exists (end_turn g).1, (end_turn g).2. split; [done|]. by apply end_turn_ok.
  - eexists _, _. split; [done|]. split; [done|]. split; [done|]. by eauto.
Qed.

Lemma step_ok g ph inp :
  waiting_ok g ph -> (ph = Selecting -> inp <> Undo) ->
  exists g' ph', step g ph inp = Ok (g', ph') /\ waiting_ok g' ph'.
Proof.
  intros (Hr & Ht & Hph) Hundo.
  pose proof (proj1 (reachable_dark _ Hr)) as Hwf.
  destruct ph as [|sr sc k], inp as [|row col]; cbn [step].
  - by destruct (Hundo eq_refl).
  - unfold choose_figure.
    destruct (check_pos row col) eqn:Hpos; cbn [negb bind];
      [|by exists g, Selecting].
    rewrite (get_figure_ok _ _ _ Hwf Hpos). cbn [bind].
    destruct (cell (board g) row col) as [mover|] eqn:Hfig; cbn [bind];
      [|by exists g, Selecting].
    destruct (color_eqb _ _); [|by exists g, Selecting].
    by eapply enter_ok.
  - by exists g, (Moving sr sc k).
  - assert (waiting_ok g (Moving sr sc k)) as Hsame by done.
    destruct Hph as (Hpos & mover & Hfig).
    destruct (check_pos row col) eqn:Hend; cbn [negb];
      [|by exists g, (Moving sr sc k)].
    destruct (checkers_move_figure_returns (board g) sr sc row col k Hwf Hpos)
      as (mr & Hmr).
    destruct (move_figure (board g) sr sc row col k) as [r board'] eqn:Hmove.
    simpl in Hmr. subst r. cbn [bind].
    assert (reachable board') as Hr' by (by eapply reachable_move).
    destruct mr as [|[taken|]].
    + destruct (checkers_move_figure_cases _ _ _ _ _ _ _ _ Hwf Hmove)
        as [[-> _]|(? & _ & _ & _ & ? & _)]; [|done].
      by eapply enter_ok.
    + destruct (checkers_move_figure_cases _ _ _ _ _ _ _ _ Hwf Hmove)
        as [[_ [?|[? ?]]]|(mover' & _ & _ & _ & _ & _ & Hland & _)]; [done..|].
      by eapply enter_ok.
    + eexists _, _. split; [done|]. by apply end_turn_ok.
Qed.

(** X17.  From the initial layout and for every sequence of inputs without
    the command undo, the loop of [CheckersGame.play] raises no error; the
    board is one reached by moves from the initial layout; the colour to
    move is the one the parity of the count tells; and while a target is
    awaited the selected square is on the board and holds a piece. *)
Theorem checkers_play_raises_only_on_undo (inputs : list Input) :
  Undo ∉ inputs ->
  exists g ph,
    run init Selecting inputs = Ok (g, ph) /\
    reachable (board g) /\
    current_turn g = to_move g /\
    match ph with
    | Selecting => True
    | Moving sr sc _ =>
        check_pos sr sc = true /\
        exists mover, cell (board g) sr sc = Some mover
    end.
Proof.
  intros Hundo.
  enough (forall g ph, waiting_ok g ph ->
            exists g' ph', run g ph inputs = Ok (g', ph') /\ waiting_ok g' ph')
    as Hgen.
  { destruct (Hgen init Selecting) as (g & ph & Hrun & Hok).
    - split; [apply reachable_initial|]. by split.
    - by exists g, ph. }
  induction inputs as [|inp rest IH]; intros g ph Hok; cbn [run].
  - by exists g, ph.
  - destruct (step_ok g ph inp Hok) as (g1 & ph1 & -> & Hok1).
    { intros _ ->. apply Hundo. left. }
    cbn [bind fst snd]. apply IH; [|done].
    intros Hin. apply Hundo. by right.
Qed.

Lemma checkers_play_raises_only_on_undo_witness :
  exists g ph,
    run init Selecting king_game = Ok (g, ph) /\
    reachable (board g) /\
    current_turn g = to_move g /\
    match ph with
    | Selecting => True
    | Moving sr sc _ =>
        check_pos sr sc = true /\
        exists mover, cell (board g) sr sc = Some mover
    end.
Proof.
  apply (checkers_play_raises_only_on_undo king_game).
  unfold king_game. rewrite !not_elem_of_cons.
  repeat split; (discriminate || apply not_elem_of_nil).
Defined.
End CheckersSafety.
